(** * remark-attributes: the attachment transform of [lib/index.js]

    A shallow embedding of the second phase of the plugin
    ([attributesTransform] and the functions it calls) and the properties
    of it that the specification states.

    The tree is the mdast tree as the JavaScript code sees it: a node is an
    object with a [type] string and optional fields.  Every in-place
    mutation of the source is an explicit update here; the input is a tree
    (no object is shared between two places of it). *)

From Stdlib Require Import ZArith String Ascii Lia.
From stdpp Require Import base option list strings.

Set Warnings "-register-all".

#[local] Open Scope string_scope.
#[local] Open Scope Z_scope.
#[local] Open Scope nat_scope.

(** ** Data model *)

(** A unist point: [line], [column], [offset], each possibly missing. *)
Record Point := mkPoint {
  line : option Z;
  column : option Z;
  offset : option Z
}.

(** A unist position; [pos_start] and [pos_end] are the fields [start]
    and [end] of the source. *)
Record Position := mkPosition {
  pos_start : option Point;
  pos_end : option Point
}.

(** A value of [data.hProperties]: a string, or an array of strings
    (the [className] entry). *)
Inductive PropVal :=
| PStr (s : string)
| PArr (l : list string).

(** [Record<string, string>]: the entries in [Object.entries] order. *)
Definition Attrs := list (string * string).

(** [data.hProperties]: the own properties of the object, in the order
    of their creation.  [Object.entries] lists them in the order of
    [objectEntries] below. *)
Definition Bag := list (string * PropVal).

(** The [data] field of a node, with the two entries the transform uses. *)
Record Data := mkData {
  hProperties : option Bag;
  mdastAttributes : option Attrs
}.

(** An mdast node.  [children] is [None] when the object has no
    [children] key ('children' in node is false).  [attributes] and
    [value] are the fields of an [mdastAttributes] node (the second also
    of a text node). *)
Inductive Node := mkNode {
  type : string;
  children : option (list Node);
  position : option Position;
  data : option Data;
  lang : option string;
  spread : option bool;
  value : option string;
  attributes : Attrs
}.

Definition setChildren (n : Node) (cs : option (list Node)) : Node :=
  mkNode (type n) cs (position n) (data n) (lang n) (spread n) (value n)
    (attributes n).

Definition setData (n : Node) (d : option Data) : Node :=
  mkNode (type n) (children n) (position n) d (lang n) (spread n) (value n)
    (attributes n).

(** ** Outcome of a pass

    [TypeError] is the exception JavaScript raises when a property of
    [undefined] is read or a missing method is called; [OutOfFuel] is the
    bound of the recursion of this embedding, never reached from
    [attributesTransform] (lemma [attributesTransform_fuel]). *)
Inductive result (A : Type) :=
| Ok (a : A)
| TypeError
| OutOfFuel.
Arguments Ok {A} a.
Arguments TypeError {A}.
Arguments OutOfFuel {A}.

#[global] Instance result_ret : MRet result := fun A a => Ok a.
#[global] Instance result_bind : MBind result := fun A B f m =>
  match m with
  | Ok a => f a
  | TypeError => TypeError
  | OutOfFuel => OutOfFuel
  end.

(** ** The property-bag merger *)

(** [INLINE_TYPES.has(t)] *)
Definition INLINE_TYPES (t : string) : bool :=
  bool_decide (t ∈ ["emphasis"; "strong"; "link"; "image"; "inlineCode"]).

(** [target[key]] *)
Fixpoint getProp (target : Bag) (key : string) : option PropVal :=
  match target with
  | [] => None
  | (k, v) :: rest => if String.eqb k key then Some v else getProp rest key
  end.

(** The write of an own property: an existing key keeps its place, a new
    one is added last. *)
Fixpoint setOwn (target : Bag) (key : string) (v : PropVal) : Bag :=
  match target with
  | [] => [(key, v)]
  | (k, v') :: rest =>
      if String.eqb k key then (k, v) :: rest
      else (k, v') :: setOwn rest key v
  end.

(** [target[key] = v] on a plain object.  Every key is written as an own
    property but [__proto__]: without an own property of that name the
    assignment reaches the setter of [Object.prototype], which stores no
    property (a string is ignored, an array becomes the prototype of the
    object, where no read of the transform looks: arrays have no
    [className]). *)
Definition setProp (target : Bag) (key : string) (v : PropVal) : Bag :=
  if String.eqb key "__proto__" then
    match getProp target key with
    | Some _ => setOwn target key v
    | None => target
    end
  else setOwn target key v.

(** The number a key denotes when it is an array index: a canonical
    decimal numeral below [2^32 - 1]. *)
Definition digit (c : ascii) : option N :=
  let n := N_of_ascii c in
  if ((48 <=? n) && (n <=? 57))%N then Some (n - 48)%N else None.

Fixpoint decimal (acc : N) (s : string) : option N :=
  match s with
  | EmptyString => Some acc
  | String c rest =>
      match digit c with
      | Some d => decimal (10 * acc + d)%N rest
      | None => None
      end
  end.

Definition arrayIndex (key : string) : option N :=
  match key with
  | EmptyString => None
  | String c rest =>
      if Ascii.eqb c "0" && negb (String.eqb rest "") then None
      else match decimal 0 key with
           | Some n => if (n <? 4294967295)%N then Some n else None
           | None => None
           end
  end.

(** [Object.entries(bag)]: the array-index keys first, in ascending
    order, then the other keys in the order of their creation. *)
Fixpoint insertByIndex {V : Type} (i : N) (kv : string * V)
  (sorted : list (N * (string * V))) : list (N * (string * V)) :=
  match sorted with
  | [] => [(i, kv)]
  | (j, kv') :: rest =>
      if (i <? j)%N then (i, kv) :: sorted
      else (j, kv') :: insertByIndex i kv rest
  end.

Definition indexEntries {V : Type} (bag : list (string * V))
  : list (N * (string * V)) :=
  foldr (fun kv acc =>
           match arrayIndex (fst kv) with
           | Some i => insertByIndex i kv acc
           | None => acc
           end) [] bag.

Definition namedEntries {V : Type} (bag : list (string * V))
  : list (string * V) :=
  filter (fun kv => arrayIndex (fst kv) = None) bag.

Definition objectEntries {V : Type} (bag : list (string * V))
  : list (string * V) :=
  (snd <$> indexEntries bag) ++ namedEntries bag.

(** [s.split(c)] for a separator of one character. *)
Fixpoint split (sep : ascii) (s : string) : list string :=
  match s with
  | EmptyString => [EmptyString]
  | String c rest =>
      if Ascii.eqb c sep then EmptyString :: split sep rest
      else match split sep rest with
           | [] => [String c EmptyString]
           | w :: ws => String c w :: ws
           end
  end.

(** [existing.includes(s)] *)
Definition includes (existing : list string) (s : string) : bool :=
  bool_decide (s ∈ existing).

(** [if (!existing.includes(s)) existing.push(s)] *)
Definition pushNew (existing : list string) (s : string) : list string :=
  if includes existing s then existing else existing ++ [s].

(** A string is truthy when it is not empty. *)
Definition truthy (s : string) : bool :=
  match s with EmptyString => false | _ => true end.

(** [Array.isArray(target.className) ? target.className : []] *)
Definition classNameOf (target : Bag) : list string :=
  match getProp target "className" with
  | Some (PArr l) => l
  | _ => []
  end.

(** The [language-*] step of the [class] branch: for a code node with a
    truthy [lang]. *)
Definition addLangClass (existing : list string) (node : Node) : list string :=
  if String.eqb (type node) "code" then
    match lang node with
    | Some l => if truthy l then pushNew existing ("language-" ++ l)
                else existing
    | None => existing
    end
  else existing.

(** [for (const cls of value.split(' ')) if (cls && !existing.includes(cls))
    existing.push(cls)] *)
Definition addTokens (existing : list string) (value : string) : list string :=
  fold_left (fun ex cls => if truthy cls then pushNew ex cls else ex)
    (split " " value) existing.

(** The branch [key === 'class'] of the loop of [mergeAttributes]. *)
Definition mergeClass (target : Bag) (value : string) (node : Node) : Bag :=
  setProp target "className"
    (PArr (addTokens (addLangClass (classNameOf target) node) value)).

(** One iteration of the loop of [mergeAttributes]. *)
Definition mergeEntry (node : Node) (target : Bag) (kv : string * string) : Bag :=
  if String.eqb (fst kv) "class" then mergeClass target (snd kv) node
  else setProp target (fst kv) (PStr (snd kv)).

(** [mergeAttributes(target, source, node)], on a source with string
    values as its declaration says. *)
Definition mergeAttributes (target : Bag) (source : Attrs) (node : Node) : Bag :=
  fold_left (mergeEntry node) source target.

(** One iteration of the same loop when the source is a property bag, as
    in the call of [promoteTightListAttributes]: [value.split] is not a
    function when the value under [class] is an array. *)
Definition mergeBagEntry (node : Node) (target : Bag) (kv : string * PropVal)
  : result Bag :=
  if String.eqb (fst kv) "class" then
    match snd kv with
    | PStr s => Ok (mergeClass target s node)
    | PArr _ => TypeError
    end
  else Ok (setProp target (fst kv) (snd kv)).

(** The loop of [mergeAttributes] over the entries of a property bag. *)
Fixpoint mergeEntries (target : Bag) (entries : list (string * PropVal))
  (node : Node) : result Bag :=
  match entries with
  | [] => Ok target
  | kv :: rest =>
      target' ← mergeBagEntry node target kv;
      mergeEntries target' rest node
  end.

(** [mergeAttributes(target, source, node)] on a property bag as source:
    the loop runs over [Object.entries(source)]. *)
Definition mergeBag (target : Bag) (source : Bag) (node : Node) : result Bag :=
  mergeEntries target (objectEntries source) node.

(** [data.hProperties] after [node.data = node.data || {}] and
    [node.data.hProperties = node.data.hProperties || {}]. *)
Definition dataBag (d : option Data) : Bag :=
  match d with
  | Some d => match hProperties d with Some b => b | None => [] end
  | None => []
  end.

(** [data?.mdastAttributes] *)
Definition dataSide (d : option Data) : option Attrs :=
  match d with
  | Some d => mdastAttributes d
  | None => None
  end.

Definition bagOf (n : Node) : Bag := dataBag (data n).
Definition sideOf (n : Node) : option Attrs := dataSide (data n).

(** The node with [data.hProperties] set to [b]. *)
Definition setBag (n : Node) (b : Bag) : Node :=
  setData n (Some (mkData (Some b) (sideOf n))).

(** [mergeAttributesToNode(node, attributes)] *)
Definition mergeAttributesToNode (node : Node) (attrs : Attrs) : Node :=
  setBag node (mergeAttributes (bagOf node) attrs node).

(** ** Position tests *)

(** [node.position?.end?.offset] and the like: [None] is [undefined]. *)
Definition endPoint (n : Node) : option Point :=
  match position n with Some p => pos_end p | None => None end.
Definition startPoint (n : Node) : option Point :=
  match position n with Some p => pos_start p | None => None end.
Definition endOffset (n : Node) : option Z :=
  match endPoint n with Some q => offset q | None => None end.
Definition startOffset (n : Node) : option Z :=
  match startPoint n with Some q => offset q | None => None end.
Definition endLine (n : Node) : option Z :=
  match endPoint n with Some q => line q | None => None end.
Definition startLine (n : Node) : option Z :=
  match startPoint n with Some q => line q | None => None end.

(** [getPositionGap(before, after)] *)
Definition getPositionGap (before after : Node) : Z :=
  match endOffset before, startOffset after with
  | Some beforeEnd, Some afterStart => (afterStart - beforeEnd)%Z
  | _, _ => (-1)%Z
  end.

(** [areDirectlyAdjacent(first, second)] *)
Definition areDirectlyAdjacent (first second : Node) : bool :=
  match endLine first, startLine second with
  | Some firstEnd, Some secondStart => Z.eqb (secondStart - firstEnd) 1
  | _, _ => false
  end.

(** ** Side-channel relocation *)

Definition isCode (n : Node) : bool := String.eqb (type n) "code".

(** The body of [processCodeBlocks] for a node of type [code]. *)
Definition relocate (code : Node) : Node :=
  match sideOf code with
  | Some m =>
      setData code (Some (mkData (Some (mergeAttributes (bagOf code) m code)) None))
  | None => code
  end.

(** [processCodeBlocks(node)] *)
Fixpoint processCodeBlocks (node : Node) : Node :=
  if isCode node then relocate node
  else match children node with
       | Some cs => setChildren node (Some (processCodeBlocks <$> cs))
       | None => node
       end.

(** ** Thematic breaks that carry children *)

Definition isAttr (n : Node) : bool := String.eqb (type n) "mdastAttributes".
Definition isBreak (n : Node) : bool := String.eqb (type n) "thematicBreak".
Definition isParagraph (n : Node) : bool := String.eqb (type n) "paragraph".

(** The test of [processThematicBreaksInParent] on a child: a thematic
    break with a non-empty [children]. *)
Definition breakWithChildren (child : Node) : bool :=
  isBreak child &&
  match children child with
  | Some (_ :: _) => true
  | _ => false
  end.

(** What the loop does to such a child: every [mdastAttributes] child is
    merged, in order, then [children] is deleted. *)
Definition flattenBreak (child : Node) : Node :=
  match children child with
  | Some cs =>
      setChildren
        (fold_left (fun hr attrChild =>
                      if isAttr attrChild
                      then mergeAttributesToNode hr (attributes attrChild)
                      else hr) cs child)
        None
  | None => child
  end.

(** [processThematicBreaksInParent(parent)].  A flattened break has no
    [children] any more, so the source does not recurse into it; any other
    child is unchanged when the recursion is reached. *)
Fixpoint processThematicBreaksInParent (parent : Node) : Node :=
  match children parent with
  | Some cs =>
      setChildren parent
        (Some ((fun child =>
                  if breakWithChildren child then flattenBreak child
                  else processThematicBreaksInParent child) <$> cs))
  | None => parent
  end.

Definition processThematicBreakAttributes (tree : Node) : Node :=
  processThematicBreaksInParent tree.

(** ** Standalone attribute paragraphs *)

(** [getStandaloneAttributesFromParagraph(node)]; reading [length] of a
    missing [children] raises. *)
Definition getStandaloneAttributesFromParagraph (node : Node)
  : result (option Node) :=
  if isParagraph node then
    match children node with
    | None => TypeError
    | Some [child] => if isAttr child then Ok (Some child) else Ok None
    | Some _ => Ok None
    end
  else Ok None.

(** The depth of the tree under a node: the bound of every recursion
    below. *)
Fixpoint height (n : Node) : nat :=
  match children n with
  | Some cs => S (foldr (fun c acc => Nat.max (height c) acc) 0 cs)
  | None => 0
  end.

Section Standalone.
(** The recursive call. *)
Variable rec : Node → result Node.

(** [if ('children' in child) processStandaloneInParent(child)], then
    the [i++] of the loop. *)
Definition standaloneDescend (i : nat) (cs : list Node) (child : Node)
  : result (nat * list Node) :=
  match children child with
  | Some _ => child' ← rec child; Ok (S i, <[i := child']> cs)
  | None => Ok (S i, cs)
  end.

(** One iteration of the loop of [processStandaloneInParent] at index
    [i], where [child] is [cs[i]]: the next index and the array.
    [i < length - 1] holds exactly when there is an element at [i + 1]. *)
Definition standaloneStep (i : nat) (cs : list Node) (child : Node)
  : result (nat * list Node) :=
  standaloneAttrs ← getStandaloneAttributesFromParagraph child;
  match standaloneAttrs, cs !! S i with
  | Some attrNode, Some nextSibling =>
      if areDirectlyAdjacent child nextSibling then
        Ok (i, delete i
                 (<[S i := mergeAttributesToNode nextSibling (attributes attrNode)]> cs))
      else standaloneDescend i cs child
  | _, _ => standaloneDescend i cs child
  end.

(** The loop, from index [i]; [n] bounds the iterations left. *)
Fixpoint standaloneLoop (n : nat) (i : nat) (cs : list Node)
  : result (list Node) :=
  match cs !! i with
  | None => Ok cs
  | Some child =>
      match n with
      | 0 => OutOfFuel
      | S n' =>
          st ← standaloneStep i cs child;
          standaloneLoop n' (fst st) (snd st)
      end
  end.
End Standalone.

(** [processStandaloneInParent(parent)] *)
Fixpoint processStandaloneInParent_fuel (fuel : nat) (parent : Node)
  : result Node :=
  match fuel with
  | 0 => OutOfFuel
  | S fuel' =>
      match children parent with
      | Some cs =>
          cs' ← standaloneLoop (processStandaloneInParent_fuel fuel')
                  (length cs) 0 cs;
          Ok (setChildren parent (Some cs'))
      | None => Ok parent
      end
  end.

Definition processStandaloneAttributeParagraphs (tree : Node) : result Node :=
  processStandaloneInParent_fuel (S (height tree)) tree.

(** ** Attribute paragraphs after a thematic break *)

Section Trailing.
Variable rec : Node → result Node.

(** [if ('children' in child) processTrailingInParent(child)], then
    [i++]. *)
Definition trailingDescend (i : nat) (cs : list Node) (child : Node)
  : result (nat * list Node) :=
  match children child with
  | Some _ => child' ← rec child; Ok (S i, <[i := child']> cs)
  | None => Ok (S i, cs)
  end.

(** One iteration of the loop of [processTrailingInParent] at index
    [i], with [child = cs[i]] and [prevSibling = cs[i - 1]]. *)
Definition trailingStep (i : nat) (cs : list Node) (child prevSibling : Node)
  : result (nat * list Node) :=
  if isBreak prevSibling then
    standaloneAttrs ← getStandaloneAttributesFromParagraph child;
    match standaloneAttrs with
    | Some attrNode =>
        if areDirectlyAdjacent prevSibling child then
          Ok (i, delete i
                   (<[i - 1 := mergeAttributesToNode prevSibling (attributes attrNode)]> cs))
        else trailingDescend i cs child
    | None => trailingDescend i cs child
    end
  else trailingDescend i cs child.

(** The loop, from index [i]; reading [type] of a missing previous
    sibling raises. *)
Fixpoint trailingLoop (n : nat) (i : nat) (cs : list Node)
  : result (list Node) :=
  match cs !! i with
  | None => Ok cs
  | Some child =>
      match cs !! (i - 1) with
      | None => TypeError
      | Some prevSibling =>
          match n with
          | 0 => OutOfFuel
          | S n' =>
              st ← trailingStep i cs child prevSibling;
              trailingLoop n' (fst st) (snd st)
          end
      end
  end.
End Trailing.

(** [processTrailingInParent(parent)]; the loop starts at index 1. *)
Fixpoint processTrailingInParent_fuel (fuel : nat) (parent : Node)
  : result Node :=
  match fuel with
  | 0 => OutOfFuel
  | S fuel' =>
      match children parent with
      | Some cs =>
          cs' ← trailingLoop (processTrailingInParent_fuel fuel')
                  (length cs) 1 cs;
          Ok (setChildren parent (Some cs'))
      | None => Ok parent
      end
  end.

Definition processTrailingAttributeParagraphs (tree : Node) : result Node :=
  processTrailingInParent_fuel (S (height tree)) tree.

(** ** The generic resolver *)

(** [parent.children], for a node that has the field. *)
Definition kids (parent : Node) : list Node :=
  match children parent with
  | Some cs => cs
  | None => []
  end.

(** The text node of rule 3: [{type: 'text', value: attrNode.value}],
    with the position of the fragment when it has one. *)
Definition textOf (attrNode : Node) : Node :=
  mkNode "text" None (position attrNode) None None None (value attrNode) [].

(** Rule 1 of [handleAttributeNode]: merge into the preceding sibling and
    splice the fragment out. *)
Definition attachToPrevious (parent : Node) (index : nat)
  (prevSibling attrNode : Node) : Node :=
  setChildren parent
    (Some (delete index
             (<[index - 1 := mergeAttributesToNode prevSibling (attributes attrNode)]>
                (kids parent)))).

(** Rule 2: merge into the parent and splice the fragment out. *)
Definition attachToParent (parent : Node) (index : nat) (attrNode : Node)
  : Node :=
  setChildren (mergeAttributesToNode parent (attributes attrNode))
    (Some (delete index (kids parent))).

(** Rule 3: [children[index] = textNode]. *)
Definition replaceByText (parent : Node) (index : nat) (attrNode : Node)
  : Node :=
  setChildren parent (Some (<[index := textOf attrNode]> (kids parent))).

(** Rules 2 and 3, reached when rule 1 does not return.
    [index === children.length - 1] is [index + 1 === children.length]. *)
Definition attachOrText (parent : Node) (index : nat) (attrNode : Node)
  : Node :=
  let isLastChild := S index =? length (kids parent) in
  if isLastChild && negb (INLINE_TYPES (type parent))
  then attachToParent parent index attrNode
  else replaceByText parent index attrNode.

(** [handleAttributeNode(parent, index, attrNode)]: the parent after the
    call.  The caller passes a parent with [children] and
    [attrNode = children[index]]. *)
Definition handleAttributeNode (parent : Node) (index : nat) (attrNode : Node)
  : Node :=
  let prevSibling := if 0 <? index then kids parent !! (index - 1) else None in
  match prevSibling with
  | Some prev =>
      if INLINE_TYPES (type prev) && Z.eqb (getPositionGap prev attrNode) 0
      then attachToPrevious parent index prev attrNode
      else attachOrText parent index attrNode
  | None => attachOrText parent index attrNode
  end.

Section Resolver.
Variable rec : Node → result Node.

(** The loop of [processNode]: the iterations for the indices
    [i - 1], ..., [0], on the parent as it is then.  Reading [type] of a
    missing element raises. *)
Fixpoint processLoop (i : nat) (parent : Node) : result Node :=
  match i with
  | 0 => Ok parent
  | S j =>
      match kids parent !! j with
      | None => TypeError
      | Some child =>
          if isAttr child
          then processLoop j (handleAttributeNode parent j child)
          else child' ← rec child;
               processLoop j
                 (setChildren parent (Some (<[j := child']> (kids parent))))
      end
  end.
End Resolver.

(** [processNode(node, parent)]; the second argument is not used by the
    source. *)
Fixpoint processNode_fuel (fuel : nat) (node : Node) : result Node :=
  match fuel with
  | 0 => OutOfFuel
  | S fuel' =>
      match children node with
      | Some cs => processLoop (processNode_fuel fuel') (length cs) node
      | None => Ok node
      end
  end.

Definition processNode (tree : Node) : result Node :=
  processNode_fuel (S (height tree)) tree.

(** ** Tight lists *)

Definition isList (n : Node) : bool := String.eqb (type n) "list".
Definition isListItem (n : Node) : bool := String.eqb (type n) "listItem".

(** [!node.spread] *)
Definition notSpread (n : Node) : bool :=
  match spread n with
  | Some true => false
  | _ => true
  end.

(** [mergeAttributesToNode(node, bag)] with a property bag as source. *)
Definition mergeBagToNode (node : Node) (source : Bag) : result Node :=
  b ← mergeBag (bagOf node) source node;
  Ok (setBag node b).

(** [delete node.data.hProperties] *)
Definition clearBag (n : Node) : Node :=
  match data n with
  | Some d => setData n (Some (mkData None (mdastAttributes d)))
  | None => n
  end.

(** [grandchild.type === 'paragraph' && grandchild.data?.hProperties &&
    Object.keys(grandchild.data.hProperties).length > 0]: the bag to move,
    if any. *)
Definition promotable (grandchild : Node) : option Bag :=
  if isParagraph grandchild then
    match data grandchild with
    | Some d =>
        match hProperties d with
        | Some (kv :: b) => Some (kv :: b)
        | _ => None
        end
    | None => None
    end
  else None.

(** The loop over [child.children] for a list item [child]: the item
    (its [data] changes) and the grandchildren after it. *)
Fixpoint promoteGrandchildren (child : Node) (gs : list Node)
  : result (Node * list Node) :=
  match gs with
  | [] => Ok (child, [])
  | grandchild :: rest =>
      match promotable grandchild with
      | Some b =>
          child' ← mergeBagToNode child b;
          r ← promoteGrandchildren child' rest;
          Ok (fst r, clearBag grandchild :: snd r)
      | None =>
          r ← promoteGrandchildren child rest;
          Ok (fst r, grandchild :: snd r)
      end
  end.

(** What the first loop of [promoteTightListAttributes] does to a child
    of a tight list; iterating a missing [children] raises. *)
Definition promoteChild (child : Node) : result Node :=
  if isListItem child then
    match children child with
    | None => TypeError
    | Some gs =>
        r ← promoteGrandchildren child gs;
        Ok (setChildren (fst r) (Some (snd r)))
    end
  else Ok child.

(** [for (const x of xs) f(x)], each element replaced by its outcome. *)
Fixpoint forEach {A : Type} (f : A → result A) (xs : list A) : result (list A) :=
  match xs with
  | [] => Ok []
  | x :: rest =>
      x' ← f x;
      rest' ← forEach f rest;
      Ok (x' :: rest')
  end.

(** [promoteTightListAttributes(node)] *)
Fixpoint promoteTightListAttributes_fuel (fuel : nat) (node : Node)
  : result Node :=
  match fuel with
  | 0 => OutOfFuel
  | S fuel' =>
      match children node with
      | Some cs =>
          cs1 ← (if isList node && notSpread node
                 then forEach promoteChild cs
                 else Ok cs);
          cs2 ← forEach (promoteTightListAttributes_fuel fuel') cs1;
          Ok (setChildren node (Some cs2))
      | None => Ok node
      end
  end.

Definition promoteTightListAttributes (tree : Node) : result Node :=
  promoteTightListAttributes_fuel (S (height tree)) tree.

(** ** The transform *)

(** [attributesTransform(tree)] *)
Definition attributesTransform (tree : Node) : result Node :=
  let t1 := processCodeBlocks tree in
  let t2 := processThematicBreakAttributes t1 in
  t3 ← processStandaloneAttributeParagraphs t2;
  t4 ← processTrailingAttributeParagraphs t3;
  t5 ← processNode t4;
  promoteTightListAttributes t5.


(** ** Conditions of the rules, in the words of the specification *)

(** Rule A: a previous sibling exists, is of an inline kind, and the gap
    between its end offset and the start offset of the fragment is zero. *)
Definition inlineZeroGap (parent : Node) (index : nat) (attrNode prev : Node)
  : Prop :=
  0 < index ∧ kids parent !! (index - 1) = Some prev ∧
  INLINE_TYPES (type prev) = true ∧
  ∃ e s : Z, endOffset prev = Some e ∧ startOffset attrNode = Some s ∧
             (s - e = 0)%Z.

(** Rule B: the fragment is the last child and the parent is not of an
    inline kind. *)
Definition lastOfNonInline (parent : Node) (index : nat) : Prop :=
  S index = length (kids parent) ∧ INLINE_TYPES (type parent) = false.

(** The standalone paragraph and its next sibling are directly adjacent:
    both lines are known and differ by one. *)
Definition lineAdjacent (first second : Node) : Prop :=
  ∃ e s : Z, endLine first = Some e ∧ startLine second = Some s ∧
             (s - e = 1)%Z.

(** ** Sample nodes *)

Definition point (l o : Z) : option Point :=
  Some (mkPoint (Some l) (Some (o + 1)%Z) (Some o)).

(** A position on one line [l], from offset [o1] to offset [o2]. *)
Definition onLine (l o1 o2 : Z) : option Position :=
  Some (mkPosition (point l o1) (point l o2)).

Definition parent_of (t : string) (cs : list Node) (p : option Position) : Node :=
  mkNode t (Some cs) p None None None None [].

Definition text_of (v : string) (p : option Position) : Node :=
  mkNode "text" None p None None None (Some v) [].

Definition fragment_of (a : Attrs) (v : string) (p : option Position) : Node :=
  mkNode "mdastAttributes" None p None None None (Some v) a.

(** [*em*{.class}] *)
Definition sample_em : Node := parent_of "emphasis" [text_of "em" (onLine 1 1 3)] (onLine 1 0 4).
Definition sample_frag : Node := fragment_of [("class", "class")] "{.class}" (onLine 1 4 12).
Definition sample_inline : Node :=
  parent_of "paragraph" [sample_em; sample_frag] (onLine 1 0 12).

(** [*em* {.class}]: one space before the brace. *)
Definition sample_frag_gap : Node := fragment_of [("class", "class")] "{.class}" (onLine 1 5 13).
Definition sample_spaced : Node :=
  parent_of "paragraph" [sample_em; text_of " " (onLine 1 4 5); sample_frag_gap] (onLine 1 0 13).

(** The emphasis and a fragment that starts one character after it, and
    the same with a fragment that has no position. *)
Definition sample_gap : Node :=
  parent_of "paragraph" [sample_em; sample_frag_gap] (onLine 1 0 13).

Definition sample_frag_unplaced : Node :=
  fragment_of [("class", "class")] "{.class}" None.

Definition sample_unplaced : Node :=
  parent_of "paragraph" [sample_em; sample_frag_unplaced] (onLine 1 0 12).

(** [before {.class} after] *)
Definition sample_mid_frag : Node := fragment_of [("class", "class")] "{.class}" (onLine 1 7 15).
Definition sample_middle : Node :=
  parent_of "paragraph"
    [text_of "before " (onLine 1 0 7); sample_mid_frag; text_of " after" (onLine 1 15 21)]
    (onLine 1 0 21).

(** ** The words of the specification on class values *)

(** Whitespace: space, tab, line feed, vertical tab, form feed, carriage
    return. *)
Definition isWhitespace (c : ascii) : bool :=
  bool_decide (c ∈ [" "; "009"; "010"; "011"; "012"; "013"]%char).

(** The value split at every character that satisfies [p]. *)
Fixpoint splitWhen (p : ascii → bool) (s : string) : list string :=
  match s with
  | EmptyString => [EmptyString]
  | String c rest =>
      if p c then EmptyString :: splitWhen p rest
      else match splitWhen p rest with
           | [] => [String c EmptyString]
           | w :: ws => String c w :: ws
           end
  end.

(** "Split [value] on whitespace into tokens", the non-empty ones. *)
Definition whitespaceTokens (value : string) : list string :=
  filter (λ t, truthy t = true) (splitWhen isWhitespace value).

(** [a<TAB>b] *)
Definition tabbed : string := String "a" (String "009" (String "b" EmptyString)).

(** A fenced code node [```js {.highlight}]: the parser leaves the
    attributes in [data.mdastAttributes]. *)
Definition sample_code : Node :=
  mkNode "code" None (onLine 1 0 18)
    (Some (mkData None (Some [("class", "highlight")])))
    (Some "js") None (Some "const x = 1") [].

(** The same node when another plugin has already given it a class. *)
Definition sample_code_classed : Node :=
  setData sample_code
    (Some (mkData (Some [("className", PArr ["x"])])
             (Some [("class", "highlight")]))).

(** The fence [```js {.highlight className="x"}]. *)
Definition sample_code_named : Node :=
  setData sample_code
    (Some (mkData None (Some [("class", "highlight"); ("className", "x")]))).

(** Two attribute lines and a heading on three consecutive lines:
    [{first}], [{.second}], [# x]; the first fragment carries [a1] and the
    source text [v1]. *)
Definition line_paragraph (l : Z) (a : Attrs) (v : string) : Node :=
  parent_of "paragraph" [fragment_of a v (onLine l 0 9)] (onLine l 0 9).

Definition sample_heading : Node :=
  parent_of "heading" [text_of "x" (onLine 3 2 3)] (onLine 3 0 3).

Definition sample_two_lines (a1 : Attrs) (v1 : string) : Node :=
  parent_of "root"
    [line_paragraph 1 a1 v1;
     line_paragraph 2 [("class", "second")] "{.second}";
     sample_heading] None.

(** The same with a blank line before the heading. *)
Definition sample_blank_line : list Node :=
  [line_paragraph 1 [("class", "note")] "{.note}";
   parent_of "heading" [text_of "x" (onLine 3 2 3)] (onLine 3 0 3)].

(** The class sequence of a bag begins with the language token. *)
Definition langFirst (langClass : string) (b : Bag) : Prop :=
  ∃ rest, getProp b "className" = Some (PArr (langClass :: rest)).

(** ** Walks and invariants of a tree *)

(** A complete walk of the tree: the number of [mdastAttributes] nodes
    met, the root included. *)
Fixpoint countFragments (n : Node) : nat :=
  (if isAttr n then 1 else 0)
  + match children n with
    | Some cs => foldr (λ c acc, countFragments c + acc) 0 cs
    | None => 0
    end.

(** [P] holds at the node and at every node under it. *)
Inductive AllNodes (P : Node → Prop) : Node → Prop :=
| AllNodes_intro n : P n → Forall (AllNodes P) (kids n) → AllNodes P n.

(** [P] holds at every node under the root. *)
Definition AllBelow (P : Node → Prop) (t : Node) : Prop :=
  Forall (AllNodes P) (kids t).

(** Every code node that [processCodeBlocks] reaches is without
    side-channel map. *)
Inductive CodeDone : Node → Prop :=
| CodeDone_code n : isCode n = true → sideOf n = None → CodeDone n
| CodeDone_other n : isCode n = false → Forall CodeDone (kids n) → CodeDone n.

(** A thematic break has no child left. *)
Definition breakFlat (n : Node) : Prop := isBreak n = true → kids n = [].

(** A paragraph has its [children] field. *)
Definition paragraphOk (n : Node) : Prop :=
  isParagraph n = true → children n ≠ None.

(** A list item has its [children] field. *)
Definition listItemOk (n : Node) : Prop :=
  isListItem n = true → children n ≠ None.

(** No array under the key [class]; a bag that the transform made has
    none, its class sequence is under [className]. *)
Definition bagSafe (b : Bag) : Prop :=
  ∀ l, ("class", PArr l) ∉ b.

(** The tree is typed as mdast has it, as far as the transform reads it:
    paragraphs and list items have children, and [class] holds a string
    wherever it appears in a bag. *)
Definition nodeTyped (n : Node) : Prop :=
  paragraphOk n ∧ listItemOk n ∧ bagSafe (bagOf n).

Definition wellTyped (t : Node) : Prop := AllNodes nodeTyped t.

(** In a tight list no paragraph of an item has a bag to promote. *)
Definition tightDone (n : Node) : Prop :=
  isList n && notSpread n = true →
  ∀ child, child ∈ kids n → isListItem child = true →
    children child ≠ None ∧ ∀ g, g ∈ kids child → promotable g = None.

(** ** How a pass may change a tree *)

(** The fields that no pass writes. *)
Definition sameHead (n n' : Node) : Prop :=
  type n' = type n ∧ position n' = position n ∧ lang n' = lang n
  ∧ spread n' = spread n ∧ value n' = value n ∧ attributes n' = attributes n.

(** The side-channel map stays, or is deleted. *)
Definition sideStable (d d' : option Data) : Prop :=
  dataSide d' = None ∨ dataSide d' = dataSide d.

(** What the passes before the last do to the data of a node. *)
Definition dataMerged (d d' : option Data) : Prop :=
  sideStable d d' ∧ (bagSafe (dataBag d) → bagSafe (dataBag d')).

(** A child list after some elements were removed, some replaced by their
    text node [repl], and the others changed by [E]. *)
Inductive Dropping {A : Type} (E : A → A → Prop) (repl : A → option A)
  : list A → list A → Prop :=
| Dropping_nil : Dropping E repl [] []
| Dropping_skip c cs cs' :
    Dropping E repl cs cs' → Dropping E repl (c :: cs) cs'
| Dropping_keep c c' cs cs' :
    E c c' → Dropping E repl cs cs' → Dropping E repl (c :: cs) (c' :: cs')
| Dropping_repl c c0 c' cs cs' :
    repl c = Some c0 → E c0 c' → Dropping E repl cs cs' →
    Dropping E repl (c :: cs) (c' :: cs').

(** The text node that stands for a fragment. *)
Definition textFor (c : Node) : option Node :=
  if isAttr c then Some (textOf c) else None.

(** [n'] is [n] after some passes: the head fields are the same, the data
    are related by [R], and the children were removed (all of them, for a
    thematic break), replaced by text, or changed in the same way. *)
Inductive Evolves (R : option Data → option Data → Prop) : Node → Node → Prop :=
| Evolves_leaf n n' :
    sameHead n n' → R (data n) (data n') →
    children n = None → children n' = None →
    Evolves R n n'
| Evolves_flat n n' cs :
    sameHead n n' → R (data n) (data n') →
    children n = Some cs → children n' = None →
    isBreak n = true → Evolves R n n'
| Evolves_node n n' cs cs' :
    sameHead n n' → R (data n) (data n') →
    children n = Some cs → children n' = Some cs' →
    Dropping (Evolves R) textFor cs cs' → Evolves R n n'.

(** The successors of a tree under the passes before the last, and of a
    child list. *)
Abbreviation Succ := (Evolves dataMerged).
Abbreviation SuccList := (Dropping (Evolves dataMerged) textFor).

(** What a pass may return: [okP] of its value, or a [TypeError] under
    [errP]; the fuel never runs out. *)
Definition outcome {A : Type} (r : result A) (okP : A → Prop) (errP : Prop)
  : Prop :=
  match r with
  | Ok a => okP a
  | TypeError => errP
  | OutOfFuel => False
  end.

(** What a recursive call is known to do, for a tree of height below
    [f]. *)
Definition recOutcome (f : nat) (rec : Node → result Node) : Prop :=
  ∀ c, height c < f → outcome (rec c) (Succ c) (¬ wellTyped c).

(** The same for a call that raises nothing. *)
Definition recTotal (f : nat) (rec : Node → result Node) : Prop :=
  ∀ c, height c < f → outcome (rec c) (Succ c) False.

(** The node is not a fragment. *)
Definition notAttr (n : Node) : Prop := isAttr n = false.

(** The data of the last pass: the side-channel map is not touched. *)
Abbreviation Moved := (Evolves sideStable).

(** What the recursive call of the standalone pass leaves: the head, the
    [children] field, and paragraphs with children below. *)
Definition recParagraphs (rec : Node → result Node) : Prop :=
  ∀ c c', rec c = Ok c' →
    sameHead c c' ∧ (children c ≠ None → children c' ≠ None)
    ∧ AllBelow paragraphOk c'.

(** What the recursive call of the resolver leaves: no fragment below. *)
Definition recResolved (rec : Node → result Node) : Prop :=
  ∀ c c', rec c = Ok c' → sameHead c c' ∧ AllBelow notAttr c'.

(** A recursive call that changes nothing on the elements of [cs]. *)
Definition recIdle (rec : Node → result Node) (cs : list Node) : Prop :=
  ∀ c, c ∈ cs → rec c = Ok c.

(** The keys an assignment stores: every key but [__proto__], and
    [__proto__] itself on an object with an own property of that name. *)
Definition storable (target : Bag) (key : string) : Prop :=
  key ≠ "__proto__" ∨ is_Some (getProp target key).

(** ** The list-tightness pass, described from the tree *)

(** The list item after the bags of the paragraphs [gs] were merged onto
    it, in order. *)
Fixpoint collectBags (item : Node) (gs : list Node) : result Node :=
  match gs with
  | [] => Ok item
  | g :: rest =>
      match promotable g with
      | Some b => item' ← mergeBagToNode item b; collectBags item' rest
      | None => collectBags item rest
      end
  end.

(** A paragraph with a non-empty bag loses it; any other node is kept. *)
Definition clearPromotable (g : Node) : Node :=
  match promotable g with
  | Some _ => clearBag g
  | None => g
  end.

(** A list that is not spread. *)
Definition tightList (n : Node) : bool := isList n && notSpread n.

(** The node with the data that its place gives it: [inTight] says that
    the parent is a tight list, [inItem] that the parent is a list item of
    a tight list.  A list item of a tight list receives the bags of its
    paragraphs; a paragraph of such an item loses its bag; every other
    node keeps its data. *)
Definition ownData (inTight inItem : bool) (n : Node) : result Node :=
  if inTight && isListItem n
  then match children n with
       | Some gs => collectBags n gs
       | None => TypeError
       end
  else Ok (if inItem then clearPromotable n else n).

(** The pass as the specification words it, by the place of each node. *)
Fixpoint promoteSpec (inTight inItem : bool) (n : Node) : result Node :=
  n1 ← ownData inTight inItem n;
  match children n with
  | Some cs =>
      cs' ← forEach (promoteSpec (tightList n) (inTight && isListItem n)) cs;
      Ok (setChildren n1 (Some cs'))
  | None => Ok n1
  end.


(** The node at a path of child indices. *)
Fixpoint nodeAt (p : list nat) (t : Node) : option Node :=
  match p with
  | [] => Some t
  | i :: p' =>
      match kids t !! i with
      | Some c => nodeAt p' c
      | None => None
      end
  end.



(** A tight list [* foo / * bar {.red}] after the resolver: the class is
    on the paragraph of the second item. *)
Definition item_of (cs : list Node) : Node := parent_of "listItem" cs None.

Definition sample_tight : Node :=
  mkNode "list"
    (Some [item_of [parent_of "paragraph" [text_of "foo" None] None];
           item_of [setBag (parent_of "paragraph" [text_of "bar " None] None)
                      [("className", PArr ["red"])]]])
    None None None (Some false) None [].

(** The same list when it is spread. *)
Definition sample_loose : Node :=
  mkNode "list" (children sample_tight) None None None (Some true) None [].

(** [# Heading {#my-id}] followed by [*em*{.class} text. {.para}]. *)
Definition sample_document : Node :=
  parent_of "root"
    [parent_of "heading"
       [text_of "Heading " (onLine 1 2 10);
        fragment_of [("id", "my-id")] "{#my-id}" (onLine 1 10 18)]
       (onLine 1 0 18);
     parent_of "paragraph"
       [parent_of "emphasis" [text_of "em" (onLine 3 1 3)] (onLine 3 0 4);
        fragment_of [("class", "class")] "{.class}" (onLine 3 4 12);
        text_of " text. " (onLine 3 12 19);
        fragment_of [("class", "para")] "{.para}" (onLine 3 19 26)]
       (onLine 3 0 26)]
    None.

(** The same document after the transform. *)
Definition sample_document_done : Node :=
  parent_of "root"
    [setBag (parent_of "heading" [text_of "Heading " (onLine 1 2 10)] (onLine 1 0 18))
       [("id", PStr "my-id")];
     setBag
       (parent_of "paragraph"
          [setBag (parent_of "emphasis" [text_of "em" (onLine 3 1 3)] (onLine 3 0 4))
             [("className", PArr ["class"])];
           text_of " text. " (onLine 3 12 19)]
          (onLine 3 0 26))
       [("className", PArr ["para"])]]
    None.

(** The tight list after the pass. *)
Definition sample_tight_done : Node :=
  mkNode "list"
    (Some [item_of [parent_of "paragraph" [text_of "foo" None] None];
           setBag
             (item_of [setData (parent_of "paragraph" [text_of "bar " None] None)
                         (Some (mkData None None))])
             [("className", PArr ["red"])]])
    None None None (Some false) None [].

(** A thematic break that carries two fragments, [{#a}] and [{.b}]. *)
Definition sample_break : Node :=
  parent_of "root"
    [parent_of "thematicBreak"
       [fragment_of [("id", "a")] "{#a}" None;
        fragment_of [("class", "b")] "{.b}" None]
       (onLine 2 0 3)]
    None.

(** ** Further descriptions of the merger *)

(** The value that [Object.entries(source)] gives for [key]; the last
    one, should the list name the key twice. *)
Fixpoint lastEntry {V : Type} (source : list (string * V)) (key : string)
  : option V :=
  match source with
  | [] => None
  | (k, v) :: rest =>
      match lastEntry rest key with
      | Some v' => Some v'
      | None => if String.eqb k key then Some v else None
      end
  end.

(** The key of the target that an entry of the source writes:
    [className] for a [class] entry, its own key otherwise. *)
Definition writes (kv : string * string) : string :=
  if String.eqb (fst kv) "class" then "className" else fst kv.

(** ** Further descriptions of the loops *)

(** What the trailing pass may do to the first child of a parent: its
    head, children and side-channel map stay; when it is no thematic
    break it stays as it is. *)
Definition firstKept (c0 c0' : Node) : Prop :=
  sameHead c0 c0' ∧ children c0' = children c0 ∧ sideOf c0' = sideOf c0
  ∧ (isBreak c0 = false → c0' = c0).

(** A thematic break [---] on line [l]. *)
Definition break_on (l : Z) : Node :=
  mkNode "thematicBreak" None (onLine l 0 3) None None None None [].

(** [---] and, on the next line, [{.x}], in a block quote. *)
Definition sample_quote : Node :=
  parent_of "blockquote"
    [break_on 1; line_paragraph 2 [("class", "x")] "{.x}"] None.

(** The block quote with the class on the break, the paragraph gone. *)
Definition sample_quote_done : Node :=
  parent_of "blockquote" [setBag (break_on 1) [("className", PArr ["x"])]] None.

(** [Text {.a}{.b}]: two fragments at the end of a paragraph. *)
Definition sample_text : Node := text_of "Text " (onLine 1 0 5).
Definition sample_run : Node :=
  parent_of "paragraph"
    [sample_text;
     fragment_of [("class", "a")] "{.a}" (onLine 1 5 9);
     fragment_of [("class", "b")] "{.b}" (onLine 1 9 13)]
    (onLine 1 0 13).

(** A paragraph object without [children]. *)
Definition sample_childless : Node :=
  mkNode "paragraph" None None None None None None [].

(** ** Further descriptions of the transform *)

(** The number of nodes of a tree. *)
Fixpoint size (n : Node) : nat :=
  S (match children n with
     | Some cs => foldr (λ c acc, size c + acc) 0 cs
     | None => 0
     end).

(** A node as the parser leaves it where the attribute syntax is not
    used: no fragment, no [data], children where mdast has them, and
    none under a thematic break. *)
Definition plain (n : Node) : Prop :=
  isAttr n = false ∧ data n = None ∧ paragraphOk n ∧ listItemOk n
  ∧ breakFlat n.

(** A tight list whose item has the class [a] and holds a paragraph with
    the class [b]. *)
Definition sample_item : Node :=
  setBag (item_of [setBag (parent_of "paragraph" [text_of "bar" None] None)
                     [("className", PArr ["b"]); ("id", PStr "p")]])
    [("className", PArr ["a"]); ("title", PStr "t")].

(** Attribute syntax and nothing else: a fragment, or a paragraph whose
    children are all of that kind (the standalone attribute paragraph is
    one). *)
Fixpoint attrOnly (n : Node) : bool :=
  isAttr n
  || (isParagraph n
      && match children n with
         | Some cs => foldr (λ c acc, attrOnly c && acc) true cs
         | None => false
         end).

(** A child list after the elements that satisfy [gone] were removed,
    some of them only; the others are replaced by their text node [repl]
    or changed by [E], in their order. *)
Inductive Thinning {A : Type} (gone : A → Prop) (E : A → A → Prop)
  (repl : A → option A) : list A → list A → Prop :=
| Thinning_nil : Thinning gone E repl [] []
| Thinning_skip c cs cs' :
    gone c → Thinning gone E repl cs cs' → Thinning gone E repl (c :: cs) cs'
| Thinning_keep c c' cs cs' :
    E c c' → Thinning gone E repl cs cs' →
    Thinning gone E repl (c :: cs) (c' :: cs')
| Thinning_repl c c0 c' cs cs' :
    repl c = Some c0 → E c0 c' → Thinning gone E repl cs cs' →
    Thinning gone E repl (c :: cs) (c' :: cs').

(** [n'] is [n] with its content kept: the head fields are the same, and
    of the children only attribute syntax was removed (under a thematic
    break, all the children); a fragment that stays became its text
    node; the children that stay are kept in the same sense, in their
    order.  The [data] field is left out of the comparison. *)
Inductive Kept : Node → Node → Prop :=
| Kept_leaf n n' :
    sameHead n n' → children n = None → children n' = None → Kept n n'
| Kept_flat n n' cs :
    sameHead n n' → children n = Some cs → children n' = None →
    isBreak n = true → Kept n n'
| Kept_node n n' cs cs' :
    sameHead n n' → children n = Some cs → children n' = Some cs' →
    Thinning (λ c, attrOnly c = true) Kept textFor cs cs' → Kept n n'.

Abbreviation KeptList := (Thinning (λ c, attrOnly c = true) Kept textFor).

(** ** A run of attribute lines *)

(** [ps] are standalone attribute paragraphs, each directly above the
    following one, the last directly above [next]. *)
Fixpoint standaloneChain (ps : list Node) (next : Node) : Prop :=
  match ps with
  | [] => True
  | p :: ps' =>
      (∃ attrNode, getStandaloneAttributesFromParagraph p = Ok (Some attrNode))
      ∧ lineAdjacent p (match ps' with q :: _ => q | [] => next end)
      ∧ standaloneChain ps' next
  end.

(** ** The plugins

    The three exported functions.  What they do to the processor is
    modelled on the three lists of [self.data()] that they write; the
    extension objects that [attributes()], [attributesFromMarkdown()] and
    [attributesToMarkdown()] return come from other packages and are
    opaque here. *)

Section Plugins.
Variable Extension : Type.
Variables attributesExt fromMarkdownExt toMarkdownExt : Extension.

(** [self.data()], with the fields that the plugins write; [None] is a
    field not yet set. *)
Record ProcessorData := mkProcessorData {
  micromarkExtensions : option (list Extension);
  fromMarkdownExtensions : option (list Extension);
  toMarkdownExtensions : option (list Extension)
}.

(** [const xs = data.field || (data.field = []); xs.push(e)]: the field
    after the two statements. *)
Definition pushExtension (field : option (list Extension)) (e : Extension)
  : option (list Extension) :=
  Some (match field with Some xs => xs | None => [] end ++ [e])%list.

(** [remarkAttributesParse()]: the data of the processor after the
    call; the function returns nothing. *)
Definition remarkAttributesParse (data : ProcessorData) : ProcessorData :=
  mkProcessorData
    (pushExtension (micromarkExtensions data) attributesExt)
    (pushExtension (fromMarkdownExtensions data) fromMarkdownExt)
    (pushExtension (toMarkdownExtensions data) toMarkdownExt).

(** [remarkAttributesTransform()]: the transformer it returns. *)
Definition remarkAttributesTransform : Node → result Node :=
  attributesTransform.

(** [remarkAttributes()]: the data of the processor after the call, and
    the transformer it returns. *)
Definition remarkAttributes (data : ProcessorData)
  : ProcessorData * (Node → result Node) :=
  (mkProcessorData
     (pushExtension (micromarkExtensions data) attributesExt)
     (pushExtension (fromMarkdownExtensions data) fromMarkdownExt)
     (pushExtension (toMarkdownExtensions data) toMarkdownExt),
   λ tree, attributesTransform tree).

(** The extensions registered in a field. *)
Definition registered (field : option (list Extension)) : list Extension :=
  match field with Some xs => xs | None => [] end.
End Plugins.

Arguments mkProcessorData {Extension} _ _ _.
Arguments micromarkExtensions {Extension} _.
Arguments fromMarkdownExtensions {Extension} _.
Arguments toMarkdownExtensions {Extension} _.
Arguments pushExtension {Extension} _ _.
Arguments remarkAttributesParse {Extension} _ _ _ _.
Arguments remarkAttributes {Extension} _ _ _ _.
Arguments registered {Extension} _.

(** A tight list with an item object that has no [children], under a
    root. *)
Definition sample_childless_item : Node :=
  parent_of "root"
    [mkNode "list"
       (Some [item_of [parent_of "paragraph" [text_of "foo" None] None];
              mkNode "listItem" None None None None None None []])
       None None None (Some false) None []]
    None.

(** ** The merger of the earlier version

    The repository also keeps the earlier version of [lib/index.js], in
    which [mergeAttributes] takes no node and joins class values into
    one string under [class]. *)

Module Legacy.

(** [Record<string, string>]: the target of the earlier merger. *)
Definition StringBag := list (string * string).

(** [target[key]] *)
Fixpoint get (target : StringBag) (key : string) : option string :=
  match target with
  | [] => None
  | (k, v) :: rest => if String.eqb k key then Some v else get rest key
  end.

(** The write of an own property. *)
Fixpoint setOwn (target : StringBag) (key : string) (v : string) : StringBag :=
  match target with
  | [] => [(key, v)]
  | (k, v') :: rest =>
      if String.eqb k key then (k, v) :: rest
      else (k, v') :: setOwn rest key v
  end.

(** [target[key] = v]: as in the current version, [__proto__] is stored
    only where the object has an own property of that name. *)
Definition set (target : StringBag) (key : string) (v : string) : StringBag :=
  if String.eqb key "__proto__" then
    match get target key with
    | Some _ => setOwn target key v
    | None => target
    end
  else setOwn target key v.

(** [target.class], the empty string standing for a missing one (both
    are falsy). *)
Definition classOf (target : StringBag) : string :=
  match get target "class" with
  | Some s => s
  | None => ""
  end.

(** One iteration of the loop:
    [if (key === 'class' && target.class) target.class += ' ' + value
     else target[key] = value]. *)
Definition mergeEntry (target : StringBag) (kv : string * string)
  : StringBag :=
  if String.eqb (fst kv) "class" && truthy (classOf target)
  then set target "class" (classOf target ++ " " ++ snd kv)
  else set target (fst kv) (snd kv).

(** [mergeAttributes(target, source)] of the earlier version. *)
Definition mergeAttributes (target : StringBag) (source : Attrs) : StringBag :=
  fold_left mergeEntry source target.

End Legacy.

(** A bag of the current version that stands for a bag of the earlier
    one: its class sequence is made of the tokens of the class string,
    each once, in their order; every other key holds the same string. *)
Definition refinesLegacy (target0 : Legacy.StringBag) (target : Bag) : Prop :=
  classNameOf target = addTokens [] (Legacy.classOf target0)
  ∧ ∀ key, key ≠ "class" → key ≠ "className" →
      getProp target key = PStr <$> Legacy.get target0 key.

(** ** The attachments, one at a time

    What the six passes do to a tree, as single rewritings of a node:
    every pass that returns has applied some of them, one after the
    other, somewhere in the tree. *)

(** One rewriting at a node.  [Rule_relocate]: the side-channel map of a
    code node is merged into its bag and deleted.  [Rule_flatten]: the
    fragments among the children of a thematic break are merged into the
    break, in order, and all its children are deleted.
    [Rule_standalone]: the fragment of a standalone attribute paragraph
    is merged into the next sibling of the paragraph, which is directly
    below it, and the paragraph is deleted.  [Rule_trailing]: the same
    into a thematic break directly above the paragraph.  [Rule_inline],
    [Rule_last]: a fragment is merged into its previous sibling of an
    inline kind that it touches, or, as the last child, into its parent
    of no inline kind, and deleted.  [Rule_text]: a fragment is replaced
    by its text node.  [Rule_promote]: in a tight list the bag of a
    paragraph is merged onto the list item that holds it, and deleted
    from the paragraph. *)
Inductive Rule : Node → Node → Prop :=
| Rule_relocate code m :
    isCode code = true → sideOf code = Some m → Rule code (relocate code)
| Rule_flatten hr :
    breakWithChildren hr = true → Rule hr (flattenBreak hr)
| Rule_standalone parent cs i child attrNode next :
    children parent = Some cs → cs !! i = Some child →
    getStandaloneAttributesFromParagraph child = Ok (Some attrNode) →
    cs !! S i = Some next → lineAdjacent child next →
    Rule parent
      (setChildren parent
         (Some (delete i
                  (<[S i := mergeAttributesToNode next (attributes attrNode)]> cs))))
| Rule_trailing parent cs i child attrNode prev :
    children parent = Some cs → 0 < i → cs !! i = Some child →
    cs !! (i - 1) = Some prev → isBreak prev = true →
    getStandaloneAttributesFromParagraph child = Ok (Some attrNode) →
    lineAdjacent prev child →
    Rule parent
      (setChildren parent
         (Some (delete i
                  (<[i - 1 := mergeAttributesToNode prev (attributes attrNode)]> cs))))
| Rule_inline parent cs index attrNode prev :
    children parent = Some cs → cs !! index = Some attrNode →
    isAttr attrNode = true → inlineZeroGap parent index attrNode prev →
    Rule parent (attachToPrevious parent index prev attrNode)
| Rule_last parent cs index attrNode :
    children parent = Some cs → cs !! index = Some attrNode →
    isAttr attrNode = true → lastOfNonInline parent index →
    Rule parent (attachToParent parent index attrNode)
| Rule_text parent cs index attrNode :
    children parent = Some cs → cs !! index = Some attrNode →
    isAttr attrNode = true →
    Rule parent (replaceByText parent index attrNode)
| Rule_promote list cs i item gs j g bag item' :
    tightList list = true → children list = Some cs → cs !! i = Some item →
    isListItem item = true → children item = Some gs → gs !! j = Some g →
    promotable g = Some bag → mergeBagToNode item bag = Ok item' →
    Rule list
      (setChildren list
         (Some (<[i := setChildren item' (Some (<[j := clearBag g]> gs))]> cs))).

(** One rewriting somewhere in the tree: at the node, or in one of its
    children. *)
Inductive Step : Node → Node → Prop :=
| Step_here n n' : Rule n n' → Step n n'
| Step_below n cs i c c' :
    children n = Some cs → cs !! i = Some c → Step c c' →
    Step n (setChildren n (Some (<[i := c']> cs))).

(** Any number of rewritings, one after the other. *)
Inductive Steps : Node → Node → Prop :=
| Steps_refl n : Steps n n
| Steps_step n1 n2 n3 : Step n1 n2 → Steps n2 n3 → Steps n1 n3.

(** The same for a child list, under whatever parent holds it. *)
Definition StepsIn (cs cs' : list Node) : Prop :=
  ∀ parent, children parent = Some cs →
    Steps parent (setChildren parent (Some cs')).

(** A thematic break whose only child is an emphasis that holds the
    fragment [{.x}]. *)
Definition sample_break_nested : Node :=
  parent_of "root"
    [parent_of "thematicBreak"
       [parent_of "emphasis" [fragment_of [("class", "x")] "{.x}" None] None]
       (onLine 1 0 3)]
    None.

(** ** The class sequence, in the words of the specification *)

(** The elements of a list, each at its first occurrence, in their
    order. *)
Fixpoint firstOccurrences (ts : list string) : list string :=
  match ts with
  | [] => []
  | t :: rest => t :: filter (λ x, x ≠ t) (firstOccurrences rest)
  end.

(** "Each non-empty token is appended only if not already present": what
    the sequence [existing] receives from a class value, the value being
    split at its space characters. *)
Definition newTokens (existing : list string) (value : string) : list string :=
  firstOccurrences
    (filter (λ t, truthy t = true ∧ t ∉ existing) (split " " value)).

(** ** What a list item receives, in the words of the specification *)



(** ** A code node through the transform *)

(** An attribute map without [className] entry. *)
Definition noClassName (m : Attrs) : Prop :=
  ∀ kv, kv ∈ m → fst kv ≠ "className".

(** The maps that an attachment can merge into a node with the head
    fields of [code] have no [className] entry.  At a node [n] these
    are: when [n] has those head fields, its side-channel map and the
    fragments it holds; and for a child of [n] with those head fields,
    the fragments of a paragraph that stands before it among the
    children of [n] and ends on the line before it begins (an attribute
    line above it). *)
Definition guarded (code n : Node) : Prop :=
  (sameHead code n →
     (∀ m, sideOf n = Some m → noClassName m)
     ∧ ∀ f, f ∈ kids n → isAttr f = true → noClassName (attributes f))
  ∧ ∀ i j p c,
      i < j → kids n !! i = Some p → kids n !! j = Some c →
      sameHead code c → isParagraph p = true → lineAdjacent p c →
      ∀ f, f ∈ kids p → isAttr f = true → noClassName (attributes f).

(** What an attachment does to the data of a node that stays, where the
    maps are guarded: the side-channel map stays or is deleted, and the
    class sequence of a node with the head fields of [code] is
    continued, no token of it removed or moved. *)
Definition grows (code n n' : Node) : Prop :=
  sideStable (data n) (data n')
  ∧ (sameHead code n →
     classNameOf (bagOf n) `prefix_of` classNameOf (bagOf n')).

(** [n'] is [n] with its content kept, as in [Kept], and the data of
    every node that stays grown in that sense. *)
Inductive Thrives (code : Node) : Node → Node → Prop :=
| Thrives_leaf n n' :
    sameHead n n' → grows code n n' →
    children n = None → children n' = None → Thrives code n n'
| Thrives_flat n n' cs :
    sameHead n n' → grows code n n' →
    children n = Some cs → children n' = None →
    isBreak n = true → Thrives code n n'
| Thrives_node n n' cs cs' :
    sameHead n n' → grows code n n' →
    children n = Some cs → children n' = Some cs' →
    Thinning (λ c, attrOnly c = true) (Thrives code) textFor cs cs' →
    Thrives code n n'.

Abbreviation ThrivesList code :=
  (Thinning (λ c, attrOnly c = true) (Thrives code) textFor).

(** An element of the thinned list and the element it comes from. *)
Definition cameFrom (code x x' : Node) : Prop :=
  Thrives code x x' ∨ (isAttr x = true ∧ Thrives code (textOf x) x').

(** No node above the node at [p] is a code node, a thematic break or a
    fragment: the passes reach the node, and none deletes it with its
    parent. *)
Fixpoint plainPath (t : Node) (p : list nat) : Prop :=
  match p with
  | [] => True
  | i :: q =>
      isCode t = false ∧ isBreak t = false ∧ isAttr t = false
      ∧ match kids t !! i with
        | Some c => plainPath c q
        | None => False
        end
  end.

(** The code block [```js {.highlight}] on line 5. *)
Definition sample_code_below : Node :=
  mkNode "code" None (onLine 5 0 18)
    (Some (mkData None (Some [("class", "highlight")])))
    (Some "js") None (Some "const x = 1") [].

(** A heading [# x {className=y}]. *)
Definition sample_heading_named : Node :=
  parent_of "heading"
    [text_of "x " (onLine 3 2 4);
     fragment_of [("className", "y")] "{className=y}" (onLine 3 4 17)]
    (onLine 3 0 17).

(** In a block quote: the heading, an attribute line [{.wide}] and, on
    the next line, the code block. *)
Definition sample_code_document : Node :=
  parent_of "root"
    [parent_of "blockquote"
       [sample_heading_named;
        line_paragraph 4 [("class", "wide")] "{.wide}";
        sample_code_below]
       None]
    None.

(** The same after the transform. *)
Definition sample_code_document_done : Node :=
  parent_of "root"
    [parent_of "blockquote"
       [setBag (parent_of "heading" [text_of "x " (onLine 3 2 4)] (onLine 3 0 17))
          [("className", PStr "y")];
        setData sample_code_below
          (Some (mkData
                   (Some [("className", PArr ["language-js"; "highlight"; "wide"])])
                   None))]
       None]
    None.

(** The code block below an attribute line [{className=x}]. *)
Definition sample_code_line_named : Node :=
  parent_of "root"
    [line_paragraph 4 [("className", "x")] "{className=x}"; sample_code_below]
    None.

(** The code block under a thematic break, under another code node, and
    under a fragment. *)
Definition sample_code_in_break : Node :=
  parent_of "root" [parent_of "thematicBreak" [sample_code] (onLine 1 0 3)] None.

Definition sample_code_in_code : Node :=
  parent_of "root" [parent_of "code" [sample_code] None] None.

Definition sample_code_in_fragment : Node :=
  parent_of "root"
    [parent_of "paragraph"
       [text_of "x" None;
        mkNode "mdastAttributes" (Some [sample_code]) None None None None
          (Some "{.a}") [("class", "a")]]
       None]
    None.

(** * Properties *)

(** ** Projections of the updates *)

Lemma kids_setChildren n cs : kids (setChildren n (Some cs)) = cs.
Proof. reflexivity. Qed.

Lemma kids_setData n d : kids (setData n d) = kids n.
Proof. reflexivity. Qed.

Lemma kids_mergeAttributesToNode n a : kids (mergeAttributesToNode n a) = kids n.
Proof. reflexivity. Qed.

Lemma type_mergeAttributesToNode n a : type (mergeAttributesToNode n a) = type n.
Proof. reflexivity. Qed.

Lemma bagOf_setBag n b : bagOf (setBag n b) = b.
Proof. reflexivity. Qed.

Lemma bagOf_mergeAttributesToNode n a :
  bagOf (mergeAttributesToNode n a) = mergeAttributes (bagOf n) a n.
Proof. reflexivity. Qed.

(** ** The gap test *)

Lemma getPositionGap_zero before after :
  getPositionGap before after = 0%Z ↔
  ∃ e s : Z, endOffset before = Some e ∧ startOffset after = Some s ∧
             (s - e = 0)%Z.
Proof.
  unfold getPositionGap.
  destruct (endOffset before) as [e|], (startOffset after) as [s|]; split;
    try (intros (e' & s' & ? & ? & ?); simplify_eq; done); try done.
  intros H. by exists e, s.
Qed.

Lemma areDirectlyAdjacent_true first second :
  areDirectlyAdjacent first second = true ↔ lineAdjacent first second.
Proof.
  unfold areDirectlyAdjacent, lineAdjacent.
  destruct (endLine first) as [e|], (startLine second) as [s|]; split;
    try (intros (e' & s' & ? & ? & ?); simplify_eq); try done.
  - intros H%Z.eqb_eq. by exists e, s.
  - by apply Z.eqb_eq.
Qed.

(** Rule 1 returns exactly under [inlineZeroGap]. *)
Lemma handleAttributeNode_attach parent index attrNode prev :
  inlineZeroGap parent index attrNode prev →
  handleAttributeNode parent index attrNode
  = attachToPrevious parent index prev attrNode.
Proof.
  intros (Hi & Hprev & Hinl & Hgap). unfold handleAttributeNode.
  apply Nat.ltb_lt in Hi. rewrite Hi, Hprev, Hinl.
  apply getPositionGap_zero in Hgap. by rewrite Hgap.
Qed.

Lemma handleAttributeNode_fallthrough parent index attrNode :
  (∀ prev, ¬ inlineZeroGap parent index attrNode prev) →
  handleAttributeNode parent index attrNode = attachOrText parent index attrNode.
Proof.
  intros Hno. unfold handleAttributeNode.
  destruct (0 <? index) eqn:Hi; [|done].
  destruct (kids parent !! (index - 1)) as [prev|] eqn:Hprev; [|done].
  destruct (INLINE_TYPES (type prev)) eqn:Hinl; [|done].
  destruct (Z.eqb (getPositionGap prev attrNode) 0) eqn:Hgap; [|done].
  exfalso. apply (Hno prev). apply Nat.ltb_lt in Hi.
  apply Z.eqb_eq, getPositionGap_zero in Hgap. done.
Qed.

Lemma attachOrText_last parent index attrNode :
  lastOfNonInline parent index →
  attachOrText parent index attrNode = attachToParent parent index attrNode.
Proof.
  intros [Hlast Hinl]. unfold attachOrText.
  apply Nat.eqb_eq in Hlast. by rewrite Hlast, Hinl.
Qed.

Lemma attachOrText_text parent index attrNode :
  ¬ lastOfNonInline parent index →
  attachOrText parent index attrNode = replaceByText parent index attrNode.
Proof.
  intros Hno. unfold attachOrText.
  destruct (S index =? length (kids parent)) eqn:Hlast; [|done].
  destruct (INLINE_TYPES (type parent)) eqn:Hinl; [done|].
  exfalso. apply Hno. apply Nat.eqb_eq in Hlast. done.
Qed.

(** C2. In the generic resolver a fragment is merged into its previous
    sibling (and spliced out) when that sibling exists, is of an inline
    kind and the offset gap is exactly zero. In every other case rule A
    does not fire: the call is rules B and C and the previous sibling is
    left as it was; so it is for a gap of one or more, and for an end or
    start offset missing on either node. Nothing is raised
    ([handleAttributeNode] is a total function). *)
Theorem handleAttributeNode_inline_zero_gap parent index attrNode :
  (∀ prev, inlineZeroGap parent index attrNode prev →
     handleAttributeNode parent index attrNode
     = setChildren parent
         (Some (delete index
                  (<[index - 1 := mergeAttributesToNode prev (attributes attrNode)]>
                     (kids parent)))))
  ∧ ((∀ prev, ¬ inlineZeroGap parent index attrNode prev) →
     handleAttributeNode parent index attrNode
     = attachOrText parent index attrNode
     ∧ (0 < index →
        kids (handleAttributeNode parent index attrNode) !! (index - 1)
        = kids parent !! (index - 1)))
  ∧ (∀ prev e s,
       kids parent !! (index - 1) = Some prev →
       endOffset prev = Some e → startOffset attrNode = Some s →
       (1 ≤ s - e)%Z →
       handleAttributeNode parent index attrNode
       = attachOrText parent index attrNode)
  ∧ (∀ prev,
       kids parent !! (index - 1) = Some prev →
       endOffset prev = None ∨ startOffset attrNode = None →
       handleAttributeNode parent index attrNode
       = attachOrText parent index attrNode).
Proof.
  split; [|split; [|split]].
  - intros prev H. by rewrite (handleAttributeNode_attach _ _ _ prev).
  - intros Hno. rewrite handleAttributeNode_fallthrough by done.
    split; [done|]. intros Hi. unfold attachOrText.
    destruct (_ && _).
    + unfold attachToParent. rewrite kids_setChildren.
      rewrite list_lookup_delete_lt by lia. done.
    + unfold replaceByText. rewrite kids_setChildren.
      rewrite list_lookup_insert_ne by lia. done.
  - intros prev e s Hprev He Hs Hgap. apply handleAttributeNode_fallthrough.
    intros prev' (_ & Hprev' & _ & e' & s' & He' & Hs' & Hgap').
    simplify_eq. lia.
  - intros prev Hprev Hmiss. apply handleAttributeNode_fallthrough.
    intros prev' (_ & Hprev' & _ & e' & s' & He' & Hs' & _).
    simplify_eq. destruct Hmiss; congruence.
Qed.

Lemma handleAttributeNode_inline_zero_gap_witness :
  handleAttributeNode sample_inline 1 sample_frag
  = parent_of "paragraph"
      [setBag sample_em [("className", PArr ["class"])]] (onLine 1 0 12)
  ∧ handleAttributeNode sample_spaced 2 sample_frag_gap
    = attachOrText sample_spaced 2 sample_frag_gap
  ∧ handleAttributeNode sample_gap 1 sample_frag_gap
    = attachOrText sample_gap 1 sample_frag_gap
  ∧ handleAttributeNode sample_unplaced 1 sample_frag_unplaced
    = attachOrText sample_unplaced 1 sample_frag_unplaced.
Proof.
  split; [|split; [|split]].
  - refine (proj1 (handleAttributeNode_inline_zero_gap sample_inline 1 sample_frag)
              sample_em _).
    split; [lia|]. split; [done|]. split; [done|]. exists 4%Z, 4%Z. done.
  - refine (proj1 (proj1 (proj2 (handleAttributeNode_inline_zero_gap sample_spaced 2
                                   sample_frag_gap)) _)).
    intros prev (_ & Hprev & Hinl & _). simpl in Hprev. by simplify_eq.
  - refine (proj1 (proj2 (proj2 (handleAttributeNode_inline_zero_gap sample_gap 1
                                   sample_frag_gap)))
              sample_em 4%Z 5%Z eq_refl eq_refl eq_refl _).
    lia.
  - refine (proj2 (proj2 (proj2 (handleAttributeNode_inline_zero_gap
                                   sample_unplaced 1 sample_frag_unplaced)))
              sample_em eq_refl _).
    by right.
Defined.

(** C4. When rule A does not apply, a fragment that is the last child of
    a parent of any kind that is not inline-capable is merged into the
    parent and spliced out; when the parent is inline-capable or the
    fragment is not the last child, the parent receives nothing. *)
Theorem handleAttributeNode_last_child parent index attrNode :
  (∀ prev, ¬ inlineZeroGap parent index attrNode prev) →
  (lastOfNonInline parent index →
     handleAttributeNode parent index attrNode
     = setChildren (mergeAttributesToNode parent (attributes attrNode))
         (Some (delete index (kids parent)))
     ∧ bagOf (handleAttributeNode parent index attrNode)
       = mergeAttributes (bagOf parent) (attributes attrNode) parent)
  ∧ (¬ lastOfNonInline parent index →
     handleAttributeNode parent index attrNode
     = replaceByText parent index attrNode
     ∧ data (handleAttributeNode parent index attrNode) = data parent).
Proof.
  intros Hno. rewrite handleAttributeNode_fallthrough by done. split.
  - intros Hlast. rewrite attachOrText_last by done. done.
  - intros Hnl. rewrite attachOrText_text by done. done.
Qed.

Lemma handleAttributeNode_last_child_witness :
  bagOf (handleAttributeNode sample_spaced 2 sample_frag_gap)
  = [("className", PArr ["class"])]
  ∧ data (handleAttributeNode sample_middle 1 sample_mid_frag) = None.
Proof.
  split.
  - refine (eq_trans
              (proj2 (proj1 (handleAttributeNode_last_child sample_spaced 2
                               sample_frag_gap _) _)) _).
    + intros prev (_ & Hprev & Hinl & _). simpl in Hprev. by simplify_eq.
    + split; done.
    + reflexivity.
  - refine (eq_trans
              (proj2 (proj2 (handleAttributeNode_last_child sample_middle 1
                               sample_mid_frag _) _)) _).
    + intros prev (_ & Hprev & Hinl & _). simpl in Hprev. by simplify_eq.
    + intros [Hlast _]. simpl in Hlast. lia.
    + reflexivity.
Defined.

(** C3. When neither rule A nor rule B applies, the fragment is replaced
    in place: the parent keeps its number of children, the node at the
    index of the fragment is a text node whose value is the [value] of the
    fragment and whose position is the position of the fragment, every
    other child and the parent's data are as before. *)
Theorem handleAttributeNode_orphan parent index attrNode :
  kids parent !! index = Some attrNode →
  (∀ prev, ¬ inlineZeroGap parent index attrNode prev) →
  ¬ lastOfNonInline parent index →
  let parent' := handleAttributeNode parent index attrNode in
  length (kids parent') = length (kids parent)
  ∧ (∃ t, kids parent' !! index = Some t ∧ type t = "text"
          ∧ value t = value attrNode ∧ position t = position attrNode
          ∧ children t = None)
  ∧ (∀ j, j ≠ index → kids parent' !! j = kids parent !! j)
  ∧ data parent' = data parent.
Proof.
  intros Hat Hno Hnl parent'. subst parent'.
  rewrite handleAttributeNode_fallthrough, attachOrText_text by done.
  unfold replaceByText. rewrite kids_setChildren.
  apply lookup_lt_Some in Hat as Hlt.
  split; [by rewrite length_insert|]. split.
  - exists (textOf attrNode). rewrite list_lookup_insert_eq by done. done.
  - split; [|done]. intros j Hj. by rewrite list_lookup_insert_ne.
Qed.

Lemma handleAttributeNode_orphan_witness :
  kids (handleAttributeNode sample_middle 1 sample_mid_frag)
  = [text_of "before " (onLine 1 0 7); text_of "{.class}" (onLine 1 7 15);
     text_of " after" (onLine 1 15 21)].
Proof.
  assert (H := handleAttributeNode_orphan sample_middle 1 sample_mid_frag).
  cbv zeta in H.
  destruct H as (_ & _ & _ & _).
  - reflexivity.
  - intros prev (_ & Hprev & Hinl & _). simpl in Hprev. by simplify_eq.
  - intros [Hlast _]. simpl in Hlast. lia.
  - reflexivity.
Defined.

(** ** The merger *)

Lemma getProp_setOwn_eq b k v : getProp (setOwn b k v) k = Some v.
Proof.
  induction b as [|[k' v'] b IH]; simpl.
  - by rewrite String.eqb_refl.
  - destruct (String.eqb k' k) eqn:E; simpl; rewrite E; [done|apply IH].
Qed.

Lemma getProp_setOwn_ne b k k' v :
  k ≠ k' → getProp (setOwn b k v) k' = getProp b k'.
Proof.
  intros Hne. induction b as [|[k0 v0] b IH]; simpl.
  - destruct (String.eqb_spec k k'); [done|reflexivity].
  - destruct (String.eqb_spec k0 k) as [->|]; simpl.
    + destruct (String.eqb_spec k k'); [done|reflexivity].
    + destruct (String.eqb k0 k'); [done|apply IH].
Qed.

(** An assignment stores its value unless the key is [__proto__] and the
    object has no own property of that name; then it stores nothing. *)
Lemma setProp_storable b k v : storable b k → setProp b k v = setOwn b k v.
Proof.
  unfold setProp. intros [Hk|[x Hx]].
  - by destruct (String.eqb_spec k "__proto__").
  - rewrite Hx. by destruct (String.eqb k "__proto__").
Qed.

Lemma setProp_inert b k v : ¬ storable b k → setProp b k v = b.
Proof.
  unfold setProp, storable. intros Hn.
  destruct (String.eqb_spec k "__proto__") as [->|]; [|tauto].
  destruct (getProp b "__proto__") eqn:E; [|done].
  exfalso. apply Hn. right. by eexists.
Qed.

Lemma storable_dec b k : storable b k ∨ ¬ storable b k.
Proof.
  unfold storable. destruct (String.eqb_spec k "__proto__") as [->|]; [|by left; left].
  destruct (getProp b "__proto__") eqn:E.
  - left. right. by eexists.
  - right. intros [?|[x Hx]]; [done|congruence].
Qed.

Lemma getProp_setProp_eq b k v :
  storable b k → getProp (setProp b k v) k = Some v.
Proof. intros H. rewrite setProp_storable by done. apply getProp_setOwn_eq. Qed.

Lemma getProp_setProp_ne b k k' v :
  k ≠ k' → getProp (setProp b k v) k' = getProp b k'.
Proof.
  intros Hne. destruct (storable_dec b k) as [H|H].
  - rewrite setProp_storable by done. by apply getProp_setOwn_ne.
  - by rewrite setProp_inert.
Qed.

Lemma storable_className b : storable b "className".
Proof. by left. Qed.

Lemma getProp_setProp_className b v :
  getProp (setProp b "className" v) "className" = Some v.
Proof. apply getProp_setProp_eq, storable_className. Qed.

(** *** The order of [Object.entries] *)

Lemma insertByIndex_perm {V} i (kv : string * V) l :
  snd <$> insertByIndex i kv l ≡ₚ kv :: (snd <$> l).
Proof.
  induction l as [|[j kv'] l IH]; simpl; [done|].
  destruct (i <? j)%N; simpl; [done|].
  rewrite IH. apply Permutation_swap.
Qed.

Lemma objectEntries_perm {V} (bag : list (string * V)) :
  objectEntries bag ≡ₚ bag.
Proof.
  unfold objectEntries, namedEntries. induction bag as [|kv bag IH]; simpl; [done|].
  destruct (arrayIndex (fst kv)) as [i|] eqn:E.
  - rewrite filter_cons_False by (rewrite E; naive_solver).
    rewrite insertByIndex_perm. simpl. by rewrite IH.
  - rewrite filter_cons_True by done.
    rewrite <- Permutation_middle. by rewrite IH.
Qed.

Lemma elem_of_objectEntries {V} (bag : list (string * V)) kv :
  kv ∈ objectEntries bag ↔ kv ∈ bag.
Proof. by rewrite objectEntries_perm. Qed.

Lemma includes_true l s : includes l s = true ↔ s ∈ l.
Proof. unfold includes. apply bool_decide_eq_true. Qed.

Lemma includes_false l s : includes l s = false ↔ s ∉ l.
Proof. unfold includes. apply bool_decide_eq_false. Qed.

Lemma pushNew_in ex t : includes ex t = true → pushNew ex t = ex.
Proof. unfold pushNew. by intros ->. Qed.

Lemma pushNew_notin ex t :
  includes ex t = false → pushNew ex t = (ex ++ [t])%list.
Proof. unfold pushNew. by intros ->. Qed.

(** The token loop appends, in order and once each, the non-empty tokens
    that are not yet there. *)
Lemma fold_tokens_spec (ts : list string) : ∀ ex,
  ∃ new,
    fold_left (λ ex cls, if truthy cls then pushNew ex cls else ex) ts ex
    = (ex ++ new)%list
    ∧ new `sublist_of` filter (λ t, truthy t = true) ts
    ∧ NoDup new
    ∧ (∀ t, t ∈ new → t ∉ ex)
    ∧ (∀ t, t ∈ ts → truthy t = true → t ∈ (ex ++ new)%list).
Proof.
  induction ts as [|t ts IH]; intros ex; simpl.
  - exists []. rewrite app_nil_r. repeat split; try done.
    + constructor.
    + by intros t ?%elem_of_nil.
    + by intros t ?%elem_of_nil.
  - destruct (truthy t) eqn:Ht.
    + destruct (includes ex t) eqn:Hin.
      * rewrite pushNew_in by done. destruct (IH ex) as (new & Heq & Hsub & Hnd & Hfresh & Hall).
        exists new. rewrite filter_cons_True by done.
        repeat split; try done.
        -- by apply sublist_cons.
        -- intros x [->|Hx]%elem_of_cons Hx'.
           ++ apply elem_of_app. left. by apply includes_true.
           ++ by apply Hall.
      * rewrite pushNew_notin by done.
        destruct (IH (ex ++ [t])%list) as (new & Heq & Hsub & Hnd & Hfresh & Hall).
        exists (t :: new). rewrite filter_cons_True by done.
        rewrite Heq, <- app_assoc. simpl. repeat split; try done.
        -- by apply sublist_skip.
        -- apply NoDup_cons. split; [|done]. intros Hin'.
           apply (Hfresh t Hin'). apply elem_of_app. right. by left.
        -- intros x [->|Hx]%elem_of_cons.
           ++ by apply includes_false.
           ++ intros Hex. apply (Hfresh x Hx). apply elem_of_app. by left.
        -- intros x [->|Hx]%elem_of_cons Hx'.
           ++ apply elem_of_app. right. by left.
           ++ specialize (Hall x Hx Hx'). rewrite <- app_assoc in Hall. done.
    + destruct (IH ex) as (new & Heq & Hsub & Hnd & Hfresh & Hall).
      exists new. rewrite filter_cons_False by (by rewrite Ht).
      repeat split; try done.
      intros x [->|Hx]%elem_of_cons Hx'; [congruence|by apply Hall].
Qed.

Lemma addTokens_spec ex value :
  ∃ new,
    addTokens ex value = (ex ++ new)%list
    ∧ new `sublist_of` filter (λ t, truthy t = true) (split " " value)
    ∧ NoDup new
    ∧ (∀ t, t ∈ new → t ∉ ex)
    ∧ (∀ t, t ∈ split " " value → truthy t = true → t ∈ (ex ++ new)%list).
Proof. apply fold_tokens_spec. Qed.

Lemma classNameOf_setProp b l :
  classNameOf (setProp b "className" (PArr l)) = l.
Proof. unfold classNameOf. by rewrite getProp_setProp_className. Qed.

Lemma classNameOf_setProp_ne b k v :
  k ≠ "className" → classNameOf (setProp b k v) = classNameOf b.
Proof. intros H. unfold classNameOf. by rewrite getProp_setProp_ne. Qed.

Lemma classNameOf_mergeClass b v node :
  classNameOf (mergeClass b v node)
  = addTokens (addLangClass (classNameOf b) node) v.
Proof. apply classNameOf_setProp. Qed.

(** ** Code blocks *)

Lemma addTokens_head L rest v :
  ∃ rest', addTokens (L :: rest) v = L :: rest'.
Proof.
  destruct (addTokens_spec (L :: rest) v) as (new & -> & _).
  by exists (rest ++ new)%list.
Qed.

Lemma addTokens_mono ex v t : t ∈ ex → t ∈ addTokens ex v.
Proof.
  destruct (addTokens_spec ex v) as (new & -> & _).
  intros H. apply elem_of_app. by left.
Qed.

Lemma pushNew_mono ex s t : t ∈ ex → t ∈ pushNew ex s.
Proof.
  unfold pushNew. destruct (includes ex s); [done|].
  intros H. apply elem_of_app. by left.
Qed.

Lemma addLangClass_mono ex node t : t ∈ ex → t ∈ addLangClass ex node.
Proof.
  unfold addLangClass. destruct (String.eqb _ _); [|done].
  destruct (lang node) as [l|]; [|done]. destruct (truthy l); [|done].
  apply pushNew_mono.
Qed.

Section CodeNode.
Variables (code : Node) (id : string).
Hypothesis Hcode : isCode code = true.
Hypothesis Hlang : lang code = Some id.
Hypothesis Hid : truthy id = true.

Lemma addLangClass_code ex : addLangClass ex code = pushNew ex ("language-" ++ id).
Proof using Hcode Hlang Hid.
  unfold addLangClass. unfold isCode in Hcode. by rewrite Hcode, Hlang, Hid.
Qed.

Lemma langFirst_classNameOf b :
  langFirst ("language-" ++ id) b → ∃ rest, classNameOf b = ("language-" ++ id) :: rest.
Proof. intros [rest H]. exists rest. unfold classNameOf. by rewrite H. Qed.

Lemma mergeEntry_langFirst b kv :
  fst kv ≠ "className" → langFirst ("language-" ++ id) b → langFirst ("language-" ++ id) (mergeEntry code b kv).
Proof using Hcode Hlang Hid.
  intros Hk [rest Hb]. unfold mergeEntry.
  destruct (String.eqb_spec (fst kv) "class") as [E|E].
  - unfold mergeClass, langFirst. rewrite getProp_setProp_className, addLangClass_code.
    unfold classNameOf. rewrite Hb.
    rewrite pushNew_in by (apply includes_true; by left).
    destruct (addTokens_head ("language-" ++ id) rest (snd kv)) as [rest' ->]. eauto.
  - exists rest. by rewrite getProp_setProp_ne.
Qed.

Lemma mergeAttributes_langFirst m : ∀ b,
  (∀ kv, kv ∈ m → fst kv ≠ "className") →
  langFirst ("language-" ++ id) b → langFirst ("language-" ++ id) (mergeAttributes b m code).
Proof using Hcode Hlang Hid.
  induction m as [|kv m IH]; intros b Hk Hb; simpl; [done|].
  apply IH.
  - intros kv' Hin. apply Hk. by right.
  - apply mergeEntry_langFirst; [|done]. apply Hk. by left.
Qed.

Lemma mergeClass_langFirst b v :
  classNameOf b = [] → langFirst ("language-" ++ id) (mergeClass b v code).
Proof using Hcode Hlang Hid.
  intros Hb. unfold mergeClass, langFirst.
  rewrite getProp_setProp_className, addLangClass_code, Hb.
  change (pushNew [] ("language-" ++ id)) with [("language-" ++ id)].
  destruct (addTokens_head ("language-" ++ id) [] v) as [rest' ->]. eauto.
Qed.

Lemma mergeEntry_classNameOf_mono b kv t :
  fst kv ≠ "className" → t ∈ classNameOf b →
  t ∈ classNameOf (mergeEntry code b kv).
Proof.
  intros Hk Ht. unfold mergeEntry. destruct (String.eqb (fst kv) "class").
  - rewrite classNameOf_mergeClass. by apply addTokens_mono, addLangClass_mono.
  - by rewrite classNameOf_setProp_ne.
Qed.

Lemma mergeAttributes_classNameOf_mono m : ∀ b t,
  (∀ kv, kv ∈ m → fst kv ≠ "className") → t ∈ classNameOf b →
  t ∈ classNameOf (mergeAttributes b m code).
Proof.
  induction m as [|kv m IH]; intros b t Hk Ht; simpl; [done|].
  apply IH; [intros kv' Hin; apply Hk; by right|].
  apply mergeEntry_classNameOf_mono; [|done]. apply Hk. by left.
Qed.

(** Merging a map that holds a [class] entry and no [className] entry
    onto a bag without class sequence. *)
Lemma mergeAttributes_code_class m v : ∀ b,
  (∀ kv, kv ∈ m → fst kv ≠ "className") →
  ("class", v) ∈ m →
  classNameOf b = [] →
  langFirst ("language-" ++ id) (mergeAttributes b m code)
  ∧ (∀ t, t ∈ split " " v → truthy t = true →
          t ∈ classNameOf (mergeAttributes b m code)).
Proof using Hcode Hlang Hid.
  induction m as [|kv m IH]; intros b Hk Hin Hb.
  { by apply elem_of_nil in Hin. }
  simpl. assert (Hk' : ∀ kv', kv' ∈ m → fst kv' ≠ "className").
  { intros kv' H. apply Hk. by right. }
  assert (Hkv : fst kv ≠ "className") by (apply Hk; by left).
  destruct (String.eqb_spec (fst kv) "class") as [E|E].
  - (* the first [class] entry *)
    assert (Hfirst : langFirst ("language-" ++ id) (mergeEntry code b kv)).
    { unfold mergeEntry. apply String.eqb_eq in E. rewrite E.
      by apply mergeClass_langFirst. }
    split; [by apply mergeAttributes_langFirst|].
    apply elem_of_cons in Hin as [Heq|Hin].
    + subst kv. intros t Ht Htr. apply mergeAttributes_classNameOf_mono; [done|].
      unfold mergeEntry. simpl. rewrite classNameOf_mergeClass.
      destruct (addTokens_spec (addLangClass (classNameOf b) code) v)
        as (new & -> & _ & _ & _ & Hall). by apply Hall.
    + (* a later [class] entry: its tokens are added after *)
      clear IH. revert Hfirst Hin. generalize (mergeEntry code b kv).
      induction m as [|kv' m IH]; intros b' Hfirst Hin.
      { by apply elem_of_nil in Hin. }
      intros t Ht Htr. simpl.
      assert (Hk'' : ∀ kv0, kv0 ∈ m → fst kv0 ≠ "className").
      { intros kv0 H. apply Hk'. by right. }
      apply elem_of_cons in Hin as [Heq|Hin].
      * subst kv'. apply mergeAttributes_classNameOf_mono; [done|].
        unfold mergeEntry. simpl. rewrite classNameOf_mergeClass.
        destruct (addTokens_spec (addLangClass (classNameOf b') code) v)
          as (new & -> & _ & _ & _ & Hall). by apply Hall.
      * apply IH; try done.
        -- intros kv0 H. apply Hk. apply elem_of_cons in H as [->|H].
           ++ by left.
           ++ right. by right.
        -- apply mergeEntry_langFirst; [|done]. apply Hk'. by left.
  - apply elem_of_cons in Hin as [Heq|Hin]; [by subst kv|].
    apply IH; try done.
    unfold mergeEntry. apply String.eqb_neq in E. rewrite E.
    by rewrite classNameOf_setProp_ne.
Qed.
End CodeNode.

(** ** Standalone attribute paragraphs *)

Lemma setChildren_id n cs : children n = Some cs → setChildren n (Some cs) = n.
Proof. destruct n. simpl. by intros ->. Qed.

Lemma getStandalone_Some node attrNode :
  getStandaloneAttributesFromParagraph node = Ok (Some attrNode) →
  isParagraph node = true ∧ children node = Some [attrNode]
  ∧ isAttr attrNode = true.
Proof.
  unfold getStandaloneAttributesFromParagraph.
  destruct (isParagraph node); [|done].
  destruct (children node) as [[|c [|c' cs]]|]; try done.
  destruct (isAttr c) eqn:E; [|done]. intros [= ->]. done.
Qed.



(** C10. There are input trees whose attributes are discarded: for two
    standalone attribute paragraphs on consecutive lines followed by a
    heading on the next line, the attributes of the first paragraph land
    on the second paragraph, which is then deleted in its turn. Whatever
    the first fragment carries ([a1]) and whatever its source text ([v1]),
    the transform returns the same tree: the heading with the class of
    the second fragment only. *)
Theorem attributesTransform_discards a1 v1 :
  attributesTransform (sample_two_lines a1 v1)
  = Ok (parent_of "root"
          [setBag sample_heading [("className", PArr ["second"])]] None)
  ∧ standaloneStep (processStandaloneInParent_fuel 2) 0
      (kids (sample_two_lines a1 v1)) (line_paragraph 1 a1 v1)
    = Ok (0, [mergeAttributesToNode
                (line_paragraph 2 [("class", "second")] "{.second}") a1;
              sample_heading]).
Proof. split; reflexivity. Qed.

(** ** Induction on the tree *)

Lemma height_foldr_le (cs : list Node) c :
  c ∈ cs → height c ≤ foldr (λ c acc, Nat.max (height c) acc) 0 cs.
Proof.
  induction cs as [|c0 cs IH]; [by intros ?%elem_of_nil|].
  intros [->|H]%elem_of_cons; simpl; [lia|]. specialize (IH H). lia.
Qed.

Lemma height_child n c : c ∈ kids n → height c < height n.
Proof.
  unfold kids. destruct n as [t [cs|] p d l s v a]; simpl.
  - intros H%height_foldr_le. lia.
  - by intros ?%elem_of_nil.
Qed.

Lemma height_kids n cs c : children n = Some cs → c ∈ cs → height c < height n.
Proof. intros H Hc. apply height_child. unfold kids. by rewrite H. Qed.

Lemma kids_children n cs : children n = Some cs → kids n = cs.
Proof. unfold kids. by intros ->. Qed.

Lemma kids_leaf n : children n = None → kids n = [].
Proof. unfold kids. by intros ->. Qed.

(** Induction on the nodes, with the property known of every child. *)
Lemma Node_children_ind (P : Node → Prop) :
  (∀ n, (∀ c, c ∈ kids n → P c) → P n) → ∀ n, P n.
Proof.
  intros Hstep n. remember (height n) as h eqn:Hh.
  revert n Hh. induction (lt_wf h) as [h _ IH]. intros n ->.
  apply Hstep. intros c Hc. eapply IH; [|reflexivity]. by apply height_child.
Qed.

(** The height is read from the children only. *)
Lemma height_setData n d : height (setData n d) = height n.
Proof. by destruct n. Qed.

Lemma height_setBag n b : height (setBag n b) = height n.
Proof. by destruct n. Qed.

Lemma height_mergeAttributesToNode n a :
  height (mergeAttributesToNode n a) = height n.
Proof. apply height_setBag. Qed.

(** ** The relation between a tree and its successors *)

Lemma sameHead_refl n : sameHead n n.
Proof. by repeat split. Qed.

Lemma sameHead_trans n1 n2 n3 : sameHead n1 n2 → sameHead n2 n3 → sameHead n1 n3.
Proof.
  intros (?&?&?&?&?&?) (?&?&?&?&?&?). repeat split; congruence.
Qed.

Lemma sameHead_setData n d : sameHead n (setData n d).
Proof. by repeat split. Qed.

Lemma sameHead_setChildren n cs : sameHead n (setChildren n cs).
Proof. by repeat split. Qed.

Lemma sameHead_type n n' : sameHead n n' → type n' = type n.
Proof. by intros (?&_). Qed.

Lemma sameHead_isAttr n n' : sameHead n n' → isAttr n' = isAttr n.
Proof. intros H. unfold isAttr. by rewrite (sameHead_type _ _ H). Qed.

Lemma sameHead_isBreak n n' : sameHead n n' → isBreak n' = isBreak n.
Proof. intros H. unfold isBreak. by rewrite (sameHead_type _ _ H). Qed.

Lemma sameHead_isCode n n' : sameHead n n' → isCode n' = isCode n.
Proof. intros H. unfold isCode. by rewrite (sameHead_type _ _ H). Qed.

Lemma sameHead_isParagraph n n' : sameHead n n' → isParagraph n' = isParagraph n.
Proof. intros H. unfold isParagraph. by rewrite (sameHead_type _ _ H). Qed.

Lemma sameHead_isListItem n n' : sameHead n n' → isListItem n' = isListItem n.
Proof. intros H. unfold isListItem. by rewrite (sameHead_type _ _ H). Qed.

Lemma sameHead_isList n n' : sameHead n n' → isList n' = isList n.
Proof. intros H. unfold isList. by rewrite (sameHead_type _ _ H). Qed.

Lemma sameHead_notSpread n n' : sameHead n n' → notSpread n' = notSpread n.
Proof. intros (_&_&_&H&_). unfold notSpread. by rewrite H. Qed.

Lemma sameHead_textOf n n' : sameHead n n' → textOf n' = textOf n.
Proof. intros (_&Hp&_&_&Hv&_). unfold textOf. by rewrite Hp, Hv. Qed.

Lemma sameHead_textFor n n' : sameHead n n' → textFor n' = textFor n.
Proof.
  intros H. unfold textFor.
  by rewrite (sameHead_isAttr _ _ H), (sameHead_textOf _ _ H).
Qed.

Lemma Evolves_sameHead R n n' : Evolves R n n' → sameHead n n'.
Proof. by intros []. Qed.

Lemma Evolves_data R n n' : Evolves R n n' → R (data n) (data n').
Proof. by intros []. Qed.

Lemma textFor_Some c c0 : textFor c = Some c0 → isAttr c = true ∧ c0 = textOf c.
Proof. unfold textFor. destruct (isAttr c); [|done]. by intros [= <-]. Qed.

Lemma textFor_text c c0 c' : textFor c = Some c0 → sameHead c0 c' → textFor c' = None.
Proof.
  intros [_ ->]%textFor_Some H. unfold textFor.
  rewrite (sameHead_isAttr _ _ H). reflexivity.
Qed.

Section Dropping.
Context {A : Type} (E : A → A → Prop) (repl : A → option A).
Hypothesis E_refl : ∀ a, E a a.

Lemma Dropping_refl cs : Dropping E repl cs cs.
Proof using E_refl.
  induction cs; [apply Dropping_nil|by apply Dropping_keep].
Qed.

Lemma Dropping_delete i cs : Dropping E repl cs (delete i cs).
Proof using E_refl.
  revert i. induction cs as [|c cs IH]; intros [|i]; simpl.
  - apply Dropping_nil.
  - apply Dropping_nil.
  - apply Dropping_skip, Dropping_refl.
  - by apply Dropping_keep.
Qed.

Lemma Dropping_insert i cs c c' :
  cs !! i = Some c → E c c' → Dropping E repl cs (<[i := c']> cs).
Proof using E_refl.
  revert i. induction cs as [|c0 cs IH]; intros [|i]; simpl; try done.
  - intros [= ->] H. apply Dropping_keep; [done|apply Dropping_refl].
  - intros Hi H. apply Dropping_keep; [done|by apply IH].
Qed.

Lemma Dropping_insert_repl i cs c c0 :
  cs !! i = Some c → repl c = Some c0 → Dropping E repl cs (<[i := c0]> cs).
Proof using E_refl.
  revert i. induction cs as [|c1 cs IH]; intros [|i]; simpl; try done.
  - intros [= ->] H. eapply Dropping_repl; [done|done|apply Dropping_refl].
  - intros Hi H. apply Dropping_keep; [done|by apply IH].
Qed.

Lemma Dropping_nil_inv cs' : Dropping E repl [] cs' → cs' = [].
Proof. by inversion 1. Qed.

Lemma Dropping_length cs cs' : Dropping E repl cs cs' → length cs' ≤ length cs.
Proof. induction 1; simpl; lia. Qed.
End Dropping.

(** Composition, when the elements compose. *)
Lemma Dropping_trans {A : Type} (E : A → A → Prop) (repl : A → option A)
  (cs1 : list A) :
  (∀ a b c, a ∈ cs1 ∨ (∃ x, repl x = Some a) → E a b → E b c → E a c) →
  (∀ a b, E a b → repl b = repl a) →
  (∀ a a0 b, repl a = Some a0 → E a0 b → repl b = None) →
  ∀ cs2 cs3,
  Dropping E repl cs1 cs2 → Dropping E repl cs2 cs3 → Dropping E repl cs1 cs3.
Proof.
  intros Htrans Hrepl Htext cs2 cs3 H12. revert cs3.
  induction H12 as [|c cs cs' H IH|c c' cs cs' Hc H IH|c c0 c' cs cs' Hr Hc H IH];
    intros cs3 H23.
  - done.
  - apply Dropping_skip. apply IH; [|done].
    intros a b d [Ha|Ha]; apply Htrans; [left; by right|by right].
  - assert (Htl : ∀ a b d, a ∈ cs ∨ (∃ x, repl x = Some a) →
                           E a b → E b d → E a d).
    { intros a b d [Ha|Ha]; apply Htrans; [left; by right|by right]. }
    inversion H23 as [|? ? ? H'|? c'' ? cs'' Hc' H'|? c0' c'' ? cs'' Hr' Hc' H'];
      subst.
    + apply Dropping_skip. by apply IH.
    + apply Dropping_keep; [|by apply IH].
      eapply Htrans; [left; by left|done..].
    + eapply Dropping_repl; [| |by apply IH].
      * by rewrite <- (Hrepl _ _ Hc).
      * done.
  - assert (Htl : ∀ a b d, a ∈ cs ∨ (∃ x, repl x = Some a) →
                           E a b → E b d → E a d).
    { intros a b d [Ha|Ha]; apply Htrans; [left; by right|by right]. }
    inversion H23 as [|? ? ? H'|? c'' ? cs'' Hc' H'|? c0' c'' ? cs'' Hr' Hc' H'];
      subst.
    + apply Dropping_skip. by apply IH.
    + eapply Dropping_repl; [done| |by apply IH].
      eapply Htrans; [right; by exists c|done..].
    + rewrite (Htext _ _ _ Hr Hc) in Hr'. done.
Qed.

Section EvolvesOrder.
Variable R : option Data → option Data → Prop.
Hypothesis R_refl : ∀ d, R d d.
Hypothesis R_trans : ∀ d1 d2 d3, R d1 d2 → R d2 d3 → R d1 d3.

Lemma Evolves_refl n : Evolves R n n.
Proof using R_refl.
  induction n as [n IH] using Node_children_ind.
  destruct (children n) as [cs|] eqn:Hcs.
  - eapply Evolves_node; [apply sameHead_refl|apply R_refl|done..|].
    rewrite (kids_children _ _ Hcs) in IH. clear Hcs.
    induction cs as [|c cs IHcs]; [apply Dropping_nil|apply Dropping_keep].
    + apply IH. by left.
    + apply IHcs. intros c' Hc'. apply IH. by right.
  - by apply Evolves_leaf; [apply sameHead_refl|apply R_refl|..].
Qed.

Lemma Evolves_trans n1 : ∀ n2 n3,
  Evolves R n1 n2 → Evolves R n2 n3 → Evolves R n1 n3.
Proof using R_trans.
  induction n1 as [n1 IH] using Node_children_ind. intros n2 n3 H12 H23.
  assert (Hh : sameHead n1 n3).
  { eapply sameHead_trans; by eapply Evolves_sameHead. }
  assert (Hd : R (data n1) (data n3)).
  { eapply R_trans; by eapply Evolves_data. }
  destruct H12 as [n1 n2 Hh12 _ Hc1 Hc2|n1 n2 cs Hh12 _ Hc1 Hc2 Hb
                  |n1 n2 cs cs' Hh12 _ Hc1 Hc2 Hdrop].
  - inversion H23; subst; try congruence. by apply Evolves_leaf.
  - inversion H23; subst; try congruence. by eapply Evolves_flat.
  - inversion H23 as [? ? ? ? Hc2' Hc3|? ? cs2 ? ? Hc2' Hc3 Hb
                     |? ? cs2 cs3 ? ? Hc2' Hc3 Hdrop']; subst.
    + congruence.
    + eapply Evolves_flat; [done..|].
      by rewrite <- (sameHead_isBreak _ _ Hh12).
    + rewrite Hc2 in Hc2'. injection Hc2' as <-.
      eapply Evolves_node; [done..|].
      eapply Dropping_trans; [| | |done|done].
      * intros a b c [Ha|[x Hx]] Hab Hbc.
        -- eapply IH; [|done..]. by rewrite (kids_children _ _ Hc1).
        -- apply textFor_Some in Hx as [_ ->].
           assert (Hac : sameHead (textOf x) c).
           { eapply sameHead_trans; by eapply Evolves_sameHead. }
           assert (Hac' : R (data (textOf x)) (data c)).
           { eapply R_trans; by eapply Evolves_data. }
           inversion Hab; subst; try done.
           inversion Hbc; subst; try congruence. by apply Evolves_leaf.
      * intros a b Hab. apply sameHead_textFor. by eapply Evolves_sameHead.
      * intros a a0 b Ha Hab. eapply textFor_text; [done|].
        by eapply Evolves_sameHead.
Qed.
End EvolvesOrder.

Lemma Evolves_weaken (R R' : option Data → option Data → Prop) n :
  (∀ a b, R a b → R' a b) → ∀ n', Evolves R n n' → Evolves R' n n'.
Proof.
  intros HR. induction n as [n IH] using Node_children_ind. intros n' H.
  destruct H as [n n' Hh Hd Hc Hc'|n n' cs Hh Hd Hc Hc' Hb
                |n n' cs cs' Hh Hd Hc Hc' Hdrop].
  - apply Evolves_leaf; auto.
  - eapply Evolves_flat; eauto.
  - eapply Evolves_node; eauto.
    rewrite (kids_children _ _ Hc) in IH. clear Hc Hc'.
    induction Hdrop as [|c cs cs' H IHd|c c' cs cs' Hc H IHd
                       |c c0 c' cs cs' Hr Hc H IHd].
    + constructor.
    + apply Dropping_skip. apply IHd. intros x Hx. apply IH. by right.
    + apply Dropping_keep; [apply IH; [by left|done]|].
      apply IHd. intros x Hx. apply IH. by right.
    + eapply Dropping_repl; [done| |].
      * apply textFor_Some in Hr as [_ ->].
        inversion Hc; subst; try done. apply Evolves_leaf; auto.
      * apply IHd. intros x Hx. apply IH. by right.
Qed.

(** ** The data relations *)

Lemma sideStable_refl d : sideStable d d.
Proof. by right. Qed.

Lemma sideStable_trans d1 d2 d3 :
  sideStable d1 d2 → sideStable d2 d3 → sideStable d1 d3.
Proof.
  unfold sideStable. intros [H1|H1] [H2|H2]; try (by left).
  - left. congruence.
  - right. congruence.
Qed.

Lemma dataMerged_refl d : dataMerged d d.
Proof. split; [apply sideStable_refl|done]. Qed.

Lemma dataMerged_trans d1 d2 d3 :
  dataMerged d1 d2 → dataMerged d2 d3 → dataMerged d1 d3.
Proof.
  intros [H1 H1'] [H2 H2']. split; [by eapply sideStable_trans|auto].
Qed.

(** ** Every pass takes a tree to a successor *)

Lemma elem_of_setOwn b k v x : x ∈ setOwn b k v → x ∈ b ∨ x = (k, v).
Proof.
  induction b as [|[k0 v0] b IH]; simpl.
  - intros ->%list_elem_of_singleton. by right.
  - destruct (String.eqb_spec k0 k) as [->|].
    + intros [->|H]%elem_of_cons; [by right|left; by right].
    + intros [->|H]%elem_of_cons; [left; by left|].
      destruct (IH H) as [?|?]; [left; by right|by right].
Qed.

Lemma elem_of_setProp b k v x : x ∈ setProp b k v → x ∈ b ∨ x = (k, v).
Proof.
  destruct (storable_dec b k) as [H|H].
  - rewrite setProp_storable by done. apply elem_of_setOwn.
  - rewrite setProp_inert by done. by left.
Qed.

Lemma bagSafe_nil : bagSafe [].
Proof. intros l H. by apply elem_of_nil in H. Qed.

Lemma bagSafe_setProp b k v :
  bagSafe b → (k ≠ "class" ∨ ∃ s, v = PStr s) → bagSafe (setProp b k v).
Proof.
  intros Hb Hkv l [H|H]%elem_of_setProp; [by apply (Hb l)|].
  injection H as <- <-. destruct Hkv as [?|[s ?]]; done.
Qed.

Lemma bagSafe_mergeClass b v node : bagSafe b → bagSafe (mergeClass b v node).
Proof. intros H. apply bagSafe_setProp; [done|by left]. Qed.

Lemma bagSafe_mergeEntry node b kv : bagSafe b → bagSafe (mergeEntry node b kv).
Proof.
  intros H. unfold mergeEntry. destruct (String.eqb (fst kv) "class").
  - by apply bagSafe_mergeClass.
  - apply bagSafe_setProp; [done|]. right. by eexists.
Qed.

Lemma bagSafe_mergeAttributes m : ∀ b node,
  bagSafe b → bagSafe (mergeAttributes b m node).
Proof.
  induction m as [|kv m IH]; intros b node H; simpl; [done|].
  by apply IH, bagSafe_mergeEntry.
Qed.

Section Successor.
Variable R : option Data → option Data → Prop.
Hypothesis R_refl : ∀ d, R d d.
Hypothesis R_trans : ∀ d1 d2 d3, R d1 d2 → R d2 d3 → R d1 d3.

Lemma Dropping_Evolves_trans cs1 cs2 cs3 :
  Dropping (Evolves R) textFor cs1 cs2 → Dropping (Evolves R) textFor cs2 cs3 →
  Dropping (Evolves R) textFor cs1 cs3.
Proof using R_trans.
  apply Dropping_trans.
  - intros a b c _. by apply Evolves_trans.
  - intros a b Hab. apply sameHead_textFor. by eapply Evolves_sameHead.
  - intros a a0 b Ha Hab. eapply textFor_text; [done|].
    by eapply Evolves_sameHead.
Qed.

(** A change of the data alone. *)
Lemma Evolves_head n n' :
  sameHead n n' → R (data n) (data n') → children n' = children n →
  Evolves R n n'.
Proof using R_refl.
  intros Hh Hd Hc. destruct (children n) as [cs|] eqn:Hcs.
  - eapply Evolves_node; [done..|]. apply Dropping_refl.
    by apply Evolves_refl.
  - by apply Evolves_leaf.
Qed.

(** A change of the children alone. *)
Lemma Evolves_children n cs cs' :
  children n = Some cs → Dropping (Evolves R) textFor cs cs' →
  Evolves R n (setChildren n (Some cs')).
Proof using R_refl.
  intros Hc Hd. eapply Evolves_node; [apply sameHead_setChildren| |done..].
  apply R_refl.
Qed.

Lemma Dropping_fmap (f : Node → Node) cs :
  (∀ c, c ∈ cs → Evolves R c (f c)) → Dropping (Evolves R) textFor cs (f <$> cs).
Proof.
  induction cs as [|c cs IH]; intros H; simpl; [apply Dropping_nil|].
  apply Dropping_keep; [apply H; by left|].
  apply IH. intros c' Hc'. apply H. by right.
Qed.
End Successor.

Lemma dataMerged_mergeAttributesToNode n a :
  dataMerged (data n) (data (mergeAttributesToNode n a)).
Proof.
  split; [by right|]. intros H.
  change (bagSafe (bagOf (mergeAttributesToNode n a))).
  rewrite bagOf_mergeAttributesToNode. by apply bagSafe_mergeAttributes.
Qed.

Lemma Evolves_mergeAttributesToNode n a :
  Evolves dataMerged n (mergeAttributesToNode n a).
Proof.
  apply Evolves_head; [apply dataMerged_refl|apply sameHead_setData| |done].
  apply dataMerged_mergeAttributesToNode.
Qed.

Lemma Succ_refl n : Succ n n.
Proof. apply Evolves_refl, dataMerged_refl. Qed.

Lemma Succ_trans n1 n2 n3 : Succ n1 n2 → Succ n2 n3 → Succ n1 n3.
Proof. apply Evolves_trans, dataMerged_trans. Qed.

Lemma SuccList_refl cs : SuccList cs cs.
Proof. apply Dropping_refl, Succ_refl. Qed.

Lemma SuccList_trans cs1 cs2 cs3 :
  SuccList cs1 cs2 → SuccList cs2 cs3 → SuccList cs1 cs3.
Proof. apply Dropping_Evolves_trans, dataMerged_trans. Qed.

(** *** Code blocks *)

Lemma Succ_relocate code : Succ code (relocate code).
Proof.
  unfold relocate. destruct (sideOf code) as [m|] eqn:Hm; [|apply Succ_refl].
  apply Evolves_head; [apply dataMerged_refl|apply sameHead_setData| |done].
  split; [by left|]. intros H. simpl. by apply bagSafe_mergeAttributes.
Qed.

Lemma processCodeBlocks_unfold node :
  processCodeBlocks node
  = if isCode node then relocate node
    else match children node with
         | Some cs => setChildren node (Some (processCodeBlocks <$> cs))
         | None => node
         end.
Proof. by destruct node. Qed.

Lemma Succ_processCodeBlocks t : Succ t (processCodeBlocks t).
Proof.
  induction t as [t IH] using Node_children_ind.
  rewrite processCodeBlocks_unfold. destruct (isCode t).
  - apply Succ_relocate.
  - destruct (children t) as [cs|] eqn:Hcs; [|apply Succ_refl].
    eapply Evolves_children; [apply dataMerged_refl|done|].
    apply Dropping_fmap. intros c Hc. apply IH.
    by rewrite (kids_children _ _ Hcs).
Qed.

(** *** Thematic breaks *)

Lemma processThematicBreaksInParent_unfold parent :
  processThematicBreaksInParent parent
  = match children parent with
    | Some cs =>
        setChildren parent
          (Some ((λ child, if breakWithChildren child then flattenBreak child
                           else processThematicBreaksInParent child) <$> cs))
    | None => parent
    end.
Proof. by destruct parent. Qed.

Lemma Succ_merge_fold (cs : list Node) : ∀ hr,
  Succ hr (fold_left (λ hr attrChild,
                        if isAttr attrChild
                        then mergeAttributesToNode hr (attributes attrChild)
                        else hr) cs hr)
  ∧ children (fold_left (λ hr attrChild,
                        if isAttr attrChild
                        then mergeAttributesToNode hr (attributes attrChild)
                        else hr) cs hr) = children hr.
Proof.
  induction cs as [|c cs IH]; intros hr; simpl; [split; [apply Succ_refl|done]|].
  destruct (isAttr c).
  - destruct (IH (mergeAttributesToNode hr (attributes c))) as [H1 H2].
    split; [|by rewrite H2].
    eapply Succ_trans; [apply Evolves_mergeAttributesToNode|done].
  - apply IH.
Qed.

Lemma Succ_flattenBreak child :
  breakWithChildren child = true → Succ child (flattenBreak child).
Proof.
  unfold breakWithChildren, flattenBreak.
  intros [Hb Hc]%andb_true_iff. destruct (children child) as [cs|] eqn:Hcs; [|done].
  destruct (Succ_merge_fold cs child) as [H1 H2].
  set (hr := fold_left _ cs child) in *.
  eapply Evolves_flat; [| |done|done|done].
  - eapply sameHead_trans; [by eapply Evolves_sameHead|apply sameHead_setChildren].
  - by apply Evolves_data in H1.
Qed.

Lemma Succ_processThematicBreaksInParent t :
  Succ t (processThematicBreaksInParent t).
Proof.
  induction t as [t IH] using Node_children_ind.
  rewrite processThematicBreaksInParent_unfold.
  destruct (children t) as [cs|] eqn:Hcs; [|apply Succ_refl].
  eapply Evolves_children; [apply dataMerged_refl|done|].
  apply (Dropping_fmap _ (λ child, if breakWithChildren child then flattenBreak child
                                   else processThematicBreaksInParent child)).
  intros c Hc. destruct (breakWithChildren c) eqn:Hb.
  - by apply Succ_flattenBreak.
  - apply IH. by rewrite (kids_children _ _ Hcs).
Qed.

(** ** What a successor keeps *)

Lemma AllNodes_node P n : AllNodes P n → P n.
Proof. by intros []. Qed.

Lemma AllNodes_kids P n : AllNodes P n → Forall (AllNodes P) (kids n).
Proof. by intros []. Qed.

Lemma AllNodes_leaf (P : Node → Prop) n : P n → children n = None → AllNodes P n.
Proof. intros H Hc. constructor; [done|]. by rewrite kids_leaf. Qed.

Lemma AllNodes_impl (P Q : Node → Prop) n :
  (∀ x, P x → Q x) → AllNodes P n → AllNodes Q n.
Proof.
  intros HPQ. induction n as [n IH] using Node_children_ind. intros H.
  pose proof (AllNodes_node _ _ H) as HP. pose proof (AllNodes_kids _ _ H) as Hk.
  constructor; [auto|]. apply Forall_forall. intros c Hc.
  rewrite Forall_forall in Hk. apply IH; auto.
Qed.

Lemma Dropping_Forall {A : Type} (E : A → A → Prop) repl (Q Q' : A → Prop)
  cs cs' :
  Dropping E repl cs cs' →
  (∀ c c', c ∈ cs → E c c' → Q c → Q' c') →
  (∀ c c0 c', c ∈ cs → repl c = Some c0 → E c0 c' → Q c → Q' c') →
  Forall Q cs → Forall Q' cs'.
Proof.
  induction 1 as [|c cs cs' H IH|c c' cs cs' Hc H IH|c c0 c' cs cs' Hr Hc H IH];
    intros HE Hrepl HQ.
  - constructor.
  - apply Forall_cons in HQ as [_ HQ]. apply IH; [| |done].
    + intros x x' Hx. apply HE. by right.
    + intros x x0 x' Hx. apply Hrepl. by right.
  - apply Forall_cons in HQ as [HQc HQ]. constructor.
    + eapply HE; [by left|done..].
    + apply IH; [| |done].
      * intros x x' Hx. apply HE. by right.
      * intros x x0 x' Hx. apply Hrepl. by right.
  - apply Forall_cons in HQ as [HQc HQ]. constructor.
    + eapply Hrepl; [by left|done..].
    + apply IH; [| |done].
      * intros x x' Hx. apply HE. by right.
      * intros x x0 x' Hx. apply Hrepl. by right.
Qed.

Lemma Evolves_kids_nil R n n' : Evolves R n n' → kids n = [] → kids n' = [].
Proof.
  intros [? ? ? ? Hc Hc'|? ? ? ? ? Hc Hc' ?|? ? cs cs' ? ? Hc Hc' Hd] Hk.
  - by apply kids_leaf.
  - by apply kids_leaf.
  - rewrite (kids_children _ _ Hc) in Hk. subst cs.
    apply Dropping_nil_inv in Hd. subst. by apply kids_children.
Qed.

Lemma Evolves_children_None R n n' :
  Evolves R n n' → children n' = None → children n = None ∨ isBreak n = true.
Proof. intros [] ?; simplify_eq; auto. Qed.

Lemma Evolves_leaf_inv R n n' :
  Evolves R n n' → children n = None → children n' = None.
Proof. intros [] ?; simplify_eq; auto. Qed.

(** A property of single nodes that successors keep and text nodes have
    holds of the whole successor tree. *)
Lemma AllNodes_Evolves R (P : Node → Prop) :
  (∀ n n', Evolves R n n' → P n → P n') →
  (∀ c, P (textOf c)) →
  ∀ n n', Evolves R n n' → AllNodes P n → AllNodes P n'.
Proof.
  intros Hkeep Htext. induction n as [n IH] using Node_children_ind.
  intros n' Hev H.
  pose proof (AllNodes_node _ _ H) as HP. pose proof (AllNodes_kids _ _ H) as Hk.
  clear H. constructor; [by eapply Hkeep|].
  destruct Hev as [n n' Hh Hd Hc Hc'|n n' cs Hh Hd Hc Hc' Hb
                  |n n' cs cs' Hh Hd Hc Hc' Hdrop].
  - rewrite (kids_leaf _ Hc'). constructor.
  - rewrite (kids_leaf _ Hc'). constructor.
  - rewrite (kids_children _ _ Hc) in *. rewrite (kids_children _ _ Hc').
    eapply Dropping_Forall; [done| | |done].
    + intros c c' Hin. by apply IH.
    + intros c c0 c' Hin [_ ->]%textFor_Some Hev _.
      assert (children c' = None) as Hleaf by (by eapply Evolves_leaf_inv).
      apply AllNodes_leaf; [|done]. eapply Hkeep; [done|apply Htext].
Qed.

Lemma AllBelow_Evolves R (P : Node → Prop) :
  (∀ n n', Evolves R n n' → P n → P n') →
  (∀ c, P (textOf c)) →
  ∀ n n', Evolves R n n' → AllBelow P n → AllBelow P n'.
Proof.
  intros Hkeep Htext n n' Hev Hall. unfold AllBelow in *.
  destruct Hev as [n n' Hh Hd Hc Hc'|n n' cs Hh Hd Hc Hc' Hb
                  |n n' cs cs' Hh Hd Hc Hc' Hdrop].
  - rewrite (kids_leaf _ Hc'). constructor.
  - rewrite (kids_leaf _ Hc'). constructor.
  - rewrite (kids_children _ _ Hc) in *. rewrite (kids_children _ _ Hc').
    eapply Dropping_Forall; [done| | |done].
    + intros c c' Hin. by apply AllNodes_Evolves.
    + intros c c0 c' Hin [_ ->]%textFor_Some Hev _.
      assert (children c' = None) as Hleaf by (by eapply Evolves_leaf_inv).
      apply AllNodes_leaf; [|done]. eapply Hkeep; [done|apply Htext].
Qed.

Lemma isBreak_not_paragraph n : isBreak n = true → isParagraph n = false.
Proof. unfold isBreak, isParagraph. by intros ->%String.eqb_eq. Qed.

Lemma isBreak_not_listItem n : isBreak n = true → isListItem n = false.
Proof. unfold isBreak, isListItem. by intros ->%String.eqb_eq. Qed.

Lemma paragraphOk_Evolves R n n' : Evolves R n n' → paragraphOk n → paragraphOk n'.
Proof.
  intros Hev Hok Hp Hc.
  rewrite (sameHead_isParagraph _ _ (Evolves_sameHead _ _ _ Hev)) in Hp.
  destruct (Evolves_children_None _ _ _ Hev Hc) as [H|H]; [by apply Hok|].
  apply isBreak_not_paragraph in H. congruence.
Qed.

Lemma listItemOk_Evolves R n n' : Evolves R n n' → listItemOk n → listItemOk n'.
Proof.
  intros Hev Hok Hp Hc.
  rewrite (sameHead_isListItem _ _ (Evolves_sameHead _ _ _ Hev)) in Hp.
  destruct (Evolves_children_None _ _ _ Hev Hc) as [H|H]; [by apply Hok|].
  apply isBreak_not_listItem in H. congruence.
Qed.

Lemma breakFlat_Evolves R n n' : Evolves R n n' → breakFlat n → breakFlat n'.
Proof.
  intros Hev Hok Hb.
  rewrite (sameHead_isBreak _ _ (Evolves_sameHead _ _ _ Hev)) in Hb.
  eapply Evolves_kids_nil; [done|]. by apply Hok.
Qed.

Lemma nodeTyped_Succ n n' : Succ n n' → nodeTyped n → nodeTyped n'.
Proof.
  intros Hev (Hp & Hl & Hb). split; [by eapply paragraphOk_Evolves|].
  split; [by eapply listItemOk_Evolves|].
  apply Evolves_data in Hev as [_ H]. by apply H.
Qed.

Lemma nodeTyped_textOf c : nodeTyped (textOf c).
Proof. split; [done|]. split; [done|]. apply bagSafe_nil. Qed.

Lemma wellTyped_Succ n n' : Succ n n' → wellTyped n → wellTyped n'.
Proof. apply AllNodes_Evolves; [apply nodeTyped_Succ|apply nodeTyped_textOf]. Qed.

Lemma wellTyped_SuccList cs cs' :
  SuccList cs cs' → Forall wellTyped cs → Forall wellTyped cs'.
Proof.
  intros H. eapply Dropping_Forall; [done| |].
  - intros c c' _. apply wellTyped_Succ.
  - intros c c0 c' _ [_ ->]%textFor_Some Hev _.
    eapply wellTyped_Succ; [done|].
    apply AllNodes_leaf; [apply nodeTyped_textOf|done].
Qed.

(** A successor is not deeper. *)
Lemma height_Evolves R n : ∀ n', Evolves R n n' → height n' ≤ height n.
Proof.
  induction n as [n IH] using Node_children_ind. intros n' Hev.
  destruct Hev as [n n' Hh Hd Hc Hc'|n n' cs Hh Hd Hc Hc' Hb
                  |n n' cs cs' Hh Hd Hc Hc' Hdrop].
  - destruct n, n'; simpl in *. by subst.
  - destruct n'; simpl in *. subst. lia.
  - rewrite (kids_children _ _ Hc) in IH.
    destruct n, n'; simpl in *. subst. apply le_n_S. clear Hh Hd.
    induction Hdrop as [|c cs cs' H IHd|c c' cs cs' Hc H IHd
                       |c c0 c' cs cs' Hr Hc H IHd]; simpl.
    + done.
    + etrans; [apply IHd|lia]. intros x Hx. apply IH. by right.
    + assert (height c' ≤ height c) by (apply IH; [by left|done]).
      assert (IH' : ∀ c0, c0 ∈ cs → ∀ n', Evolves R c0 n' → height n' ≤ height c0).
      { intros x Hx. apply IH. by right. }
      specialize (IHd IH'). lia.
    + apply textFor_Some in Hr as [_ ->].
      assert (children c' = None) as Hleaf by (by eapply Evolves_leaf_inv).
      assert (height c' = 0) as -> by (destruct c'; simpl in *; by subst).
      assert (IH' : ∀ c0, c0 ∈ cs → ∀ n', Evolves R c0 n' → height n' ≤ height c0).
      { intros x Hx. apply IH. by right. }
      specialize (IHd IH'). lia.
Qed.

Lemma height_Dropping R f cs cs' :
  Dropping (Evolves R) textFor cs cs' →
  Forall (λ c, height c < f) cs → Forall (λ c, height c < f) cs'.
Proof.
  intros H. eapply Dropping_Forall; [done| |].
  - intros c c' _ Hev Hc. apply height_Evolves in Hev. lia.
  - intros c c0 c' _ [_ ->]%textFor_Some Hev Hc.
    apply height_Evolves in Hev. simpl in Hev. lia.
Qed.

Lemma Evolves_children_inv R n n' cs cs' :
  Evolves R n n' → children n = Some cs → children n' = Some cs' →
  Dropping (Evolves R) textFor cs cs'.
Proof. intros [] ??; by simplify_eq. Qed.

Lemma height_Evolves_kids R f n n' :
  Evolves R n n' →
  Forall (λ c, height c < f) (kids n) → Forall (λ c, height c < f) (kids n').
Proof.
  intros [? ? Hh Hd Hc Hc'|? ? cs Hh Hd Hc Hc' Hb
         |? ? cs cs' Hh Hd Hc Hc' Hdrop] H.
  - rewrite (kids_leaf _ Hc'). constructor.
  - rewrite (kids_leaf _ Hc'). constructor.
  - rewrite (kids_children _ _ Hc) in H. rewrite (kids_children _ _ Hc').
    by eapply height_Dropping.
Qed.

(** ** The outcome of the passes that recurse on the changed tree *)

Lemma outcome_bind {A B : Type} (m : result A) (f : A → result B)
  (P : A → Prop) (Q : B → Prop) (E : Prop) :
  outcome m P E → (∀ a, P a → outcome (f a) Q E) → outcome (m ≫= f) Q E.
Proof. destruct m; simpl; auto. Qed.

Lemma outcome_impl {A : Type} (r : result A) (P Q : A → Prop) (E E' : Prop) :
  outcome r P E → (∀ a, P a → Q a) → (E → E') → outcome r Q E'.
Proof. destruct r; simpl; auto. Qed.

Lemma outcome_Ok {A : Type} (r : result A) (P : A → Prop) E a :
  outcome r P E → r = Ok a → P a.
Proof. by intros H ->. Qed.

Lemma wellTyped_lookup (cs : list Node) i c :
  Forall wellTyped cs → cs !! i = Some c → wellTyped c.
Proof. intros H Hi. eapply Forall_lookup_1; done. Qed.

Lemma getStandalone_outcome node :
  outcome (getStandaloneAttributesFromParagraph node) (λ _, True)
    (¬ paragraphOk node).
Proof.
  unfold getStandaloneAttributesFromParagraph.
  destruct (isParagraph node) eqn:Hp; [|done].
  destruct (children node) as [[|c [|c' cs]]|] eqn:Hc; simpl; try done.
  - by destruct (isAttr c).
  - intros H. by apply H.
Qed.

Lemma wellTyped_paragraphOk n : wellTyped n → paragraphOk n.
Proof. intros H. by apply AllNodes_node in H as [? _]. Qed.

Section StandaloneOutcome.
Variables (f : nat) (rec : Node → result Node).
Hypothesis Hrec : recOutcome f rec.

Lemma standaloneDescend_outcome i cs child :
  cs !! i = Some child → height child < f →
  outcome (standaloneDescend rec i cs child)
    (λ st, SuccList cs (snd st) ∧ fst st = S i ∧ length (snd st) = length cs)
    (¬ wellTyped child).
Proof using Hrec.
  intros Hi Hh. unfold standaloneDescend.
  destruct (children child); [|simpl; split; [apply SuccList_refl|done]].
  eapply outcome_bind; [by apply Hrec|]. intros child' Hev. simpl.
  split; [by eapply Dropping_insert; [apply Succ_refl|..]|].
  split; [done|]. by rewrite length_insert.
Qed.

Lemma standaloneStep_outcome i cs child :
  cs !! i = Some child → height child < f →
  outcome (standaloneStep rec i cs child)
    (λ st, SuccList cs (snd st) ∧ length (snd st) + S i = length cs + fst st)
    (¬ wellTyped child).
Proof using Hrec.
  intros Hi Hh. unfold standaloneStep.
  assert (Hdesc : outcome (standaloneDescend rec i cs child)
            (λ st, SuccList cs (snd st)
                   ∧ length (snd st) + S i = length cs + fst st)
            (¬ wellTyped child)).
  { eapply outcome_impl; [by apply standaloneDescend_outcome| |done].
    intros st (? & -> & ->). split; [done|lia]. }
  eapply outcome_bind.
  { eapply outcome_impl; [apply getStandalone_outcome|done|].
    intros H Hw. by apply H, wellTyped_paragraphOk. }
  intros [attrNode|] _; [|done].
  destruct (cs !! S i) as [next|] eqn:Hnext; [|done].
  destruct (areDirectlyAdjacent child next); [|done]. simpl.
  apply lookup_lt_Some in Hi as Hlt. apply lookup_lt_Some in Hnext as Hlt'.
  split.
  - eapply SuccList_trans; [|apply Dropping_delete, Succ_refl].
    eapply Dropping_insert; [apply Succ_refl|done|].
    apply Evolves_mergeAttributesToNode.
  - rewrite length_delete, length_insert.
    + lia.
    + apply lookup_lt_is_Some. rewrite length_insert. lia.
Qed.

Lemma standaloneLoop_outcome n : ∀ i cs,
  Forall (λ c, height c < f) cs → length cs ≤ n + i →
  outcome (standaloneLoop rec n i cs) (SuccList cs) (¬ Forall wellTyped cs).
Proof using Hrec.
  induction n as [|n IH]; intros i cs Hh Hn; simpl.
  - destruct (cs !! i) eqn:Hi; [|apply SuccList_refl].
    apply lookup_lt_Some in Hi. simpl in Hn. lia.
  - destruct (cs !! i) as [child|] eqn:Hi; [|apply SuccList_refl].
    eapply outcome_bind.
    + eapply outcome_impl; [apply standaloneStep_outcome; [done|]|done|].
      * by eapply (Forall_lookup_1 _ _ _ _ Hh).
      * intros H Hw. eapply H, wellTyped_lookup; done.
    + intros [i' cs'] [Hs Hlen]. simpl in *.
      eapply outcome_impl; [apply IH| |].
      * by eapply height_Dropping.
      * lia.
      * intros cs'' H. by eapply SuccList_trans.
      * intros H Hw. apply H. by eapply wellTyped_SuccList.
Qed.
End StandaloneOutcome.

Lemma children_height_lt n cs f :
  children n = Some cs → height n < S f → Forall (λ c, height c < f) cs.
Proof.
  intros Hc Hh. apply Forall_forall. intros c Hin.
  pose proof (height_kids _ _ _ Hc Hin). lia.
Qed.

Lemma wellTyped_children n cs :
  wellTyped n → children n = Some cs → Forall wellTyped cs.
Proof. intros H Hc. apply AllNodes_kids in H. by rewrite (kids_children _ _ Hc) in H. Qed.

Lemma processStandaloneInParent_outcome f : ∀ t,
  height t < f →
  outcome (processStandaloneInParent_fuel f t) (Succ t) (¬ wellTyped t).
Proof.
  induction f as [|f IH]; intros t Hh; [lia|]. simpl.
  destruct (children t) as [cs|] eqn:Hc; [|apply Succ_refl].
  eapply outcome_bind.
  - eapply outcome_impl;
      [apply (standaloneLoop_outcome f _ IH (length cs) 0 cs)|done|].
    + by eapply children_height_lt.
    + lia.
    + intros H Hw. by eapply H, wellTyped_children.
  - intros cs' Hs. simpl.
    by eapply Evolves_children; [apply dataMerged_refl|..].
Qed.

(** *** After a thematic break *)

Section TrailingOutcome.
Variables (f : nat) (rec : Node → result Node).
Hypothesis Hrec : recOutcome f rec.

Lemma trailingDescend_outcome i cs child :
  cs !! i = Some child → height child < f →
  outcome (trailingDescend rec i cs child)
    (λ st, SuccList cs (snd st) ∧ fst st = S i ∧ length (snd st) = length cs)
    (¬ wellTyped child).
Proof using Hrec. apply standaloneDescend_outcome, Hrec. Qed.

Lemma trailingStep_outcome i cs child prev :
  cs !! i = Some child → cs !! (i - 1) = Some prev → 0 < i →
  height child < f →
  outcome (trailingStep rec i cs child prev)
    (λ st, SuccList cs (snd st) ∧ length (snd st) + S i = length cs + fst st
           ∧ 0 < fst st)
    (¬ wellTyped child).
Proof using Hrec.
  intros Hi Hprev Hpos Hh. unfold trailingStep.
  assert (Hdesc : outcome (trailingDescend rec i cs child)
            (λ st, SuccList cs (snd st)
                   ∧ length (snd st) + S i = length cs + fst st ∧ 0 < fst st)
            (¬ wellTyped child)).
  { eapply outcome_impl; [by apply trailingDescend_outcome| |done].
    intros st (? & -> & ->). split; [done|lia]. }
  destruct (isBreak prev); [|done].
  eapply outcome_bind.
  { eapply outcome_impl; [apply getStandalone_outcome|done|].
    intros H Hw. by apply H, wellTyped_paragraphOk. }
  intros [attrNode|] _; [|done].
  destruct (areDirectlyAdjacent prev child); [|done]. simpl.
  apply lookup_lt_Some in Hi as Hlt.
  split; [|split; [|done]].
  - eapply SuccList_trans; [|apply Dropping_delete, Succ_refl].
    eapply Dropping_insert; [apply Succ_refl|done|].
    apply Evolves_mergeAttributesToNode.
  - rewrite length_delete, length_insert.
    + lia.
    + apply lookup_lt_is_Some. rewrite length_insert. lia.
Qed.

Lemma trailingLoop_outcome n : ∀ i cs,
  0 < i → Forall (λ c, height c < f) cs → length cs ≤ n + i →
  outcome (trailingLoop rec n i cs) (SuccList cs) (¬ Forall wellTyped cs).
Proof using Hrec.
  induction n as [|n IH]; intros i cs Hpos Hh Hn; simpl.
  - destruct (cs !! i) eqn:Hi; [|apply SuccList_refl].
    apply lookup_lt_Some in Hi. simpl in Hn. lia.
  - destruct (cs !! i) as [child|] eqn:Hi; [|apply SuccList_refl].
    destruct (cs !! (i - 1)) as [prev|] eqn:Hprev.
    2:{ apply lookup_lt_Some in Hi. apply lookup_ge_None in Hprev. lia. }
    eapply outcome_bind.
    + eapply outcome_impl; [apply trailingStep_outcome; [done..|]|done|].
      * by eapply (Forall_lookup_1 _ _ _ _ Hh).
      * intros H Hw. eapply H, wellTyped_lookup; done.
    + intros [i' cs'] (Hs & Hlen & Hpos'). simpl in *.
      eapply outcome_impl; [apply IH| |].
      * done.
      * by eapply height_Dropping.
      * lia.
      * intros cs'' H. by eapply SuccList_trans.
      * intros H Hw. apply H. by eapply wellTyped_SuccList.
Qed.
End TrailingOutcome.

Lemma processTrailingInParent_outcome f : ∀ t,
  height t < f →
  outcome (processTrailingInParent_fuel f t) (Succ t) (¬ wellTyped t).
Proof.
  induction f as [|f IH]; intros t Hh; [lia|]. simpl.
  destruct (children t) as [cs|] eqn:Hc; [|apply Succ_refl].
  eapply outcome_bind.
  - eapply outcome_impl;
      [apply (trailingLoop_outcome f _ IH (length cs) 1 cs)|done|].
    + lia.
    + by eapply children_height_lt.
    + lia.
    + intros H Hw. by eapply H, wellTyped_children.
  - intros cs' Hs. simpl.
    by eapply Evolves_children; [apply dataMerged_refl|..].
Qed.

(** *** The generic resolver *)

Lemma handleAttributeNode_Succ parent j child cs :
  children parent = Some cs → cs !! j = Some child → isAttr child = true →
  Succ parent (handleAttributeNode parent j child)
  ∧ ∃ cs', children (handleAttributeNode parent j child) = Some cs'
           ∧ j ≤ length cs'.
Proof.
  intros Hc Hj Hattr. pose proof (kids_children _ _ Hc) as Hk.
  apply lookup_lt_Some in Hj as Hlt.
  assert (HB : Succ parent (attachOrText parent j child)
               ∧ ∃ cs', children (attachOrText parent j child) = Some cs'
                        ∧ j ≤ length cs').
  { unfold attachOrText. destruct (_ && _).
    - unfold attachToParent. rewrite Hk. split.
      + eapply Succ_trans; [apply Evolves_mergeAttributesToNode|].
        eapply Evolves_children; [apply dataMerged_refl|done|].
        apply Dropping_delete, Succ_refl.
      + eexists. split; [done|]. rewrite length_delete; [lia|].
        by apply lookup_lt_is_Some.
    - unfold replaceByText. rewrite Hk. split.
      + eapply Evolves_children; [apply dataMerged_refl|done|].
        eapply Dropping_insert_repl; [apply Succ_refl|done|].
        unfold textFor. by rewrite Hattr.
      + eexists. split; [done|]. rewrite length_insert. lia. }
  unfold handleAttributeNode. rewrite Hk.
  destruct (0 <? j) eqn:Hpos; [|done].
  destruct (cs !! (j - 1)) as [prev|] eqn:Hprev; [|done].
  destruct (_ && _); [|done].
  unfold attachToPrevious. rewrite Hk. split.
  - eapply Evolves_children; [apply dataMerged_refl|done|].
    eapply SuccList_trans; [|apply Dropping_delete, Succ_refl].
    eapply Dropping_insert; [apply Succ_refl|done|].
    apply Evolves_mergeAttributesToNode.
  - eexists. split; [done|]. rewrite length_delete, length_insert; [lia|].
    apply lookup_lt_is_Some. rewrite length_insert. lia.
Qed.

Section ResolverOutcome.
Variables (f : nat) (rec : Node → result Node).
Hypothesis Hrec : recTotal f rec.

Lemma processLoop_outcome i : ∀ parent cs,
  children parent = Some cs → i ≤ length cs →
  Forall (λ c, height c < f) cs →
  outcome (processLoop rec i parent)
    (λ p', Succ parent p' ∧ children p' ≠ None) False.
Proof using Hrec.
  induction i as [|j IH]; intros parent cs Hc Hi Hh; simpl.
  { split; [apply Succ_refl|congruence]. }
  rewrite (kids_children _ _ Hc).
  destruct (cs !! j) as [child|] eqn:Hj.
  2:{ apply lookup_ge_None in Hj. lia. }
  destruct (isAttr child) eqn:Hattr.
  - destruct (handleAttributeNode_Succ parent j child cs Hc Hj Hattr)
      as (Hs & cs' & Hc' & Hlen).
    eapply outcome_impl; [eapply IH; [done|done|]| |done].
    + eapply height_Dropping; [|done]. by eapply Evolves_children_inv.
    + intros p' [H ?]. split; [by eapply Succ_trans|done].
  - eapply outcome_bind.
    { apply Hrec. by eapply (Forall_lookup_1 _ _ _ _ Hh). }
    intros child' Hev.
    assert (Hl : SuccList cs (<[j := child']> cs)).
    { by eapply Dropping_insert; [apply Succ_refl|..]. }
    eapply outcome_impl; [eapply IH; [done| |]| |done].
    + rewrite length_insert. lia.
    + by eapply height_Dropping.
    + intros p' [H ?]. split; [|done].
      eapply Succ_trans; [|done].
      by eapply Evolves_children; [apply dataMerged_refl|..].
Qed.
End ResolverOutcome.

Lemma processNode_fuel_outcome f : ∀ t,
  height t < f → outcome (processNode_fuel f t) (Succ t) False.
Proof.
  induction f as [|f IH]; intros t Hh; [lia|]. simpl.
  destruct (children t) as [cs|] eqn:Hc; [|apply Succ_refl].
  eapply outcome_impl;
    [apply (processLoop_outcome f _ IH (length cs) t cs)| |done]; try done.
  - by eapply children_height_lt.
  - by intros p' [? _].
Qed.

(** ** The list-tightness pass *)

Lemma forEach_ext {A : Type} (f g : A → result A) xs :
  (∀ x, x ∈ xs → f x = g x) → forEach f xs = forEach g xs.
Proof.
  induction xs as [|x xs IH]; intros H; simpl; [done|].
  rewrite (H x) by (by left). destruct (g x); simpl; [|done..].
  rewrite IH; [done|]. intros y Hy. apply H. by right.
Qed.

Lemma forEach_no_fuel {A : Type} (f : A → result A) xs :
  (∀ x, x ∈ xs → f x ≠ OutOfFuel) → forEach f xs ≠ OutOfFuel.
Proof.
  induction xs as [|x xs IH]; intros H; simpl; [done|].
  pose proof (H x (list_elem_of_here _ _)) as Hx.
  destruct (f x); simpl; [|done..].
  assert (forEach f xs ≠ OutOfFuel) as Hxs.
  { apply IH. intros y Hy. apply H. by right. }
  by destruct (forEach f xs).
Qed.

(** Two loops in a row are one loop, when they stop for the same reason
    only. *)
Lemma forEach_fuse {A : Type} (f g : A → result A) xs :
  (∀ x, f x ≠ OutOfFuel) → (∀ x, g x ≠ OutOfFuel) →
  forEach f xs ≫= forEach g = forEach (λ x, f x ≫= g) xs.
Proof.
  intros Hf Hg. induction xs as [|x xs IH]; simpl; [done|].
  pose proof (Hf x) as Hx. destruct (f x) as [x1| |]; simpl; [|done..].
  rewrite <- IH.
  assert (forEach f xs ≠ OutOfFuel) as Hfs by (apply forEach_no_fuel; auto).
  pose proof (Hg x1) as Hx1.
  destruct (forEach f xs) as [xs1| |]; simpl; [|by destruct (g x1)|done].
  destruct (g x1); simpl; [|done..].
  by destruct (forEach g xs1).
Qed.

Lemma forEach_Ok_length {A : Type} (f : A → result A) xs ys :
  forEach f xs = Ok ys → length ys = length xs.
Proof.
  revert ys. induction xs as [|x xs IH]; intros ys; simpl; [by intros [= <-]|].
  destruct (f x); simpl; [|done..].
  destruct (forEach f xs) as [ys'| |]; simpl; [|done..].
  intros [= <-]. simpl. by rewrite (IH ys').
Qed.

Lemma forEach_Ok_lookup {A : Type} (f : A → result A) xs ys i x :
  forEach f xs = Ok ys → xs !! i = Some x →
  ∃ y, ys !! i = Some y ∧ f x = Ok y.
Proof.
  revert ys i. induction xs as [|x0 xs IH]; intros ys i; simpl; [done|].
  destruct (f x0) as [y0| |] eqn:Hx0; simpl; [|done..].
  destruct (forEach f xs) as [ys'| |]; simpl; [|done..].
  intros [= <-]. destruct i as [|i]; simpl.
  - intros [= <-]. eauto.
  - by apply IH.
Qed.

Lemma forEach_Ok_Forall2 {A : Type} (f : A → result A) xs ys :
  forEach f xs = Ok ys ↔ Forall2 (λ x y, f x = Ok y) xs ys.
Proof.
  revert ys. induction xs as [|x xs IH]; intros ys; simpl.
  - split; [intros [= <-]; constructor|by intros ->%Forall2_nil_inv_l].
  - split.
    + destruct (f x) as [y| |] eqn:Hx; simpl; [|done..].
      destruct (forEach f xs) as [ys'| |] eqn:Hxs; simpl; [|done..].
      intros [= <-]. constructor; [done|by apply IH].
    + intros (y & ys' & Hy & Hys & ->)%Forall2_cons_inv_l.
      rewrite Hy. simpl. apply IH in Hys. by rewrite Hys.
Qed.

Lemma mergeBagEntry_no_fuel node b kv : mergeBagEntry node b kv ≠ OutOfFuel.
Proof.
  unfold mergeBagEntry. destruct (String.eqb _ _); [|done]. by destruct (snd kv).
Qed.

Lemma mergeEntries_no_fuel entries : ∀ target node,
  mergeEntries target entries node ≠ OutOfFuel.
Proof.
  induction entries as [|kv entries IH]; intros target node; simpl; [done|].
  pose proof (mergeBagEntry_no_fuel node target kv).
  destruct (mergeBagEntry node target kv); simpl; [apply IH|done..].
Qed.

Lemma mergeBag_no_fuel source target node : mergeBag target source node ≠ OutOfFuel.
Proof. apply mergeEntries_no_fuel. Qed.

Lemma mergeBagToNode_no_fuel node b : mergeBagToNode node b ≠ OutOfFuel.
Proof.
  unfold mergeBagToNode. pose proof (mergeBag_no_fuel b (bagOf node) node).
  by destruct (mergeBag _ _ _).
Qed.

Lemma collectBags_no_fuel gs : ∀ item, collectBags item gs ≠ OutOfFuel.
Proof.
  induction gs as [|g gs IH]; intros item; simpl; [done|].
  destruct (promotable g); [|apply IH].
  pose proof (mergeBagToNode_no_fuel item b).
  destruct (mergeBagToNode item b); simpl; [apply IH|done..].
Qed.

Lemma promoteGrandchildren_collect gs : ∀ child,
  promoteGrandchildren child gs
  = item ← collectBags child gs; Ok (item, clearPromotable <$> gs).
Proof.
  induction gs as [|g gs IH]; intros child; simpl; [done|].
  unfold clearPromotable at 1. destruct (promotable g) as [b|].
  - destruct (mergeBagToNode child b) as [child'| |]; simpl; [|done..].
    rewrite IH. by destruct (collectBags child' gs).
  - rewrite IH. by destruct (collectBags child gs).
Qed.

Lemma promoteChild_collect child :
  promoteChild child
  = if isListItem child then
      match children child with
      | Some gs =>
          item ← collectBags child gs;
          Ok (setChildren item (Some (clearPromotable <$> gs)))
      | None => TypeError
      end
    else Ok child.
Proof.
  unfold promoteChild. destruct (isListItem child); [|done].
  destruct (children child) as [gs|]; [|done].
  rewrite promoteGrandchildren_collect. by destruct (collectBags child gs).
Qed.

Lemma promoteChild_no_fuel child : promoteChild child ≠ OutOfFuel.
Proof.
  rewrite promoteChild_collect. destruct (isListItem child); [|done].
  destruct (children child) as [gs|]; [|done].
  pose proof (collectBags_no_fuel gs child). by destruct (collectBags child gs).
Qed.

Lemma promoteSpec_unfold a b n :
  promoteSpec a b n
  = n1 ← ownData a b n;
    match children n with
    | Some cs =>
        cs' ← forEach (promoteSpec (tightList n) (a && isListItem n)) cs;
        Ok (setChildren n1 (Some cs'))
    | None => Ok n1
    end.
Proof. by destruct n. Qed.

Lemma ownData_no_fuel a b n : ownData a b n ≠ OutOfFuel.
Proof.
  unfold ownData. destruct (a && isListItem n); [|done].
  destruct (children n); [apply collectBags_no_fuel|done].
Qed.

Lemma promoteSpec_no_fuel n : ∀ a b, promoteSpec a b n ≠ OutOfFuel.
Proof.
  induction n as [n IH] using Node_children_ind. intros a b.
  rewrite promoteSpec_unfold.
  pose proof (ownData_no_fuel a b n) as H1.
  destruct (ownData a b n) as [n1| |]; simpl; [|done..].
  destruct (children n) as [cs|] eqn:Hc; [|done].
  assert (H2 : forEach (promoteSpec (tightList n) (a && isListItem n)) cs
               ≠ OutOfFuel).
  { apply forEach_no_fuel. intros c Hin. apply IH.
    by rewrite (kids_children _ _ Hc). }
  by destruct (forEach _ cs).
Qed.

Lemma forEach_fmap {A : Type} (f : A → result A) (g : A → A) xs :
  forEach f (g <$> xs) = forEach (λ x, f (g x)) xs.
Proof.
  induction xs as [|x xs IH]; [done|].
  rewrite fmap_cons. cbn [forEach]. by rewrite IH.
Qed.

Lemma sameHead_clearBag n : sameHead n (clearBag n).
Proof. unfold clearBag. destruct (data n); [apply sameHead_setData|apply sameHead_refl]. Qed.

Lemma children_clearBag n : children (clearBag n) = children n.
Proof. unfold clearBag. by destruct (data n). Qed.

Lemma sameHead_clearPromotable n : sameHead n (clearPromotable n).
Proof.
  unfold clearPromotable.
  destruct (promotable n); [apply sameHead_clearBag|apply sameHead_refl].
Qed.

Lemma children_clearPromotable n : children (clearPromotable n) = children n.
Proof.
  unfold clearPromotable. destruct (promotable n); [apply children_clearBag|done].
Qed.

Lemma sameHead_tightList n n' : sameHead n n' → tightList n' = tightList n.
Proof.
  intros H. unfold tightList.
  by rewrite (sameHead_isList _ _ H), (sameHead_notSpread _ _ H).
Qed.

Lemma mergeBagToNode_Ok node b node' :
  mergeBagToNode node b = Ok node' →
  ∃ b', mergeBag (bagOf node) b node = Ok b' ∧ node' = setBag node b'.
Proof.
  unfold mergeBagToNode. destruct (mergeBag _ _ _) as [b'| |]; simpl; [|done..].
  intros [= <-]. eauto.
Qed.

Lemma collectBags_head gs : ∀ item item',
  collectBags item gs = Ok item' →
  sameHead item item' ∧ children item' = children item
  ∧ sideOf item' = sideOf item.
Proof.
  induction gs as [|g gs IH]; intros item item'; simpl.
  - intros [= <-]. split; [apply sameHead_refl|done].
  - destruct (promotable g) as [b|]; [|apply IH].
    destruct (mergeBagToNode item b) as [item1| |] eqn:Hm; simpl; [|done..].
    apply mergeBagToNode_Ok in Hm as (b' & _ & ->).
    intros (Hh & Hc & Hs)%IH. split; [|split].
    + eapply sameHead_trans; [apply sameHead_setData|done].
    + by rewrite Hc.
    + by rewrite Hs.
Qed.

Lemma isListItem_not_list n : isListItem n = true → isList n = false.
Proof. unfold isListItem, isList. by intros ->%String.eqb_eq. Qed.

Lemma isListItem_not_paragraph n : isListItem n = true → isParagraph n = false.
Proof. unfold isListItem, isParagraph. by intros ->%String.eqb_eq. Qed.

Lemma setChildren_setChildren n cs cs' :
  setChildren (setChildren n cs) cs' = setChildren n cs'.
Proof. done. Qed.

Lemma promoteSpec_clear g :
  promoteSpec false false (clearPromotable g) = promoteSpec false true g.
Proof.
  rewrite !promoteSpec_unfold. unfold ownData. simpl.
  rewrite children_clearPromotable.
  by rewrite (sameHead_tightList _ _ (sameHead_clearPromotable g)).
Qed.

(** The first loop on a child, then the recursion into it, is the
    description of the child of a tight list. *)
Lemma promoteChild_spec c :
  promoteChild c ≫= promoteSpec false false = promoteSpec true false c.
Proof.
  rewrite promoteChild_collect, (promoteSpec_unfold true). unfold ownData. simpl.
  destruct (isListItem c) eqn:Hitem.
  - destruct (children c) as [gs|] eqn:Hc; [|done].
    destruct (collectBags c gs) as [item| |] eqn:Hcol; simpl; [|done..].
    apply collectBags_head in Hcol as (Hh & Hc' & _).
    destruct Hh as (Ht & _ & _ & Hs & _).
    unfold isListItem in Hitem. apply String.eqb_eq in Hitem.
    unfold tightList, isList, notSpread. simpl. rewrite Ht, Hitem. simpl.
    rewrite forEach_fmap.
    rewrite (forEach_ext _ (promoteSpec false true)).
    2:{ intros g _. apply promoteSpec_clear. }
    destruct (forEach _ gs); simpl; [|done..].
    unfold setChildren. simpl. by rewrite <- Hitem, <- Ht.
  - simpl. by rewrite (promoteSpec_unfold false).
Qed.


Lemma height_unfold n :
  height n = match children n with
             | Some cs => S (foldr (λ c acc, Nat.max (height c) acc) 0 cs)
             | None => 0
             end.
Proof. by destruct n. Qed.

Lemma height_foldr_fmap (g : Node → Node) cs :
  (∀ c, height (g c) = height c) →
  foldr (λ c acc, Nat.max (height c) acc) 0 (g <$> cs)
  = foldr (λ c acc, Nat.max (height c) acc) 0 cs.
Proof.
  intros H. induction cs as [|c cs IH]; [done|].
  rewrite fmap_cons. cbn [foldr]. by rewrite H, IH.
Qed.

Lemma height_clearPromotable g : height (clearPromotable g) = height g.
Proof. by rewrite !height_unfold, children_clearPromotable. Qed.

Lemma promoteChild_height c c1 : promoteChild c = Ok c1 → height c1 = height c.
Proof.
  rewrite promoteChild_collect. destruct (isListItem c); [|by intros [= <-]].
  destruct (children c) as [gs|] eqn:Hc; [|done].
  destruct (collectBags c gs) as [item| |]; simpl; [|done..].
  intros [= <-]. rewrite (height_unfold c), Hc. simpl.
  by rewrite height_foldr_fmap by apply height_clearPromotable.
Qed.

(** The pass is its description, at every fuel above the height. *)
Lemma promote_fuel_spec f : ∀ t,
  height t < f → promoteTightListAttributes_fuel f t = promoteSpec false false t.
Proof.
  induction f as [|f IH]; intros t Hh; [lia|]. simpl.
  rewrite promoteSpec_unfold. unfold ownData. simpl.
  destruct (children t) as [cs|] eqn:Hc; [|done].
  pose proof (children_height_lt _ _ _ Hc Hh) as Hcs.
  change (isList t && notSpread t) with (tightList t).
  assert (Heq : (cs1 ← (if tightList t then forEach promoteChild cs else Ok cs);
                 forEach (promoteTightListAttributes_fuel f) cs1)
                = forEach (promoteSpec (tightList t) false) cs).
  { destruct (tightList t).
    - rewrite (forEach_ext (promoteSpec true false)
                 (λ c, promoteChild c ≫= promoteSpec false false))
        by (intros c _; by rewrite promoteChild_spec).
      rewrite <- forEach_fuse
        by (intros; first [apply promoteChild_no_fuel|apply promoteSpec_no_fuel]).
      destruct (forEach promoteChild cs) as [cs1| |] eqn:H1; simpl; [|done..].
      apply forEach_ext. intros c1 Hin. apply IH.
      apply forEach_Ok_Forall2 in H1.
      apply list_elem_of_lookup in Hin as [i Hi].
      destruct (Forall2_lookup_r _ _ _ _ _ H1 Hi) as (c & Hci & Hp).
      rewrite (promoteChild_height _ _ Hp).
      by eapply (Forall_lookup_1 _ _ _ _ Hcs).
    - simpl. apply forEach_ext. intros c Hin. apply IH.
      rewrite Forall_forall in Hcs. by apply Hcs. }
  destruct (if tightList t then _ else _) as [cs1| |]; simpl in *;
    rewrite <- Heq; [|done..].
  by destruct (forEach _ cs1).
Qed.

Lemma promoteTightListAttributes_spec t :
  promoteTightListAttributes t = promoteSpec false false t.
Proof. apply promote_fuel_spec. lia. Qed.

(** *** What the description says of a single node *)

Lemma promotable_Some g b : promotable g = Some b → isParagraph g = true ∧ b = bagOf g ∧ b ≠ [].
Proof.
  unfold promotable, bagOf, dataBag. destruct (isParagraph g); [|done].
  destruct (data g) as [d|]; [|done]. destruct (hProperties d) as [[|kv b']|]; try done.
  by intros [= <-].
Qed.

Lemma promotable_clearBag g : promotable (clearBag g) = None.
Proof.
  unfold promotable, clearBag. destruct (data g) as [d|] eqn:Hd; simpl.
  - by destruct (isParagraph _).
  - rewrite Hd. by destruct (isParagraph g).
Qed.

Lemma promotable_clearPromotable g : promotable (clearPromotable g) = None.
Proof.
  unfold clearPromotable. destruct (promotable g) eqn:H; [|done].
  apply promotable_clearBag.
Qed.

Lemma clearPromotable_id g : promotable g = None → clearPromotable g = g.
Proof. unfold clearPromotable. by intros ->. Qed.

Lemma promotable_head n n' :
  sameHead n n' → data n' = data n → promotable n' = promotable n.
Proof.
  intros Hh Hd. unfold promotable.
  by rewrite (sameHead_isParagraph _ _ Hh), Hd.
Qed.

Lemma isListItem_promotable n : isListItem n = true → promotable n = None.
Proof.
  intros H. unfold promotable. by rewrite (isListItem_not_paragraph _ H).
Qed.

Lemma sideOf_clearBag n : sideOf (clearBag n) = sideOf n.
Proof.
  unfold clearBag, sideOf. destruct (data n) as [d|] eqn:E; simpl; by rewrite ?E.
Qed.

Lemma sideOf_clearPromotable n : sideOf (clearPromotable n) = sideOf n.
Proof. unfold clearPromotable. destruct (promotable n); [apply sideOf_clearBag|done]. Qed.

Lemma ownData_head a b n n1 :
  ownData a b n = Ok n1 →
  sameHead n n1 ∧ children n1 = children n ∧ sideOf n1 = sideOf n.
Proof.
  unfold ownData. destruct (a && isListItem n).
  - destruct (children n) as [gs|] eqn:Hc; [|done]. rewrite <- Hc.
    apply collectBags_head.
  - intros [= <-]. destruct b.
    + split; [apply sameHead_clearPromotable|].
      split; [apply children_clearPromotable|apply sideOf_clearPromotable].
    + split; [apply sameHead_refl|done].
Qed.

Lemma promoteSpec_Ok a b n n' :
  promoteSpec a b n = Ok n' →
  ∃ n1, ownData a b n = Ok n1
        ∧ match children n with
          | Some cs =>
              ∃ cs', forEach (promoteSpec (tightList n) (a && isListItem n)) cs
                     = Ok cs'
                     ∧ n' = setChildren n1 (Some cs')
          | None => n' = n1
          end.
Proof.
  rewrite promoteSpec_unfold. destruct (ownData a b n) as [n1| |]; simpl; [|done..].
  intros H. exists n1. split; [done|].
  destruct (children n) as [cs|]; [|by injection H].
  destruct (forEach _ cs) as [cs'| |]; simpl in H; [|done..].
  exists cs'. split; [done|]. by injection H.
Qed.

(** The root of the outcome: the head of the input, the data of its
    place. *)
Lemma promoteSpec_root a b n n' :
  promoteSpec a b n = Ok n' →
  ∃ n1, ownData a b n = Ok n1 ∧ sameHead n n' ∧ data n' = data n1
        ∧ length (kids n') = length (kids n)
        ∧ (children n' = None ↔ children n = None).
Proof.
  intros (n1 & Hown & H)%promoteSpec_Ok. exists n1. split; [done|].
  pose proof (ownData_head _ _ _ _ Hown) as (Hh & Hc & _).
  destruct (children n) as [cs|] eqn:Hcs.
  - destruct H as (cs' & Hfor & ->). split; [|split; [done|split]].
    + eapply sameHead_trans; [done|apply sameHead_setChildren].
    + rewrite kids_setChildren, (kids_children _ _ Hcs).
      by eapply forEach_Ok_length.
    + done.
  - subst n'. split; [done|]. split; [done|].
    split; [by rewrite !kids_leaf by congruence|]. by rewrite Hc.
Qed.

(** The pass changes data only. *)
Lemma promoteSpec_Evolves n : ∀ a b n',
  promoteSpec a b n = Ok n' → Evolves sideStable n n'.
Proof.
  induction n as [n IH] using Node_children_ind. intros a b n' H.
  pose proof (promoteSpec_root _ _ _ _ H) as (n1' & Hown' & Hh & Hd & _).
  apply promoteSpec_Ok in H as (n1 & Hown & H).
  rewrite Hown in Hown'. injection Hown' as <-.
  pose proof (ownData_head _ _ _ _ Hown) as (_ & Hc & Hs).
  assert (Hside : sideStable (data n) (data n')).
  { right. rewrite Hd. exact Hs. }
  destruct (children n) as [cs|] eqn:Hcs.
  - destruct H as (cs' & Hfor & ->).
    eapply Evolves_node; [done|done|done|done|].
    apply forEach_Ok_Forall2 in Hfor.
    rewrite (kids_children _ _ Hcs) in IH. clear Hcs Hc Hh Hd Hside.
    induction Hfor as [|c c' cs cs' Hcc _ IHf]; [apply Dropping_nil|].
    apply Dropping_keep.
    + eapply IH; [by left|done].
    + apply IHf. intros x Hx. apply IH. by right.
  - subst n'. apply Evolves_leaf; [done|done|done|]. by rewrite Hc.
Qed.

Lemma countFragments_unfold n :
  countFragments n
  = (if isAttr n then 1 else 0)
    + match children n with
      | Some cs => foldr (λ c acc, countFragments c + acc) 0 cs
      | None => 0
      end.
Proof. by destruct n. Qed.

Lemma promoteSpec_countFragments n : ∀ a b n',
  promoteSpec a b n = Ok n' → countFragments n' = countFragments n.
Proof.
  induction n as [n IH] using Node_children_ind. intros a b n' H.
  pose proof (promoteSpec_root _ _ _ _ H) as (_ & _ & Hh & _).
  apply promoteSpec_Ok in H as (n1 & Hown & H).
  pose proof (ownData_head _ _ _ _ Hown) as (_ & Hc & _).
  rewrite (countFragments_unfold n'), (countFragments_unfold n).
  rewrite (sameHead_isAttr _ _ Hh). f_equal.
  destruct (children n) as [cs|] eqn:Hcs.
  - destruct H as (cs' & Hfor & ->). simpl.
    apply forEach_Ok_Forall2 in Hfor.
    rewrite (kids_children _ _ Hcs) in IH. clear Hcs Hc Hh.
    induction Hfor as [|c c' cs cs' Hcc _ IHf]; [done|]. simpl.
    rewrite (IH c (list_elem_of_here _ _) _ _ _ Hcc). f_equal.
    apply IHf. intros x Hx. apply IH. by right.
  - subst n'. by rewrite Hc.
Qed.

(** *** The pass returns on a typed tree *)

Lemma mergeEntries_total source : ∀ target node,
  bagSafe source → ∃ b, mergeEntries target source node = Ok b.
Proof.
  induction source as [|[k v] source IH]; intros target node Hs; simpl; [eauto|].
  assert (bagSafe source) as Hs'.
  { intros l Hin. apply (Hs l). by right. }
  unfold mergeBagEntry. simpl. destruct (String.eqb_spec k "class") as [->|_].
  - destruct v as [s|l]; simpl; [by apply IH|].
    exfalso. apply (Hs l). by left.
  - simpl. by apply IH.
Qed.

Lemma mergeBag_total source target node :
  bagSafe source → ∃ b, mergeBag target source node = Ok b.
Proof.
  intros H. apply mergeEntries_total. intros l Hin.
  apply (H l). by apply elem_of_objectEntries.
Qed.

Lemma mergeBagToNode_total node b :
  bagSafe b → ∃ node', mergeBagToNode node b = Ok node'.
Proof.
  intros H. unfold mergeBagToNode.
  destruct (mergeBag_total b (bagOf node) node H) as [b' ->]. simpl. eauto.
Qed.

Lemma wellTyped_bagSafe n : wellTyped n → bagSafe (bagOf n).
Proof. intros H. by apply AllNodes_node in H as (_ & _ & ?). Qed.

Lemma wellTyped_listItemOk n : wellTyped n → listItemOk n.
Proof. intros H. by apply AllNodes_node in H as (_ & ? & _). Qed.

Lemma collectBags_total gs : ∀ item,
  Forall wellTyped gs → ∃ item', collectBags item gs = Ok item'.
Proof.
  induction gs as [|g gs IH]; intros item Hgs; simpl; [eauto|].
  apply Forall_cons in Hgs as [Hg Hgs].
  destruct (promotable g) as [b|] eqn:Hp; [|by apply IH].
  apply promotable_Some in Hp as (_ & -> & _).
  destruct (mergeBagToNode_total item (bagOf g)) as [item1 ->];
    [by apply wellTyped_bagSafe|].
  simpl. by apply IH.
Qed.

Lemma ownData_total a b n : wellTyped n → ∃ n1, ownData a b n = Ok n1.
Proof.
  intros Hw. unfold ownData. destruct (a && isListItem n) eqn:Hai; [|eauto].
  apply andb_true_iff in Hai as [_ Hi].
  destruct (children n) as [gs|] eqn:Hc.
  - apply collectBags_total. by eapply wellTyped_children.
  - by destruct (wellTyped_listItemOk n Hw Hi).
Qed.

Lemma forEach_total {A : Type} (f : A → result A) xs :
  (∀ x, x ∈ xs → ∃ y, f x = Ok y) → ∃ ys, forEach f xs = Ok ys.
Proof.
  induction xs as [|x xs IH]; intros H; simpl; [eauto|].
  destruct (H x) as [y ->]; [by left|]. simpl.
  destruct IH as [ys ->]; [intros z Hz; apply H; by right|]. simpl. eauto.
Qed.

Lemma promoteSpec_total n : ∀ a b, wellTyped n → ∃ n', promoteSpec a b n = Ok n'.
Proof.
  induction n as [n IH] using Node_children_ind. intros a b Hw.
  rewrite promoteSpec_unfold. destruct (ownData_total a b n Hw) as [n1 ->].
  simpl. destruct (children n) as [cs|] eqn:Hc; [|eauto].
  pose proof (wellTyped_children _ _ Hw Hc) as Hcs.
  destruct (forEach_total (promoteSpec (tightList n) (a && isListItem n)) cs)
    as [cs' ->]; [|simpl; eauto].
  intros c Hin. apply IH; [by rewrite (kids_children _ _ Hc)|].
  rewrite Forall_forall in Hcs. by apply Hcs.
Qed.

(** *** After the pass nothing is left to promote, and then the pass
    changes nothing *)

Lemma collectBags_id gs item :
  (∀ g, g ∈ gs → promotable g = None) → collectBags item gs = Ok item.
Proof.
  induction gs as [|g gs IH]; intros H; simpl; [done|].
  rewrite (H g) by (by left). apply IH. intros g' Hg'. apply H. by right.
Qed.

Lemma forEach_id {A : Type} (f : A → result A) xs :
  (∀ x, x ∈ xs → f x = Ok x) → forEach f xs = Ok xs.
Proof.
  induction xs as [|x xs IH]; intros H; simpl; [done|].
  rewrite (H x) by (by left). simpl.
  rewrite IH; [done|]. intros y Hy. apply H. by right.
Qed.

(** What the place [(a, b)] asks of a node on which the pass has nothing
    to do. *)
Lemma promoteSpec_id n : ∀ a b,
  AllNodes tightDone n →
  (b = true → promotable n = None) →
  (a && isListItem n = true →
     children n ≠ None ∧ ∀ g, g ∈ kids n → promotable g = None) →
  promoteSpec a b n = Ok n.
Proof.
  induction n as [n IH] using Node_children_ind. intros a b Hall Hb Ha.
  rewrite promoteSpec_unfold.
  assert (Hown : ownData a b n = Ok n).
  { unfold ownData. destruct (a && isListItem n) eqn:Hai.
    - destruct (Ha eq_refl) as [Hc Hg].
      destruct (children n) as [gs|] eqn:Hcs; [|done].
      apply collectBags_id. by rewrite (kids_children _ _ Hcs) in Hg.
    - destruct b; [|done]. by rewrite clearPromotable_id by auto. }
  rewrite Hown. simpl. destruct (children n) as [cs|] eqn:Hc; [|done].
  pose proof (kids_children _ _ Hc) as Hk.
  rewrite forEach_id; [simpl; by rewrite setChildren_id|].
  intros c Hin. apply IH.
  - by rewrite Hk.
  - apply AllNodes_kids in Hall. rewrite Hk, Forall_forall in Hall. by apply Hall.
  - intros Hai. destruct (Ha Hai) as [_ Hg]. apply Hg. by rewrite Hk.
  - intros [Ht Hi]%andb_true_iff. apply AllNodes_node in Hall.
    apply (Hall Ht c); [by rewrite Hk|done].
Qed.

Lemma promoteSpec_done n : ∀ a b n',
  promoteSpec a b n = Ok n' →
  AllNodes tightDone n'
  ∧ (b = true → promotable n' = None)
  ∧ (a && isListItem n = true →
       children n' ≠ None ∧ ∀ g, g ∈ kids n' → promotable g = None).
Proof.
  induction n as [n IH] using Node_children_ind. intros a b n' H.
  pose proof (promoteSpec_root _ _ _ _ H) as (n1' & Hown' & Hh & Hd & _ & Hnone).
  apply promoteSpec_Ok in H as (n1 & Hown & H).
  rewrite Hown in Hown'. injection Hown' as <-.
  pose proof (ownData_head _ _ _ _ Hown) as (Hh1 & Hc1 & _).
  assert (Hkids : Forall2 (λ c c', promoteSpec (tightList n) (a && isListItem n) c
                                   = Ok c') (kids n) (kids n')).
  { destruct (children n) as [cs|] eqn:Hcs.
    - destruct H as (cs' & Hfor & ->).
      rewrite (kids_children _ _ Hcs), kids_setChildren.
      by apply forEach_Ok_Forall2.
    - subst n'. rewrite !kids_leaf by congruence. constructor. }
  assert (Hpromo : b = true → promotable n' = None).
  { intros ->. rewrite (promotable_head n1 n').
    - unfold ownData in Hown. destruct (a && isListItem n) eqn:Hai.
      + apply andb_true_iff in Hai as [_ Hi].
        apply isListItem_promotable.
        by rewrite (sameHead_isListItem _ _ Hh1).
      + injection Hown as <-. apply promotable_clearPromotable.
    - destruct Hh1 as (?&?&?&?&?&?), Hh as (?&?&?&?&?&?).
      repeat split; congruence.
    - done. }
  split; [|split; [done|]].
  - constructor.
    + intros Ht child' Hin Hi.
      change (tightList n' = true) in Ht.
      rewrite (sameHead_tightList _ _ Hh) in Ht.
      apply list_elem_of_lookup in Hin as [i Hi'].
      destruct (Forall2_lookup_r _ _ _ _ _ Hkids Hi') as (child & Hci & Hp).
      rewrite Ht in Hp.
      apply list_elem_of_lookup_2 in Hci as Hin.
      destruct (IH child Hin _ _ _ Hp) as (_ & _ & Hitem).
      apply Hitem. simpl.
      pose proof (promoteSpec_root _ _ _ _ Hp) as (_ & _ & Hhc & _).
      by rewrite <- (sameHead_isListItem _ _ Hhc).
    + apply Forall_forall. intros child' Hin.
      apply list_elem_of_lookup in Hin as [i Hi'].
      destruct (Forall2_lookup_r _ _ _ _ _ Hkids Hi') as (child & Hci & Hp).
      apply list_elem_of_lookup_2 in Hci as Hin.
      by destruct (IH child Hin _ _ _ Hp) as (? & _).
  - intros Hai. split.
    + intros Hn'. apply Hnone in Hn'.
      unfold ownData in Hown. rewrite Hai, Hn' in Hown. done.
    + intros g' Hin. apply list_elem_of_lookup in Hin as [i Hi'].
      destruct (Forall2_lookup_r _ _ _ _ _ Hkids Hi') as (g & Hgi & Hp).
      apply list_elem_of_lookup_2 in Hgi as Hin. rewrite Hai in Hp.
      destruct (IH g Hin _ _ _ Hp) as (_ & Hb & _). by apply Hb.
Qed.

(** *** The pass, node by node *)









(** ** What each pass leaves behind *)

(** *** No side-channel map after the first pass *)

Lemma CodeDone_processCodeBlocks t : CodeDone (processCodeBlocks t).
Proof.
  induction t as [t IH] using Node_children_ind.
  rewrite processCodeBlocks_unfold. destruct (isCode t) eqn:Hcode.
  - apply CodeDone_code.
    + by rewrite (sameHead_isCode _ _ (Evolves_sameHead _ _ _ (Succ_relocate t))).
    + unfold relocate. destruct (sideOf t) eqn:Hs; [done|done].
  - destruct (children t) as [cs|] eqn:Hc.
    + apply CodeDone_other; [done|]. rewrite kids_setChildren.
      apply Forall_fmap, Forall_forall. intros c Hin. apply IH.
      by rewrite (kids_children _ _ Hc).
    + apply CodeDone_other; [done|]. rewrite (kids_leaf _ Hc). constructor.
Qed.

Lemma CodeDone_id t : CodeDone t → processCodeBlocks t = t.
Proof.
  induction t as [t IH] using Node_children_ind. intros H.
  rewrite processCodeBlocks_unfold.
  inversion H as [? Hcode Hside|? Hcode Hkids]; subst; rewrite Hcode.
  - unfold relocate. by rewrite Hside.
  - destruct (children t) as [cs|] eqn:Hc; [|done].
    rewrite (kids_children _ _ Hc) in *.
    rewrite <- (setChildren_id t cs Hc) at 2. do 2 f_equal.
    rewrite <- (list_fmap_id cs) at 2. apply list_fmap_ext.
    intros i c Hi. apply list_elem_of_lookup_2 in Hi.
    rewrite Forall_forall in Hkids. apply IH; auto.
Qed.

Lemma CodeDone_Moved n : ∀ n', Moved n n' → CodeDone n → CodeDone n'.
Proof.
  induction n as [n IH] using Node_children_ind. intros n' Hev H.
  pose proof (Evolves_sameHead _ _ _ Hev) as Hh.
  pose proof (Evolves_data _ _ _ Hev) as Hd.
  inversion H as [? Hcode Hside|? Hcode Hkids]; subst.
  - apply CodeDone_code; [by rewrite (sameHead_isCode _ _ Hh)|].
    destruct Hd as [Hd|Hd]; [done|]. unfold sideOf in *. congruence.
  - apply CodeDone_other; [by rewrite (sameHead_isCode _ _ Hh)|].
    destruct Hev as [n n' _ _ Hc Hc'|n n' cs _ _ Hc Hc' Hb
                    |n n' cs cs' _ _ Hc Hc' Hdrop].
    + rewrite (kids_leaf _ Hc'). constructor.
    + rewrite (kids_leaf _ Hc'). constructor.
    + rewrite (kids_children _ _ Hc) in *. rewrite (kids_children _ _ Hc').
      eapply Dropping_Forall; [done| | |done].
      * intros c c' Hin. by apply IH.
      * intros c c0 c' Hin [_ ->]%textFor_Some Hev _.
        assert (children c' = None) as Hleaf by (by eapply Evolves_leaf_inv).
        apply CodeDone_other.
        -- by rewrite (sameHead_isCode _ _ (Evolves_sameHead _ _ _ Hev)).
        -- rewrite (kids_leaf _ Hleaf). constructor.
Qed.

Lemma Succ_Moved n n' : Succ n n' → Moved n n'.
Proof. apply Evolves_weaken. by intros d d' [? _]. Qed.

Lemma CodeDone_Succ n n' : Succ n n' → CodeDone n → CodeDone n'.
Proof. intros H. by apply CodeDone_Moved, Succ_Moved. Qed.

(** *** No child under a thematic break after the second pass *)

Lemma breakWithChildren_false n :
  breakWithChildren n = false → breakFlat n.
Proof.
  unfold breakWithChildren, breakFlat, kids. intros H Hb. rewrite Hb in H.
  by destruct (children n) as [[|c cs]|].
Qed.

Lemma children_flattenBreak c : children (flattenBreak c) = None.
Proof. unfold flattenBreak. by destruct (children c) eqn:E. Qed.

Lemma breakFlat_processThematicBreaksInParent t :
  AllBelow breakFlat (processThematicBreaksInParent t).
Proof.
  induction t as [t IH] using Node_children_ind. unfold AllBelow.
  rewrite processThematicBreaksInParent_unfold.
  destruct (children t) as [cs|] eqn:Hc; [|rewrite (kids_leaf _ Hc); constructor].
  rewrite kids_setChildren. apply Forall_fmap, Forall_forall. intros c Hin.
  simpl. destruct (breakWithChildren c) eqn:Hb.
  - apply AllNodes_leaf.
    + intros _. apply kids_leaf, children_flattenBreak.
    + apply children_flattenBreak.
  - constructor.
    + eapply breakFlat_Evolves; [apply Succ_processThematicBreaksInParent|].
      by apply breakWithChildren_false.
    + apply IH. by rewrite (kids_children _ _ Hc).
Qed.

Lemma breakFlat_id t :
  AllBelow breakFlat t → processThematicBreaksInParent t = t.
Proof.
  induction t as [t IH] using Node_children_ind. unfold AllBelow. intros H.
  rewrite processThematicBreaksInParent_unfold.
  destruct (children t) as [cs|] eqn:Hc; [|done].
  rewrite (kids_children _ _ Hc) in *.
  rewrite <- (setChildren_id t cs Hc) at 2. do 2 f_equal.
  rewrite <- (list_fmap_id cs) at 2. apply list_fmap_ext.
  intros i c Hi. apply list_elem_of_lookup_2 in Hi.
  rewrite Forall_forall in H. specialize (H c Hi).
  assert (breakWithChildren c = false) as ->.
  { apply AllNodes_node in H. unfold breakWithChildren, breakFlat, kids in *.
    destruct (isBreak c); [|done]. simpl.
    destruct (children c) as [[|c0 cs0]|]; try done. by specialize (H eq_refl). }
  apply IH; [done|]. by apply AllNodes_kids in H.
Qed.

Lemma breakFlat_textOf c : breakFlat (textOf c).
Proof. done. Qed.

Lemma paragraphOk_textOf c : paragraphOk (textOf c).
Proof. done. Qed.

Lemma notAttr_textOf c : notAttr (textOf c).
Proof. done. Qed.

Lemma notAttr_Evolves R n n' : Evolves R n n' → notAttr n → notAttr n'.
Proof.
  intros Hev H. unfold notAttr.
  by rewrite (sameHead_isAttr _ _ (Evolves_sameHead _ _ _ Hev)).
Qed.

Lemma AllBelow_breakFlat_Evolves R n n' :
  Evolves R n n' → AllBelow breakFlat n → AllBelow breakFlat n'.
Proof. apply AllBelow_Evolves; [apply breakFlat_Evolves|apply breakFlat_textOf]. Qed.

Lemma AllBelow_paragraphOk_Evolves R n n' :
  Evolves R n n' → AllBelow paragraphOk n → AllBelow paragraphOk n'.
Proof.
  apply AllBelow_Evolves; [apply paragraphOk_Evolves|apply paragraphOk_textOf].
Qed.

Lemma AllBelow_notAttr_Evolves R n n' :
  Evolves R n n' → AllBelow notAttr n → AllBelow notAttr n'.
Proof. apply AllBelow_Evolves; [apply notAttr_Evolves|apply notAttr_textOf]. Qed.

(** *** Paragraphs have children after the standalone pass *)

Lemma getStandalone_paragraphOk node sa :
  getStandaloneAttributesFromParagraph node = Ok sa → paragraphOk node.
Proof.
  intros H Hp Hc. unfold getStandaloneAttributesFromParagraph in H.
  by rewrite Hp, Hc in H.
Qed.

Lemma take_delete_same {A : Type} (l : list A) i : take i (delete i l) = take i l.
Proof.
  revert i. induction l as [|x l IH]; intros [|i]; simpl; try done.
  by rewrite IH.
Qed.

Lemma drop_delete_same {A : Type} (l : list A) i :
  drop i (delete i l) = drop (S i) l.
Proof.
  revert i. induction l as [|x l IH]; intros [|i]; simpl; try done.
Qed.

Lemma drop_insert_same {A : Type} (l : list A) i x :
  i < length l → drop i (<[i := x]> l) = x :: drop (S i) l.
Proof.
  revert i. induction l as [|y l IH]; intros [|i] Hi; simpl in *; try lia.
  - done.
  - apply IH. lia.
Qed.

Lemma take_S_insert {A : Type} (l : list A) i x :
  i < length l → take (S i) (<[i := x]> l) = (take i l ++ [x])%list.
Proof.
  revert i. induction l as [|y l IH]; intros [|i] Hi; simpl in *; try lia.
  - by rewrite take_0.
  - f_equal. apply IH. lia.
Qed.

Section StandaloneParagraphs.
Variable rec : Node → result Node.
Hypothesis Hrec : recParagraphs rec.

Lemma standaloneDescend_paragraphs i cs child st :
  cs !! i = Some child → paragraphOk child →
  Forall (AllNodes paragraphOk) (take i cs) →
  standaloneDescend rec i cs child = Ok st →
  Forall (AllNodes paragraphOk) (take (fst st) (snd st)).
Proof using Hrec.
  intros Hi Hok Hpre. unfold standaloneDescend.
  apply lookup_lt_Some in Hi as Hlt.
  destruct (children child) as [gs|] eqn:Hc.
  - destruct (rec child) as [child'| |] eqn:Hr; simpl; [|done..].
    intros [= <-]. simpl. rewrite take_S_insert by done.
    apply Forall_app. split; [done|]. constructor; [|constructor].
    destruct (Hrec _ _ Hr) as (Hh & Hchild & Hbelow).
    constructor; [|done]. intros Hp Hnone. apply Hchild; [congruence|done].
  - intros [= <-]. simpl. rewrite (take_S_r _ _ _ Hi).
    apply Forall_app. split; [done|]. constructor; [|constructor].
    by apply AllNodes_leaf.
Qed.

Lemma standaloneStep_paragraphs i cs child st :
  cs !! i = Some child →
  Forall (AllNodes paragraphOk) (take i cs) →
  standaloneStep rec i cs child = Ok st →
  Forall (AllNodes paragraphOk) (take (fst st) (snd st)).
Proof using Hrec.
  intros Hi Hpre. unfold standaloneStep.
  destruct (getStandaloneAttributesFromParagraph child) as [sa| |] eqn:Hsa;
    simpl; [|done..].
  pose proof (getStandalone_paragraphOk _ _ Hsa) as Hok.
  assert (Hd : standaloneDescend rec i cs child = Ok st →
               Forall (AllNodes paragraphOk) (take (fst st) (snd st))).
  { by apply standaloneDescend_paragraphs. }
  destruct sa as [attrNode|]; [|done].
  destruct (cs !! S i) as [next|]; [|done].
  destruct (areDirectlyAdjacent child next); [|done].
  intros [= <-]. simpl. rewrite take_delete_same.
  rewrite take_insert_ge by lia. done.
Qed.

Lemma standaloneLoop_paragraphs n : ∀ i cs cs',
  Forall (AllNodes paragraphOk) (take i cs) →
  standaloneLoop rec n i cs = Ok cs' →
  Forall (AllNodes paragraphOk) cs'.
Proof using Hrec.
  induction n as [|n IH]; intros i cs cs' Hpre; simpl.
  - destruct (cs !! i) eqn:Hi; [done|]. intros [= <-].
    apply lookup_ge_None in Hi. by rewrite take_ge in Hpre.
  - destruct (cs !! i) as [child|] eqn:Hi.
    + destruct (standaloneStep rec i cs child) as [st| |] eqn:Hst;
        simpl; [|done..].
      apply IH. by eapply standaloneStep_paragraphs.
    + intros [= <-]. apply lookup_ge_None in Hi. by rewrite take_ge in Hpre.
Qed.
End StandaloneParagraphs.

Lemma processStandaloneInParent_paragraphs f :
  recParagraphs (processStandaloneInParent_fuel f).
Proof.
  induction f as [|f IH]; intros t t'; simpl; [done|].
  destruct (children t) as [cs|] eqn:Hc.
  - destruct (standaloneLoop _ (length cs) 0 cs) as [cs'| |] eqn:Hl;
      simpl; [|done..].
    intros [= <-]. split; [apply sameHead_setChildren|]. split; [done|].
    unfold AllBelow. rewrite kids_setChildren.
    eapply (standaloneLoop_paragraphs _ IH); [|done]. rewrite take_0. constructor.
  - intros [= <-]. split; [apply sameHead_refl|]. split; [done|].
    unfold AllBelow. rewrite (kids_leaf _ Hc). constructor.
Qed.

(** *** No fragment after the resolver *)

Lemma AllNodes_textOf (P : Node → Prop) c : P (textOf c) → AllNodes P (textOf c).
Proof. intros H. by apply AllNodes_leaf. Qed.

Lemma handleAttributeNode_drop parent j child cs :
  children parent = Some cs → cs !! j = Some child →
  ∃ cs1, children (handleAttributeNode parent j child) = Some cs1
         ∧ j ≤ length cs1
         ∧ sameHead parent (handleAttributeNode parent j child)
         ∧ (drop j cs1 = drop (S j) cs
            ∨ drop j cs1 = textOf child :: drop (S j) cs).
Proof.
  intros Hc Hj. pose proof (kids_children _ _ Hc) as Hk.
  apply lookup_lt_Some in Hj as Hlt.
  assert (HB : ∃ cs1, children (attachOrText parent j child) = Some cs1
                      ∧ j ≤ length cs1
                      ∧ sameHead parent (attachOrText parent j child)
                      ∧ (drop j cs1 = drop (S j) cs
                         ∨ drop j cs1 = textOf child :: drop (S j) cs)).
  { unfold attachOrText. destruct (_ && _).
    - unfold attachToParent. rewrite Hk. eexists. split; [done|].
      rewrite length_delete by (by apply lookup_lt_is_Some).
      split; [lia|]. split; [done|]. left. apply drop_delete_same.
    - unfold replaceByText. rewrite Hk. eexists. split; [done|].
      rewrite length_insert. split; [lia|]. split; [done|].
      right. by apply drop_insert_same. }
  unfold handleAttributeNode. rewrite Hk.
  destruct (0 <? j) eqn:Hpos; [|done].
  destruct (cs !! (j - 1)) as [prev|] eqn:Hprev; [|done].
  destruct (_ && _); [|done].
  unfold attachToPrevious. rewrite Hk. eexists. split; [done|].
  rewrite length_delete, length_insert;
    [|apply lookup_lt_is_Some; rewrite length_insert; lia].
  split; [lia|]. split; [done|]. left.
  rewrite drop_delete_same. apply drop_insert_lt. apply Nat.ltb_lt in Hpos. lia.
Qed.

Section ResolverFree.
Variable rec : Node → result Node.
Hypothesis Hrec : recResolved rec.

Lemma processLoop_resolved i : ∀ parent parent' cs,
  children parent = Some cs → i ≤ length cs →
  Forall (AllNodes notAttr) (drop i cs) →
  processLoop rec i parent = Ok parent' →
  sameHead parent parent' ∧ AllBelow notAttr parent'.
Proof using Hrec.
  induction i as [|j IH]; intros parent parent' cs Hc Hi Hdone; simpl.
  { intros [= <-]. split; [apply sameHead_refl|].
    unfold AllBelow. by rewrite (kids_children _ _ Hc). }
  rewrite (kids_children _ _ Hc).
  destruct (cs !! j) as [child|] eqn:Hj; [|done].
  destruct (isAttr child) eqn:Hattr.
  - destruct (handleAttributeNode_drop parent j child cs Hc Hj)
      as (cs1 & Hc1 & Hlen & Hh & Hdrop).
    intros H. eapply IH in H as [Hh' Hall]; [| done | done |].
    + split; [by eapply sameHead_trans|done].
    + destruct Hdrop as [->| ->]; [done|].
      constructor; [|done]. by apply AllNodes_textOf.
  - destruct (rec child) as [child'| |] eqn:Hr; simpl; [|done..].
    destruct (Hrec _ _ Hr) as [Hh Hbelow].
    intros H. eapply IH in H as [Hh' Hall]; [| done | |].
    + split; [|done]. eapply sameHead_trans; [apply sameHead_setChildren|done].
    + rewrite length_insert. lia.
    + rewrite drop_insert_same by lia. constructor; [|done].
      constructor; [|done]. unfold notAttr.
      by rewrite (sameHead_isAttr _ _ Hh).
Qed.
End ResolverFree.

Lemma processNode_fuel_resolved f : recResolved (processNode_fuel f).
Proof.
  induction f as [|f IH]; intros t t'; simpl; [done|].
  destruct (children t) as [cs|] eqn:Hc.
  - intros H. eapply (processLoop_resolved _ IH); [done|done| |done].
    rewrite drop_all. constructor.
  - intros [= <-]. split; [apply sameHead_refl|].
    unfold AllBelow. rewrite (kids_leaf _ Hc). constructor.
Qed.

(** ** A tree on which a pass has nothing to do *)

Lemma getStandalone_None node :
  paragraphOk node → Forall notAttr (kids node) →
  getStandaloneAttributesFromParagraph node = Ok None.
Proof.
  intros Hok Hkids. unfold getStandaloneAttributesFromParagraph.
  destruct (isParagraph node) eqn:Hp; [|done].
  destruct (children node) as [[|c [|c' cs]]|] eqn:Hc; try done.
  - rewrite (kids_children _ _ Hc) in Hkids.
    apply Forall_cons in Hkids as [Hattr _]. unfold notAttr in Hattr.
    by rewrite Hattr.
  - by destruct (Hok Hp).
Qed.

Lemma AllNodes_heads (P : Node → Prop) n :
  AllNodes P n → Forall P (kids n).
Proof.
  intros H. apply AllNodes_kids in H. eapply Forall_impl; [done|].
  intros c. apply AllNodes_node.
Qed.

Section Idle.
Variable rec : Node → result Node.

Lemma standaloneStep_idle i cs child :
  recIdle rec cs → cs !! i = Some child →
  AllNodes notAttr child → AllNodes paragraphOk child →
  standaloneStep rec i cs child = Ok (S i, cs).
Proof.
  intros Hrec Hi Hattr Hok. unfold standaloneStep.
  rewrite getStandalone_None;
    [|by apply AllNodes_node in Hok|by apply AllNodes_heads].
  simpl. unfold standaloneDescend.
  destruct (children child); [|done].
  rewrite (Hrec child) by (by eapply list_elem_of_lookup_2).
  simpl. by rewrite list_insert_id.
Qed.

Lemma standaloneLoop_idle n : ∀ i cs,
  recIdle rec cs →
  Forall (AllNodes notAttr) cs → Forall (AllNodes paragraphOk) cs →
  length cs ≤ n + i →
  standaloneLoop rec n i cs = Ok cs.
Proof.
  induction n as [|n IH]; intros i cs Hrec Hattr Hok Hn; simpl.
  - destruct (cs !! i) eqn:Hi; [|done]. apply lookup_lt_Some in Hi. lia.
  - destruct (cs !! i) as [child|] eqn:Hi; [|done].
    rewrite standaloneStep_idle; try done.
    + simpl. apply IH; try done. lia.
    + by eapply Forall_lookup_1 in Hattr.
    + by eapply Forall_lookup_1 in Hok.
Qed.

Lemma trailingStep_idle i cs child prev :
  recIdle rec cs → cs !! i = Some child →
  AllNodes notAttr child → AllNodes paragraphOk child →
  trailingStep rec i cs child prev = Ok (S i, cs).
Proof.
  intros Hrec Hi Hattr Hok. unfold trailingStep.
  assert (Hd : trailingDescend rec i cs child = Ok (S i, cs)).
  { unfold trailingDescend. destruct (children child); [|done].
    rewrite (Hrec child) by (by eapply list_elem_of_lookup_2).
    simpl. by rewrite list_insert_id. }
  destruct (isBreak prev); [|done].
  rewrite getStandalone_None;
    [done|by apply AllNodes_node in Hok|by apply AllNodes_heads].
Qed.

Lemma trailingLoop_idle n : ∀ i cs,
  recIdle rec cs →
  Forall (AllNodes notAttr) cs → Forall (AllNodes paragraphOk) cs →
  length cs ≤ n + i →
  trailingLoop rec n i cs = Ok cs.
Proof.
  induction n as [|n IH]; intros i cs Hrec Hattr Hok Hn; simpl.
  - destruct (cs !! i) eqn:Hi; [|done]. apply lookup_lt_Some in Hi. lia.
  - destruct (cs !! i) as [child|] eqn:Hi; [|done].
    destruct (cs !! (i - 1)) as [prev|] eqn:Hprev.
    2:{ apply lookup_lt_Some in Hi. apply lookup_ge_None in Hprev. lia. }
    rewrite trailingStep_idle; try done.
    + simpl. apply IH; try done. lia.
    + by eapply Forall_lookup_1 in Hattr.
    + by eapply Forall_lookup_1 in Hok.
Qed.

Lemma processLoop_idle i : ∀ parent cs,
  children parent = Some cs → recIdle rec cs → Forall notAttr cs →
  i ≤ length cs →
  processLoop rec i parent = Ok parent.
Proof.
  induction i as [|j IH]; intros parent cs Hc Hrec Hattr Hi; simpl; [done|].
  rewrite (kids_children _ _ Hc).
  destruct (cs !! j) as [child|] eqn:Hj.
  2:{ apply lookup_ge_None in Hj. lia. }
  pose proof (Forall_lookup_1 _ _ _ _ Hattr Hj) as Hchild.
  unfold notAttr in Hchild. rewrite Hchild.
  rewrite (Hrec child) by (by eapply list_elem_of_lookup_2). simpl.
  rewrite list_insert_id by done. rewrite setChildren_id by done.
  eapply IH; try done. lia.
Qed.
End Idle.

Lemma AllBelow_child (P : Node → Prop) t cs c :
  AllBelow P t → children t = Some cs → c ∈ cs → P c ∧ AllBelow P c.
Proof.
  unfold AllBelow. intros H Hc Hin. rewrite (kids_children _ _ Hc) in H.
  rewrite Forall_forall in H. specialize (H c Hin).
  split; [by apply AllNodes_node in H|by apply AllNodes_kids in H].
Qed.

Lemma AllBelow_children (P : Node → Prop) t cs :
  AllBelow P t → children t = Some cs → Forall (AllNodes P) cs.
Proof. unfold AllBelow. intros H Hc. by rewrite (kids_children _ _ Hc) in H. Qed.

Lemma processStandaloneInParent_idle f : ∀ t,
  height t < f → AllBelow notAttr t → AllBelow paragraphOk t →
  processStandaloneInParent_fuel f t = Ok t.
Proof.
  induction f as [|f IH]; intros t Hh Hattr Hok; [lia|]. simpl.
  destruct (children t) as [cs|] eqn:Hc; [|done].
  rewrite standaloneLoop_idle.
  - simpl. by rewrite setChildren_id.
  - intros c Hin. apply IH.
    + pose proof (height_kids _ _ _ Hc Hin). lia.
    + by eapply AllBelow_child.
    + by eapply AllBelow_child.
  - by eapply AllBelow_children.
  - by eapply AllBelow_children.
  - lia.
Qed.

Lemma processTrailingInParent_idle f : ∀ t,
  height t < f → AllBelow notAttr t → AllBelow paragraphOk t →
  processTrailingInParent_fuel f t = Ok t.
Proof.
  induction f as [|f IH]; intros t Hh Hattr Hok; [lia|]. simpl.
  destruct (children t) as [cs|] eqn:Hc; [|done].
  rewrite trailingLoop_idle.
  - simpl. by rewrite setChildren_id.
  - intros c Hin. apply IH.
    + pose proof (height_kids _ _ _ Hc Hin). lia.
    + by eapply AllBelow_child.
    + by eapply AllBelow_child.
  - by eapply AllBelow_children.
  - by eapply AllBelow_children.
  - lia.
Qed.

Lemma processNode_fuel_idle f : ∀ t,
  height t < f → AllBelow notAttr t → processNode_fuel f t = Ok t.
Proof.
  induction f as [|f IH]; intros t Hh Hattr; [lia|]. simpl.
  destruct (children t) as [cs|] eqn:Hc; [|done].
  eapply processLoop_idle; [done| | |done].
  - intros c Hin. apply IH.
    + pose proof (height_kids _ _ _ Hc Hin). lia.
    + by eapply AllBelow_child.
  - eapply Forall_impl; [by eapply AllBelow_children|].
    intros c. apply AllNodes_node.
Qed.

(** ** The transform *)

Lemma promote_outcome t :
  outcome (promoteTightListAttributes t)
    (λ t', Moved t t' ∧ countFragments t' = countFragments t
           ∧ AllNodes tightDone t')
    (¬ wellTyped t).
Proof.
  rewrite promoteTightListAttributes_spec.
  destruct (promoteSpec false false t) as [t'| |] eqn:H; simpl.
  - split; [by eapply promoteSpec_Evolves|].
    split; [by eapply promoteSpec_countFragments|].
    by eapply promoteSpec_done.
  - intros Hw. destruct (promoteSpec_total t false false Hw) as [t' Ht'].
    congruence.
  - by eapply promoteSpec_no_fuel.
Qed.

Lemma bind_Ok {A B : Type} (m : result A) (f : A → result B) b :
  m ≫= f = Ok b → ∃ a, m = Ok a ∧ f a = Ok b.
Proof. destruct m as [a| |]; [|done..]. intros H. by exists a. Qed.

(** The stages of a run that returns. *)
Lemma attributesTransform_Ok t t' :
  attributesTransform t = Ok t' →
  ∃ t3 t4 t5,
    processStandaloneAttributeParagraphs
      (processThematicBreakAttributes (processCodeBlocks t)) = Ok t3
    ∧ processTrailingAttributeParagraphs t3 = Ok t4
    ∧ processNode t4 = Ok t5
    ∧ promoteTightListAttributes t5 = Ok t'.
Proof.
  unfold attributesTransform. cbv zeta.
  intros (t3 & H3 & (t4 & H4 & (t5 & H5 & H6)%bind_Ok)%bind_Ok)%bind_Ok.
  by exists t3, t4, t5.
Qed.

(** The fuel never runs out, and a typed tree raises nothing. *)
Lemma attributesTransform_outcome t :
  outcome (attributesTransform t) (Moved t) (¬ wellTyped t).
Proof.
  unfold attributesTransform. cbv zeta.
  pose proof (Succ_processCodeBlocks t) as H1.
  set (t1 := processCodeBlocks t) in *.
  pose proof (Succ_processThematicBreaksInParent t1) as H2.
  unfold processThematicBreakAttributes.
  set (t2 := processThematicBreaksInParent t1) in *.
  assert (H12 : Succ t t2) by (by eapply Succ_trans).
  eapply outcome_bind.
  { eapply outcome_impl;
      [apply (processStandaloneInParent_outcome (S (height t2)) t2); lia| |].
    - intros t3 H3. exact (Succ_trans _ _ _ H12 H3).
    - intros H Hw. apply H. by eapply wellTyped_Succ. }
  intros t3 H3. eapply outcome_bind.
  { eapply outcome_impl;
      [apply (processTrailingInParent_outcome (S (height t3)) t3); lia| |].
    - intros t4 H4. exact (Succ_trans _ _ _ H3 H4).
    - intros H Hw. apply H. by eapply wellTyped_Succ. }
  intros t4 H4. eapply outcome_bind.
  { eapply outcome_impl;
      [apply (processNode_fuel_outcome (S (height t4)) t4); lia| |].
    - intros t5 H5. exact (Succ_trans _ _ _ H4 H5).
    - done. }
  intros t5 H5. eapply outcome_impl; [apply promote_outcome| |].
  - intros t' (H6 & _). eapply Evolves_trans; [|by apply Succ_Moved|done].
    apply sideStable_trans.
  - intros H Hw. apply H. by eapply wellTyped_Succ.
Qed.

Lemma attributesTransform_total t :
  wellTyped t → ∃ t', attributesTransform t = Ok t'.
Proof.
  intros Hw. pose proof (attributesTransform_outcome t) as H.
  destruct (attributesTransform t); simpl in H; [eauto|done..].
Qed.

Lemma attributesTransform_fuel t : attributesTransform t ≠ OutOfFuel.
Proof.
  pose proof (attributesTransform_outcome t) as H.
  by destruct (attributesTransform t).
Qed.

(** The sample trees are typed. *)
Ltac typed_node :=
  split; [done|split; [done|]];
  let l := fresh "l" in
  let Hin := fresh "Hin" in
  intros l Hin; vm_compute in Hin;
  repeat (apply elem_of_cons in Hin as [Hin|Hin]; [done|]);
  by apply elem_of_nil in Hin.

Ltac typed_tree :=
  repeat first
    [ exact I
    | apply Forall_nil
    | apply Forall_cons; split
    | apply AllNodes_intro; [typed_node|simpl]
    | progress (unfold sample_document, sample_em, parent_of, text_of) ].

Lemma wellTyped_sample_document : wellTyped sample_document.
Proof. unfold wellTyped. typed_tree. Qed.

Lemma countFragments_zero n : AllNodes notAttr n → countFragments n = 0.
Proof.
  induction n as [n IH] using Node_children_ind. intros H.
  rewrite countFragments_unfold.
  pose proof (AllNodes_node _ _ H) as Hn. unfold notAttr in Hn. rewrite Hn.
  apply AllNodes_kids in H. unfold kids in *.
  destruct (children n) as [cs|]; [|done]. simpl.
  induction cs as [|c cs IHcs]; [done|]. simpl.
  apply Forall_cons in H as [Hc Hcs].
  rewrite (IH c) by (done || by left). simpl.
  apply IHcs; [|done]. intros c' Hc'. apply IH. by right.
Qed.

(** The invariants of the output of a run. *)
Lemma attributesTransform_settled t t' :
  attributesTransform t = Ok t' →
  sameHead t t'
  ∧ CodeDone t' ∧ AllBelow breakFlat t' ∧ AllBelow paragraphOk t'
  ∧ AllBelow notAttr t' ∧ AllNodes tightDone t'
  ∧ (notAttr t → countFragments t' = 0).
Proof.
  intros (t3 & t4 & t5 & H3 & H4 & H5 & H6)%attributesTransform_Ok.
  unfold processThematicBreakAttributes in H3.
  set (t1 := processCodeBlocks t) in *.
  set (t2 := processThematicBreaksInParent t1) in *.
  pose proof (Succ_processCodeBlocks t : Succ t t1) as S1.
  pose proof (Succ_processThematicBreaksInParent t1 : Succ t1 t2) as S2.
  assert (S3 : Succ t2 t3).
  { eapply (outcome_Ok _ _ _ _ (processStandaloneInParent_outcome _ t2 _) H3). }
  assert (S4 : Succ t3 t4).
  { eapply (outcome_Ok _ _ _ _ (processTrailingInParent_outcome _ t3 _) H4). }
  assert (S5 : Succ t4 t5).
  { eapply (outcome_Ok _ _ _ _ (processNode_fuel_outcome _ t4 _) H5). }
  destruct (outcome_Ok _ _ _ _ (promote_outcome t5) H6) as (M6 & Hcount & Hdone).
  assert (Hhead : sameHead t t5).
  { apply Evolves_sameHead with dataMerged.
    exact (Succ_trans _ _ _ S1 (Succ_trans _ _ _ S2
             (Succ_trans _ _ _ S3 (Succ_trans _ _ _ S4 S5)))). }
  assert (Hfree : AllBelow notAttr t5).
  { by destruct (processNode_fuel_resolved _ _ _ H5). }
  split; [eapply sameHead_trans; [done|by eapply Evolves_sameHead]|].
  split.
  { eapply CodeDone_Moved; [done|].
    do 4 (eapply CodeDone_Succ; [done|]). apply CodeDone_processCodeBlocks. }
  split.
  { eapply AllBelow_breakFlat_Evolves; [done|].
    do 3 (eapply AllBelow_breakFlat_Evolves; [done|]).
    apply breakFlat_processThematicBreaksInParent. }
  split.
  { eapply AllBelow_paragraphOk_Evolves; [done|].
    do 2 (eapply AllBelow_paragraphOk_Evolves; [done|]).
    by destruct (processStandaloneInParent_paragraphs _ _ _ H3) as (_ & _ & ?). }
  split; [by eapply AllBelow_notAttr_Evolves|].
  split; [done|].
  intros Hroot. rewrite Hcount. apply countFragments_zero.
  constructor; [|done]. unfold notAttr.
  by rewrite (sameHead_isAttr _ _ Hhead).
  Unshelve. all: lia.
Qed.

(** A settled tree is a fixed point. *)
Lemma attributesTransform_fixed t :
  CodeDone t → AllBelow breakFlat t → AllBelow paragraphOk t →
  AllBelow notAttr t → AllNodes tightDone t →
  attributesTransform t = Ok t.
Proof.
  intros Hcode Hflat Hpara Hfree Hdone.
  unfold attributesTransform, processThematicBreakAttributes. cbv zeta.
  rewrite (CodeDone_id t Hcode), (breakFlat_id t Hflat).
  unfold processStandaloneAttributeParagraphs.
  rewrite processStandaloneInParent_idle by (done || lia).
  cbn [mbind result_bind]. unfold processTrailingAttributeParagraphs.
  rewrite processTrailingInParent_idle by (done || lia).
  cbn [mbind result_bind]. unfold processNode.
  rewrite processNode_fuel_idle by (done || lia).
  cbn [mbind result_bind]. rewrite promoteTightListAttributes_spec.
  by apply promoteSpec_id.
Qed.

(** C9. The transform is idempotent: when it returns a tree, no pass of
    a second run changes that tree, and the second run returns it as it
    is; on a typed tree both runs return. *)
Theorem attributesTransform_idempotent t :
  (∀ t1, attributesTransform t = Ok t1 →
         processCodeBlocks t1 = t1
         ∧ processThematicBreakAttributes t1 = t1
         ∧ processStandaloneAttributeParagraphs t1 = Ok t1
         ∧ processTrailingAttributeParagraphs t1 = Ok t1
         ∧ processNode t1 = Ok t1
         ∧ promoteTightListAttributes t1 = Ok t1
         ∧ attributesTransform t1 = Ok t1)
  ∧ (wellTyped t →
     ∃ t1, attributesTransform t = Ok t1 ∧ attributesTransform t1 = Ok t1).
Proof.
  assert (Hrun : ∀ t1, attributesTransform t = Ok t1 →
                       processCodeBlocks t1 = t1
                       ∧ processThematicBreakAttributes t1 = t1
                       ∧ processStandaloneAttributeParagraphs t1 = Ok t1
                       ∧ processTrailingAttributeParagraphs t1 = Ok t1
                       ∧ processNode t1 = Ok t1
                       ∧ promoteTightListAttributes t1 = Ok t1
                       ∧ attributesTransform t1 = Ok t1).
  { intros t1 H.
    destruct (attributesTransform_settled t t1 H) as (_ & ? & ? & ? & ? & ? & _).
    split; [by apply CodeDone_id|]. split; [by apply breakFlat_id|].
    split; [apply processStandaloneInParent_idle; done || lia|].
    split; [apply processTrailingInParent_idle; done || lia|].
    split; [apply processNode_fuel_idle; done || lia|].
    split; [rewrite promoteTightListAttributes_spec; by apply promoteSpec_id|].
    by apply attributesTransform_fixed. }
  split; [done|]. intros Hw.
  destruct (attributesTransform_total t Hw) as [t1 H1]. exists t1.
  split; [done|]. by apply Hrun.
Qed.

Lemma attributesTransform_idempotent_witness :
  attributesTransform sample_document_done = Ok sample_document_done
  ∧ ∃ t1, attributesTransform sample_document = Ok t1
          ∧ attributesTransform t1 = Ok t1.
Proof.
  split.
  - apply (proj1 (attributesTransform_idempotent sample_document)
             sample_document_done).
    reflexivity.
  - apply (proj2 (attributesTransform_idempotent sample_document)).
    apply wellTyped_sample_document.
Defined.

(** ** The scenarios of the specification, run on the model *)

(** [*em*{.class}]: the emphasis has the class, the paragraph one child. *)
Example scenario_inline :
  attributesTransform (parent_of "root" [sample_inline] None)
  = Ok (parent_of "root"
          [parent_of "paragraph"
             [setBag sample_em [("className", PArr ["class"])]]
             (onLine 1 0 12)] None).
Proof. reflexivity. Qed.

(** [*em* {.class}]: the space sends the class to the paragraph. *)
Example scenario_spaced :
  attributesTransform (parent_of "root" [sample_spaced] None)
  = Ok (parent_of "root"
          [setBag (parent_of "paragraph"
                     [sample_em; text_of " " (onLine 1 4 5)] (onLine 1 0 13))
             [("className", PArr ["class"])]] None).
Proof. reflexivity. Qed.

(** [before {.class} after]: the fragment becomes text again. *)
Example scenario_middle :
  attributesTransform (parent_of "root" [sample_middle] None)
  = Ok (parent_of "root"
          [parent_of "paragraph"
             [text_of "before " (onLine 1 0 7); text_of "{.class}" (onLine 1 7 15);
              text_of " after" (onLine 1 15 21)]
             (onLine 1 0 21)] None).
Proof. reflexivity. Qed.

(** A thematic break with the fragments [{#a}] and [{.b}]: the bag holds
    both and the break has no [children] field. *)
Example scenario_break :
  attributesTransform sample_break
  = Ok (parent_of "root"
          [mkNode "thematicBreak" None (onLine 2 0 3)
             (Some (mkData (Some [("id", PStr "a"); ("className", PArr ["b"])])
                      None))
             None None None []] None).
Proof. reflexivity. Qed.

(** A blank line between the attribute line and the heading: nothing is
    attached to the heading, the paragraph takes the class itself. *)
Example scenario_blank_line :
  attributesTransform (parent_of "root" sample_blank_line None)
  = Ok (parent_of "root"
          [setBag (parent_of "paragraph" [] (onLine 1 0 9))
             [("className", PArr ["note"])];
           parent_of "heading" [text_of "x" (onLine 3 2 3)] (onLine 3 0 3)]
          None).
Proof. reflexivity. Qed.

(** A tight list and the same list spread. *)
Example scenario_tight :
  attributesTransform sample_tight = Ok sample_tight_done
  ∧ attributesTransform sample_loose = Ok sample_loose.
Proof. split; reflexivity. Qed.

(** ** More on the merger *)

Lemma getProp_mergeEntry_other node b kv key :
  writes kv ≠ key → getProp (mergeEntry node b kv) key = getProp b key.
Proof.
  unfold writes, mergeEntry, mergeClass.
  destruct (String.eqb (fst kv) "class"); intros H; by apply getProp_setProp_ne.
Qed.

Lemma getProp_mergeEntry_plain node b k v :
  k ≠ "class" → storable b k →
  getProp (mergeEntry node b (k, v)) k = Some (PStr v).
Proof.
  intros H Hs. unfold mergeEntry. simpl.
  destruct (String.eqb_spec k "class"); [done|]. by apply getProp_setProp_eq.
Qed.

Lemma storable_mergeEntry node b kv key :
  storable b key → storable (mergeEntry node b kv) key.
Proof.
  intros [H|H]; [by left|]. destruct (decide (writes kv = key)) as [<-|Hne].
  - right. unfold writes, mergeEntry, mergeClass in *.
    destruct (String.eqb (fst kv) "class").
    + rewrite getProp_setProp_className. eauto.
    + rewrite getProp_setProp_eq; [eauto|by right].
  - right. by rewrite getProp_mergeEntry_other.
Qed.

Lemma mergeEntry_inert node b kv :
  ¬ storable b (writes kv) → mergeEntry node b kv = b.
Proof.
  unfold writes, mergeEntry. destruct (String.eqb (fst kv) "class").
  - intros H. exfalso. apply H. by left.
  - apply setProp_inert.
Qed.

Lemma mergeAttributes_getProp_other source : ∀ target node key,
  (∀ e, e ∈ source → writes e ≠ key) →
  getProp (mergeAttributes target source node) key = getProp target key.
Proof.
  induction source as [|e rest IH]; intros target node key H; [done|].
  change (mergeAttributes target (e :: rest) node)
    with (mergeAttributes (mergeEntry node target e) rest node).
  rewrite IH by (intros x Hx; apply H; by right).
  apply getProp_mergeEntry_other, H. by left.
Qed.

Lemma lastEntry_cons_None {V : Type} (k : string) (v : V) rest key :
  lastEntry ((k, v) :: rest) key = None →
  lastEntry rest key = None ∧ k ≠ key.
Proof.
  simpl. destruct (lastEntry rest key); [done|].
  destruct (String.eqb_spec k key); [done|]. by split.
Qed.

Lemma mergeAttributes_getProp source : ∀ target node key,
  key ≠ "class" →
  (key = "className" → lastEntry source "class" = None) →
  storable target key →
  getProp (mergeAttributes target source node) key
  = match lastEntry source key with
    | Some v => Some (PStr v)
    | None => getProp target key
    end.
Proof.
  induction source as [|[k v] rest IH]; intros target node key Hk Hcn Hs; [done|].
  change (mergeAttributes target ((k, v) :: rest) node)
    with (mergeAttributes (mergeEntry node target (k, v)) rest node).
  rewrite IH; [|done| |by apply storable_mergeEntry].
  - simpl. destruct (lastEntry rest key) as [v'|]; [done|].
    destruct (String.eqb_spec k key) as [->|Hne].
    + by apply getProp_mergeEntry_plain.
    + apply getProp_mergeEntry_other. unfold writes. simpl.
      destruct (String.eqb_spec k "class") as [->|]; [|done].
      intros <-. specialize (Hcn eq_refl).
      by apply lastEntry_cons_None in Hcn as [_ ?].
  - intros E. specialize (Hcn E). by apply lastEntry_cons_None in Hcn as [? _].
Qed.

Lemma mergeAttributes_no_proto source : ∀ target node,
  getProp target "__proto__" = None →
  getProp (mergeAttributes target source node) "__proto__" = None.
Proof.
  induction source as [|e rest IH]; intros target node H; [done|].
  apply IH. destruct (decide (writes e = "__proto__")) as [E|Hne].
  - rewrite mergeEntry_inert; [done|]. rewrite E.
    intros [?|[x Hx]]; [done|congruence].
  - by rewrite getProp_mergeEntry_other.
Qed.

Lemma mergeEntry_keeps node b kv key :
  is_Some (getProp b key) → is_Some (getProp (mergeEntry node b kv) key).
Proof.
  intros H. destruct (decide (writes kv = key)) as [<-|Hne].
  - unfold writes, mergeEntry, mergeClass in *.
    destruct (String.eqb (fst kv) "class").
    + rewrite getProp_setProp_className. eauto.
    + rewrite getProp_setProp_eq; [eauto|by right].
  - by rewrite getProp_mergeEntry_other.
Qed.

Lemma mergeAttributes_keeps source : ∀ target node key,
  is_Some (getProp target key) →
  is_Some (getProp (mergeAttributes target source node) key).
Proof.
  induction source as [|kv rest IH]; intros target node key H; [done|].
  apply IH. by apply mergeEntry_keeps.
Qed.

(** X1. What [mergeAttributes] leaves under a key.  For a key other than
    [class] (and, when the source has a [class] entry, other than
    [className]) that an assignment stores, which is every key but
    [__proto__] on a target without an own property of that name, the
    target holds the value of the source as a string, or, when the
    source has no such key, what it held before.  A target without an
    own [__proto__] property gets none, whatever the source holds under
    that key.  Nothing is ever stored under [class]: the target keeps
    what it had there.  No key of the target is removed. *)
Theorem mergeAttributes_lookup target source node :
  (∀ key, key ≠ "class" →
     (key = "className" → lastEntry source "class" = None) →
     (key ≠ "__proto__" ∨ is_Some (getProp target key)) →
     getProp (mergeAttributes target source node) key
     = match lastEntry source key with
       | Some v => Some (PStr v)
       | None => getProp target key
       end)
  ∧ (getProp target "__proto__" = None →
     getProp (mergeAttributes target source node) "__proto__" = None)
  ∧ getProp (mergeAttributes target source node) "class"
    = getProp target "class"
  ∧ (∀ key, is_Some (getProp target key) →
            is_Some (getProp (mergeAttributes target source node) key)).
Proof.
  split; [|split; [|split]].
  - intros key. apply mergeAttributes_getProp.
  - apply mergeAttributes_no_proto.
  - apply mergeAttributes_getProp_other. intros e _.
    unfold writes. destruct (String.eqb_spec (fst e) "class"); done.
  - intros key. apply mergeAttributes_keeps.
Qed.

Lemma mergeAttributes_lookup_witness :
  getProp (mergeAttributes [("id", PStr "x")]
             [("__proto__", "p"); ("id", "y"); ("title", "t")] sample_em) "id"
  = Some (PStr "y")
  ∧ getProp (mergeAttributes [("id", PStr "x")]
               [("__proto__", "p"); ("id", "y"); ("title", "t")] sample_em)
      "__proto__"
    = None.
Proof.
  pose proof (mergeAttributes_lookup [("id", PStr "x")]
                [("__proto__", "p"); ("id", "y"); ("title", "t")] sample_em)
    as (Hget & Hproto & _).
  split.
  - by rewrite (Hget "id"); [|done|done|left].
  - by apply Hproto.
Defined.

(** *** Merging the same map again *)

Lemma setOwn_setOwn b k v v' : setOwn (setOwn b k v) k v' = setOwn b k v'.
Proof.
  induction b as [|[k0 v0] b IH]; simpl.
  - by rewrite String.eqb_refl.
  - destruct (String.eqb k0 k) eqn:E; simpl; rewrite E; [done|by rewrite IH].
Qed.

Lemma storable_setProp b k v key : storable b key → storable (setProp b k v) key.
Proof.
  intros [H|[x Hx]]; [by left|]. right.
  destruct (decide (k = key)) as [->|Hne].
  - rewrite getProp_setProp_eq; [eauto|]. right. by eexists.
  - rewrite getProp_setProp_ne by done. by eexists.
Qed.

Lemma storable_setProp_inv b k v key :
  storable (setProp b k v) key → storable b key.
Proof.
  intros [H|H]; [by left|].
  destruct (storable_dec b k) as [Hs|Hs].
  - destruct (decide (k = key)) as [->|Hne]; [done|].
    right. by rewrite getProp_setProp_ne in H.
  - rewrite setProp_inert in H by done. by right.
Qed.

Lemma setProp_setProp b k v v' : setProp (setProp b k v) k v' = setProp b k v'.
Proof.
  destruct (storable_dec b k) as [H|H].
  - rewrite (setProp_storable _ _ v') by by apply storable_setProp.
    rewrite !setProp_storable by done. apply setOwn_setOwn.
  - by rewrite !setProp_inert by (by rewrite ?setProp_inert).
Qed.

Lemma setOwn_comm b k k' v v' :
  k ≠ k' → is_Some (getProp b k) →
  setOwn (setOwn b k' v') k v = setOwn (setOwn b k v) k' v'.
Proof.
  intros Hne. induction b as [|[k0 v0] b IH]; simpl; intros Hk.
  - by destruct Hk.
  - destruct (String.eqb_spec k0 k) as [->|Hk0].
    + destruct (String.eqb_spec k k') as [|_]; [done|]. simpl.
      rewrite String.eqb_refl. destruct (String.eqb_spec k k'); done.
    + destruct (String.eqb_spec k0 k') as [->|Hk0']; simpl.
      * destruct (String.eqb_spec k' k); [done|].
        by rewrite String.eqb_refl.
      * destruct (String.eqb_spec k0 k); [done|].
        destruct (String.eqb_spec k0 k'); [done|]. by rewrite IH.
Qed.

Lemma setProp_comm b k k' v v' :
  k ≠ k' → is_Some (getProp b k) →
  setProp (setProp b k' v') k v = setProp (setProp b k v) k' v'.
Proof.
  intros Hne Hk. assert (Hs : storable b k) by by right.
  destruct (storable_dec b k') as [H|H].
  - rewrite (setProp_storable (setProp b k' v')) by by apply storable_setProp.
    rewrite (setProp_storable (setProp b k v)) by by apply storable_setProp.
    rewrite !setProp_storable by done. by apply setOwn_comm.
  - rewrite (setProp_inert b k') by done.
    rewrite (setProp_inert (setProp b k v)); [done|].
    intros H'. by apply H, (storable_setProp_inv _ k v).
Qed.

Lemma addTokens_absorb ex value :
  (∀ t, t ∈ split " " value → truthy t = true → t ∈ ex) →
  addTokens ex value = ex.
Proof.
  unfold addTokens. induction (split " " value) as [|t ts IH]; intros H; [done|].
  simpl. destruct (truthy t) eqn:Ht.
  - rewrite pushNew_in.
    + apply IH. intros x Hx. apply H. by right.
    + apply includes_true, H; [by left|done].
  - apply IH. intros x Hx. apply H. by right.
Qed.

Lemma addLangClass_absorb ex node :
  addLangClass (addLangClass ex node) node = addLangClass ex node.
Proof.
  unfold addLangClass. destruct (String.eqb _ _); [|done].
  destruct (lang node) as [l|]; [|done]. destruct (truthy l); [|done].
  apply pushNew_in, includes_true. unfold pushNew.
  destruct (includes ex _) eqn:E; [by apply includes_true|].
  apply elem_of_app. right. by left.
Qed.

Lemma addLangClass_addTokens ex node value :
  addLangClass (addTokens (addLangClass ex node) value) node
  = addTokens (addLangClass ex node) value.
Proof.
  set (l := addLangClass ex node).
  assert (Hl : addLangClass l node = l) by apply addLangClass_absorb.
  revert Hl. unfold addLangClass. destruct (String.eqb _ _); [|done].
  destruct (lang node) as [lg|]; [|done]. destruct (truthy lg); [|done].
  intros Hl. apply pushNew_in, includes_true, addTokens_mono.
  apply includes_true. unfold pushNew in Hl.
  destruct (includes l _) eqn:E; [done|].
  exfalso. apply (f_equal length) in Hl. rewrite length_app in Hl. simpl in Hl. lia.
Qed.

Lemma mergeClass_mergeClass b value node :
  mergeClass (mergeClass b value node) value node = mergeClass b value node.
Proof.
  unfold mergeClass at 1. rewrite classNameOf_mergeClass.
  rewrite addLangClass_addTokens.
  rewrite addTokens_absorb.
  - unfold mergeClass. by rewrite setProp_setProp.
  - intros t Ht Htr.
    destruct (addTokens_spec (addLangClass (classNameOf b) node) value)
      as (new & Heq & _ & _ & _ & Hall).
    rewrite Heq. by apply Hall.
Qed.

Lemma mergeEntry_mergeEntry node b kv :
  mergeEntry node (mergeEntry node b kv) kv = mergeEntry node b kv.
Proof.
  unfold mergeEntry. destruct (String.eqb (fst kv) "class").
  - apply mergeClass_mergeClass.
  - apply setProp_setProp.
Qed.

Lemma getProp_mergeEntry_writes node b kv :
  storable b (writes kv) →
  is_Some (getProp (mergeEntry node b kv) (writes kv)).
Proof.
  unfold writes, mergeEntry, mergeClass.
  destruct (String.eqb (fst kv) "class"); intros H.
  - rewrite getProp_setProp_className. eauto.
  - rewrite getProp_setProp_eq; eauto.
Qed.

Lemma classNameOf_mergeEntry_other node b kv :
  writes kv ≠ "className" → classNameOf (mergeEntry node b kv) = classNameOf b.
Proof. intros H. unfold classNameOf. by rewrite getProp_mergeEntry_other. Qed.

(** Two entries that write different keys can be merged in either order
    once the key of one of them is in the target. *)
Lemma mergeEntry_comm node b e e' :
  writes e ≠ writes e' → is_Some (getProp b (writes e)) →
  mergeEntry node (mergeEntry node b e') e
  = mergeEntry node (mergeEntry node b e) e'.
Proof.
  unfold writes, mergeEntry.
  destruct (String.eqb (fst e) "class"), (String.eqb (fst e') "class");
    intros Hne Hk; [done| | |].
  - unfold mergeClass. rewrite classNameOf_setProp_ne by done.
    by apply setProp_comm.
  - unfold mergeClass. rewrite classNameOf_setProp_ne by done.
    by apply setProp_comm.
  - by apply setProp_comm.
Qed.

Lemma mergeAttributes_comm source : ∀ node b e,
  is_Some (getProp b (writes e)) →
  (∀ e', e' ∈ source → writes e ≠ writes e') →
  mergeEntry node (mergeAttributes b source node) e
  = mergeAttributes (mergeEntry node b e) source node.
Proof.
  induction source as [|e' rest IH]; intros node b e Hk Hne; [done|].
  change (mergeAttributes b (e' :: rest) node)
    with (mergeAttributes (mergeEntry node b e') rest node).
  change (mergeAttributes (mergeEntry node b e) (e' :: rest) node)
    with (mergeAttributes (mergeEntry node (mergeEntry node b e) e') rest node).
  rewrite IH.
  - rewrite mergeEntry_comm; [done| |done]. apply Hne. by left.
  - by apply mergeEntry_keeps.
  - intros x Hx. apply Hne. by right.
Qed.

(** X2. Merging the same attribute map a second time changes nothing,
    for a map in which no two entries write the same key of the target
    (the keys of an object are distinct; [class] and [className] write
    the same key). *)
Theorem mergeAttributes_idempotent target source node :
  NoDup (writes <$> source) →
  mergeAttributes (mergeAttributes target source node) source node
  = mergeAttributes target source node.
Proof.
  revert target. induction source as [|e rest IH]; intros target Hnd; [done|].
  apply NoDup_cons in Hnd as [Hfresh Hnd].
  change (mergeAttributes target (e :: rest) node)
    with (mergeAttributes (mergeEntry node target e) rest node).
  set (b := mergeEntry node target e).
  change (mergeAttributes (mergeAttributes b rest node) (e :: rest) node)
    with (mergeAttributes (mergeEntry node (mergeAttributes b rest node) e)
            rest node).
  assert (Hrest : ∀ e', e' ∈ rest → writes e' ≠ writes e).
  { intros e' Hin E. apply Hfresh. rewrite <- E.
    apply list_elem_of_fmap. by exists e'. }
  destruct (storable_dec target (writes e)) as [Hs|Hs].
  - rewrite mergeAttributes_comm.
    + unfold b. rewrite mergeEntry_mergeEntry. by apply IH.
    + by apply getProp_mergeEntry_writes.
    + intros e' Hin E. by apply (Hrest e').
  - assert (Hb : b = target) by by apply mergeEntry_inert.
    rewrite (mergeEntry_inert node (mergeAttributes b rest node) e).
    + by apply IH.
    + rewrite Hb. intros [Hk|Hk]; [apply Hs; by left|].
      rewrite mergeAttributes_getProp_other in Hk by done.
      apply Hs. by right.
Qed.

Lemma mergeAttributes_idempotent_witness :
  mergeAttributes
    (mergeAttributes [("id", PStr "x")] [("class", "a b a"); ("title", "t")]
       sample_code)
    [("class", "a b a"); ("title", "t")] sample_code
  = [("id", PStr "x"); ("className", PArr ["language-js"; "a"; "b"]);
     ("title", PStr "t")].
Proof.
  rewrite (mergeAttributes_idempotent [("id", PStr "x")]
             [("class", "a b a"); ("title", "t")] sample_code).
  - reflexivity.
  - apply (bool_decide_unpack _). by vm_compute.
Defined.

(** *** The class sequence *)

Lemma NoDup_pushNew ex s : NoDup ex → NoDup (pushNew ex s).
Proof.
  intros H. unfold pushNew. destruct (includes ex s) eqn:E; [done|].
  apply NoDup_app. split; [done|]. split.
  - intros x Hx ->%list_elem_of_singleton. by apply includes_false in E.
  - apply NoDup_singleton.
Qed.

Lemma NoDup_addLangClass ex node : NoDup ex → NoDup (addLangClass ex node).
Proof.
  intros H. unfold addLangClass. destruct (String.eqb _ _); [|done].
  destruct (lang node) as [l|]; [|done]. destruct (truthy l); [|done].
  by apply NoDup_pushNew.
Qed.

Lemma NoDup_addTokens ex value : NoDup ex → NoDup (addTokens ex value).
Proof.
  intros H. destruct (addTokens_spec ex value) as (new & -> & _ & Hnd & Hfresh & _).
  apply NoDup_app. split; [done|]. split; [|done].
  intros x Hx Hx'. by apply (Hfresh x).
Qed.

Lemma prefix_pushNew ex s : ex `prefix_of` pushNew ex s.
Proof.
  unfold pushNew. destruct (includes ex s); [done|]. by apply prefix_app_r.
Qed.

Lemma prefix_addLangClass ex node : ex `prefix_of` addLangClass ex node.
Proof.
  unfold addLangClass. destruct (String.eqb _ _); [|done].
  destruct (lang node) as [l|]; [|done]. destruct (truthy l); [|done].
  apply prefix_pushNew.
Qed.

Lemma prefix_addTokens ex value : ex `prefix_of` addTokens ex value.
Proof.
  destruct (addTokens_spec ex value) as (new & -> & _). by apply prefix_app_r.
Qed.

(** X3. The class sequence of the target.  A sequence without a repeated
    token stays without one through a merge; and when the source has no
    [className] entry, the sequence that was there is kept as the
    beginning of the new one: no token is removed or moved. *)
Theorem mergeAttributes_className target source node :
  (NoDup (classNameOf target) →
   NoDup (classNameOf (mergeAttributes target source node)))
  ∧ (lastEntry source "className" = None →
     classNameOf target `prefix_of`
       classNameOf (mergeAttributes target source node)).
Proof.
  split.
  - revert target. induction source as [|[k v] rest IH]; intros target H; [done|].
    apply IH. unfold mergeEntry. simpl.
    destruct (String.eqb_spec k "class") as [->|Hk].
    + rewrite classNameOf_mergeClass.
      by apply NoDup_addTokens, NoDup_addLangClass.
    + destruct (decide (k = "className")) as [->|Hcn].
      * unfold classNameOf. rewrite getProp_setProp_className. constructor.
      * by rewrite classNameOf_setProp_ne.
  - revert target. induction source as [|[k v] rest IH]; intros target H; [done|].
    apply lastEntry_cons_None in H as [Hrest Hk].
    etrans; [|by apply IH]. unfold mergeEntry. simpl.
    destruct (String.eqb_spec k "class") as [->|Hc].
    + rewrite classNameOf_mergeClass.
      etrans; [apply prefix_addLangClass|apply prefix_addTokens].
    + by rewrite classNameOf_setProp_ne.
Qed.

(** ** More on the first two passes *)

(** X4. The code-block pass, on any tree: after it, no code node that
    it reaches carries the side-channel map; a second run changes
    nothing; and a tree in which no such code node has the map is
    returned as it is. *)
Theorem processCodeBlocks_idempotent t :
  CodeDone (processCodeBlocks t)
  ∧ processCodeBlocks (processCodeBlocks t) = processCodeBlocks t
  ∧ (CodeDone t → processCodeBlocks t = t).
Proof.
  split; [apply CodeDone_processCodeBlocks|]. split.
  - apply CodeDone_id, CodeDone_processCodeBlocks.
  - apply CodeDone_id.
Qed.

(** The node given to the merger matters by its [type] and [lang]
    only. *)
Lemma mergeAttributes_node_ext source : ∀ target n n',
  type n' = type n → lang n' = lang n →
  mergeAttributes target source n' = mergeAttributes target source n.
Proof.
  induction source as [|kv rest IH]; intros target n n' Ht Hl; [done|].
  change (mergeAttributes target (kv :: rest) n')
    with (mergeAttributes (mergeEntry n' target kv) rest n').
  change (mergeAttributes target (kv :: rest) n)
    with (mergeAttributes (mergeEntry n target kv) rest n).
  rewrite (IH _ n n') by done. f_equal.
  unfold mergeEntry, mergeClass, addLangClass. by rewrite Ht, Hl.
Qed.

Lemma mergeAttributes_app target (s1 s2 : Attrs) node :
  mergeAttributes target (s1 ++ s2)%list node
  = mergeAttributes (mergeAttributes target s1 node) s2 node.
Proof. apply fold_left_app. Qed.

Lemma sideOf_mergeAttributesToNode n a : sideOf (mergeAttributesToNode n a) = sideOf n.
Proof. done. Qed.

Lemma sameHead_mergeAttributesToNode n a : sameHead n (mergeAttributesToNode n a).
Proof. apply sameHead_setData. Qed.

Lemma children_mergeAttributesToNode n a :
  children (mergeAttributesToNode n a) = children n.
Proof. done. Qed.

(** Merging the fragments of a list one after the other is one merge of
    their maps put end to end. *)
Lemma merge_fold_bag (cs : list Node) : ∀ hr,
  let hr' := fold_left (λ hr attrChild,
                          if isAttr attrChild
                          then mergeAttributesToNode hr (attributes attrChild)
                          else hr) cs hr in
  sameHead hr hr' ∧ children hr' = children hr ∧ sideOf hr' = sideOf hr
  ∧ bagOf hr'
    = mergeAttributes (bagOf hr)
        (concat (attributes <$> filter (λ c, isAttr c = true) cs)) hr.
Proof.
  induction cs as [|c cs IH]; intros hr; simpl.
  - split; [apply sameHead_refl|done].
  - destruct (isAttr c) eqn:Hc.
    + rewrite filter_cons_True by done. rewrite fmap_cons. simpl.
      destruct (IH (mergeAttributesToNode hr (attributes c)))
        as (Hh & Hch & Hs & Hb).
      split; [|split; [|split]].
      * eapply sameHead_trans; [apply sameHead_mergeAttributesToNode|done].
      * by rewrite Hch.
      * by rewrite Hs.
      * rewrite Hb, mergeAttributes_app, bagOf_mergeAttributesToNode.
        apply mergeAttributes_node_ext; [apply type_mergeAttributesToNode|done].
    + rewrite filter_cons_False by (by rewrite Hc). apply IH.
Qed.

(** X5. A thematic break that comes with children (the parser turns
    [{.class}] above [---] into one): after the pass it has no
    [children] field, and its bag is the bag it had merged with the maps
    of its fragment children, from the first to the last.  The children
    that are no fragments leave no trace. *)
Theorem processThematicBreaksInParent_break parent cs i hr :
  children parent = Some cs → cs !! i = Some hr →
  breakWithChildren hr = true →
  ∃ hr', kids (processThematicBreaksInParent parent) !! i = Some hr'
    ∧ sameHead hr hr' ∧ children hr' = None ∧ sideOf hr' = sideOf hr
    ∧ bagOf hr'
      = mergeAttributes (bagOf hr)
          (concat (attributes <$> filter (λ c, isAttr c = true) (kids hr))) hr.
Proof.
  intros Hcs Hi Hb. exists (flattenBreak hr).
  rewrite processThematicBreaksInParent_unfold, Hcs, kids_setChildren.
  rewrite list_lookup_fmap, Hi. simpl. rewrite Hb.
  split; [done|]. split; [|split; [apply children_flattenBreak|]].
  - apply Evolves_sameHead with (R := dataMerged). by apply Succ_flattenBreak.
  - unfold flattenBreak, kids. destruct (children hr) as [gs|] eqn:Hg.
    + destruct (merge_fold_bag gs hr) as (_ & _ & Hs & Hbag). by split.
    + split; [done|]. done.
Qed.

Lemma processThematicBreaksInParent_break_witness :
  ∃ hr', kids (processThematicBreaksInParent sample_break) !! 0 = Some hr'
    ∧ children hr' = None
    ∧ bagOf hr' = [("id", PStr "a"); ("className", PArr ["b"])].
Proof.
  destruct (processThematicBreaksInParent_break sample_break
              (kids sample_break) 0
              (parent_of "thematicBreak"
                 [fragment_of [("id", "a")] "{#a}" None;
                  fragment_of [("class", "b")] "{.b}" None]
                 (onLine 2 0 3)) eq_refl eq_refl eq_refl)
    as (hr' & Hi & _ & Hc & _ & Hb).
  exists hr'. split; [done|]. split; [done|]. by rewrite Hb.
Defined.

(** X6. The thematic-break pass, on any tree: after it, no thematic
    break below the root has a child; a second run changes nothing; the
    root keeps the number of its children; and a tree without such a
    break is returned as it is. *)
Theorem processThematicBreaksInParent_idempotent t :
  AllBelow breakFlat (processThematicBreaksInParent t)
  ∧ processThematicBreaksInParent (processThematicBreaksInParent t)
    = processThematicBreaksInParent t
  ∧ length (kids (processThematicBreaksInParent t)) = length (kids t)
  ∧ (AllBelow breakFlat t → processThematicBreaksInParent t = t).
Proof.
  split; [apply breakFlat_processThematicBreaksInParent|]. split; [|split].
  - apply breakFlat_id, breakFlat_processThematicBreaksInParent.
  - rewrite processThematicBreaksInParent_unfold.
    destruct (children t) as [cs|] eqn:Hc; [|done].
    by rewrite kids_setChildren, (kids_children _ _ Hc), length_fmap.
  - apply breakFlat_id.
Qed.

(** ** More on the loops *)

(** *** A paragraph without children *)

Lemma isParagraph_not_code n : isParagraph n = true → isCode n = false.
Proof. unfold isParagraph, isCode. intros ->%String.eqb_eq. reflexivity. Qed.

Lemma isParagraph_not_break n : isParagraph n = true → isBreak n = false.
Proof. unfold isParagraph, isBreak. intros ->%String.eqb_eq. reflexivity. Qed.

Lemma paragraphOk_mergeAttributesToNode n a :
  paragraphOk (mergeAttributesToNode n a) → paragraphOk n.
Proof. done. Qed.

Section StandaloneReads.
Variable rec : Node → result Node.

(** What an iteration that returns has done. *)
Lemma standaloneStep_Ok i cs child st :
  standaloneStep rec i cs child = Ok st →
  paragraphOk child
  ∧ ((∃ attrNode next,
        getStandaloneAttributesFromParagraph child = Ok (Some attrNode)
        ∧ cs !! S i = Some next
        ∧ st = (i, delete i
                     (<[S i := mergeAttributesToNode next (attributes attrNode)]> cs)))
     ∨ (fst st = S i
        ∧ (snd st = cs
           ∨ ∃ child', rec child = Ok child' ∧ snd st = <[i := child']> cs))).
Proof.
  unfold standaloneStep. intros (sa & Hsa & H)%bind_Ok.
  split; [by eapply getStandalone_paragraphOk|].
  assert (Hd : standaloneDescend rec i cs child = Ok st →
               fst st = S i
               ∧ (snd st = cs
                  ∨ ∃ child', rec child = Ok child' ∧ snd st = <[i := child']> cs)).
  { unfold standaloneDescend. destruct (children child).
    - intros (child' & ? & [= <-])%bind_Ok. simpl. eauto.
    - intros [= <-]. simpl. eauto. }
  destruct sa as [attrNode|]; [|right; by apply Hd].
  destruct (cs !! S i) as [next|] eqn:Hn; [|right; by apply Hd].
  destruct (areDirectlyAdjacent child next); [|right; by apply Hd].
  injection H as <-. left. eauto.
Qed.

(** The loop reads every element from its index on: when it returns,
    none of them is a paragraph without children. *)
Lemma standaloneLoop_reads n : ∀ i cs cs',
  standaloneLoop rec n i cs = Ok cs' → Forall paragraphOk (drop i cs).
Proof.
  induction n as [|n IH]; intros i cs cs'; simpl.
  - destruct (cs !! i) eqn:Hi; [done|]. intros _.
    apply lookup_ge_None in Hi. by rewrite drop_ge.
  - destruct (cs !! i) as [child|] eqn:Hi.
    2:{ intros _. apply lookup_ge_None in Hi. by rewrite drop_ge. }
    intros ([i1 cs1] & Hst & Hloop)%bind_Ok.
    apply standaloneStep_Ok in Hst as [Hp Hst]. apply IH in Hloop.
    rewrite (drop_S _ _ _ Hi). constructor; [done|].
    simpl in *. destruct Hst as [(a & next & _ & Hn & [= -> ->])|[-> Hs]].
    + rewrite drop_delete_same in Hloop.
      rewrite drop_insert_same in Hloop by (by eapply lookup_lt_Some).
      rewrite (drop_S _ _ _ Hn). apply Forall_cons in Hloop as [H1 H2].
      constructor; [|done]. by eapply paragraphOk_mergeAttributesToNode.
    + destruct Hs as [->|(child' & _ & ->)]; [done|].
      by rewrite drop_insert_lt in Hloop by lia.
Qed.
End StandaloneReads.

Lemma processCodeBlocks_leaf c :
  isCode c = false → children c = None → processCodeBlocks c = c.
Proof. intros H1 H2. rewrite processCodeBlocks_unfold. by rewrite H1, H2. Qed.

Lemma processThematicBreaksInParent_leaf c :
  children c = None → processThematicBreaksInParent c = c.
Proof. intros H. rewrite processThematicBreaksInParent_unfold. by rewrite H. Qed.

Lemma kids_processCodeBlocks t c :
  c ∈ kids t → isCode c = false → children c = None →
  c ∈ kids (processCodeBlocks t).
Proof.
  intros Hin Hc Hl. rewrite processCodeBlocks_unfold.
  destruct (isCode t).
  - unfold relocate. by destruct (sideOf t).
  - destruct (children t) as [cs|] eqn:E; [|done].
    rewrite kids_setChildren. rewrite (kids_children _ _ E) in Hin.
    apply list_elem_of_fmap. exists c. split; [|done].
    by rewrite processCodeBlocks_leaf.
Qed.

Lemma kids_processThematicBreaksInParent t c :
  c ∈ kids t → isBreak c = false → children c = None →
  c ∈ kids (processThematicBreaksInParent t).
Proof.
  intros Hin Hc Hl. rewrite processThematicBreaksInParent_unfold.
  destruct (children t) as [cs|] eqn:E; [|done].
  rewrite kids_setChildren. rewrite (kids_children _ _ E) in Hin.
  apply list_elem_of_fmap. exists c. split; [|done].
  unfold breakWithChildren. rewrite Hc. simpl.
  by rewrite processThematicBreaksInParent_leaf.
Qed.

(** X7. A paragraph object that has no [children] field, as a child of
    the root: the transform raises a [TypeError] (the standalone pass
    reads [children.length] of every paragraph it meets). *)
Theorem attributesTransform_childless_paragraph tree cs c :
  children tree = Some cs → c ∈ cs →
  isParagraph c = true → children c = None →
  attributesTransform tree = TypeError.
Proof.
  intros Hcs Hin Hp Hl.
  destruct (attributesTransform tree) as [t'| |] eqn:E;
    [exfalso|done|by apply attributesTransform_fuel in E].
  apply attributesTransform_Ok in E as (t3 & _ & _ & H3 & _).
  set (t2 := processThematicBreakAttributes (processCodeBlocks tree)) in *.
  assert (Hin2 : c ∈ kids t2).
  { apply kids_processThematicBreaksInParent;
      [|by apply isParagraph_not_break|done].
    apply kids_processCodeBlocks; [|by apply isParagraph_not_code|done].
    by rewrite (kids_children _ _ Hcs). }
  unfold processStandaloneAttributeParagraphs in H3. simpl in H3.
  unfold kids in Hin2. destruct (children t2) as [cs2|]; [|by apply elem_of_nil in Hin2].
  apply bind_Ok in H3 as (cs' & Hloop & _).
  apply standaloneLoop_reads in Hloop. rewrite drop_0 in Hloop.
  rewrite Forall_forall in Hloop. by apply (Hloop c Hin2 Hp).
Qed.

Lemma attributesTransform_childless_paragraph_witness :
  attributesTransform (parent_of "root" [sample_heading; sample_childless] None)
  = TypeError.
Proof.
  apply (attributesTransform_childless_paragraph _
           [sample_heading; sample_childless] sample_childless).
  - reflexivity.
  - apply elem_of_cons. right. apply elem_of_cons. by left.
  - reflexivity.
  - reflexivity.
Defined.

(** *** Attribute paragraphs after a thematic break *)

(** The trailing pass finds nothing in a node with one child: its loop
    starts at the second. *)
Lemma processTrailingInParent_single fuel child c :
  children child = Some [c] →
  processTrailingInParent_fuel (S fuel) child = Ok child.
Proof. intros H. simpl. rewrite H. simpl. by rewrite setChildren_id. Qed.

(** X8. One iteration of the trailing pass at a standalone attribute
    paragraph [child = cs[i]] with the previous sibling [prev]: when
    [prev] is a thematic break and the paragraph starts on the line after
    the end line of the break, the fragment is merged into the break and
    the paragraph is spliced out (the loop stays at [i]); when [prev] is
    no thematic break, or the two are not on adjacent lines, the array is
    left as it is and the loop goes on at [i + 1]. *)
Theorem trailingStep_adjacent fuel i (cs : list Node) child prev attrNode :
  cs !! i = Some child →
  getStandaloneAttributesFromParagraph child = Ok (Some attrNode) →
  let step :=
    trailingStep (processTrailingInParent_fuel (S fuel)) i cs child prev in
  (isBreak prev = true → lineAdjacent prev child →
     step = Ok (i, delete i
                     (<[i - 1 := mergeAttributesToNode prev (attributes attrNode)]> cs)))
  ∧ (isBreak prev = false ∨ ¬ lineAdjacent prev child →
     step = Ok (S i, cs)).
Proof.
  intros Hi Hsa step. subst step. unfold trailingStep.
  assert (Hdesc : trailingDescend (processTrailingInParent_fuel (S fuel))
                    i cs child = Ok (S i, cs)).
  { unfold trailingDescend.
    destruct (getStandalone_Some _ _ Hsa) as (_ & Hc & _). rewrite Hc.
    rewrite (processTrailingInParent_single fuel child attrNode Hc).
    simpl. by rewrite list_insert_id. }
  split.
  - intros -> Hadj. rewrite Hsa. simpl.
    apply areDirectlyAdjacent_true in Hadj. by rewrite Hadj.
  - intros Hno. destruct (isBreak prev) eqn:Hb; [|done].
    rewrite Hsa. simpl.
    destruct (areDirectlyAdjacent prev child) eqn:Hadj; [|done].
    exfalso. destruct Hno as [?|Hno]; [done|].
    by apply Hno, areDirectlyAdjacent_true.
Qed.

Lemma trailingStep_adjacent_witness :
  trailingStep (processTrailingInParent_fuel 1) 1 (kids sample_quote)
    (line_paragraph 2 [("class", "x")] "{.x}") (break_on 1)
  = Ok (1, kids sample_quote_done)
  ∧ trailingStep (processTrailingInParent_fuel 1) 1
      [sample_heading; line_paragraph 4 [("class", "x")] "{.x}"]
      (line_paragraph 4 [("class", "x")] "{.x}") sample_heading
    = Ok (2, [sample_heading; line_paragraph 4 [("class", "x")] "{.x}"]).
Proof.
  split.
  - refine (proj1 (trailingStep_adjacent 0 1 (kids sample_quote)
                     (line_paragraph 2 [("class", "x")] "{.x}") (break_on 1)
                     (fragment_of [("class", "x")] "{.x}" (onLine 2 0 9))
                     eq_refl eq_refl) eq_refl _).
    exists 1%Z, 2%Z. done.
  - refine (proj2 (trailingStep_adjacent 0 1
                     [sample_heading; line_paragraph 4 [("class", "x")] "{.x}"]
                     (line_paragraph 4 [("class", "x")] "{.x}") sample_heading
                     (fragment_of [("class", "x")] "{.x}" (onLine 4 0 9))
                     eq_refl eq_refl) _).
    by left.
Defined.

Lemma firstKept_refl c : firstKept c c.
Proof. split; [apply sameHead_refl|done]. Qed.

Lemma firstKept_trans c1 c2 c3 :
  firstKept c1 c2 → firstKept c2 c3 → firstKept c1 c3.
Proof.
  intros (Hh & Hc & Hs & Hb) (Hh' & Hc' & Hs' & Hb').
  split; [by eapply sameHead_trans|]. split; [congruence|].
  split; [congruence|]. intros H. rewrite <- (Hb H). apply Hb'.
  by rewrite (Hb H).
Qed.

Section TrailingFirst.
Variable rec : Node → result Node.

Lemma trailingStep_Ok i cs child prev st :
  trailingStep rec i cs child prev = Ok st →
  (isBreak prev = true
   ∧ ∃ attrNode,
       getStandaloneAttributesFromParagraph child = Ok (Some attrNode)
       ∧ st = (i, delete i
                    (<[i - 1 := mergeAttributesToNode prev (attributes attrNode)]> cs)))
  ∨ (fst st = S i
     ∧ (snd st = cs
        ∨ ∃ child', rec child = Ok child' ∧ snd st = <[i := child']> cs)).
Proof.
  assert (Hd : trailingDescend rec i cs child = Ok st →
               fst st = S i
               ∧ (snd st = cs
                  ∨ ∃ child', rec child = Ok child' ∧ snd st = <[i := child']> cs)).
  { unfold trailingDescend. destruct (children child).
    - intros (child' & ? & [= <-])%bind_Ok. simpl. eauto.
    - intros [= <-]. simpl. eauto. }
  unfold trailingStep. destruct (isBreak prev) eqn:Hb; [|right; by apply Hd].
  intros (sa & Hsa & H)%bind_Ok.
  destruct sa as [attrNode|]; [|right; by apply Hd].
  destruct (areDirectlyAdjacent prev child); [|right; by apply Hd].
  injection H as <-. left. eauto.
Qed.

Lemma trailingLoop_first n : ∀ i cs cs' c0,
  0 < i → cs !! 0 = Some c0 →
  trailingLoop rec n i cs = Ok cs' →
  ∃ c0', cs' !! 0 = Some c0' ∧ firstKept c0 c0'.
Proof.
  induction n as [|n IH]; intros i cs cs' c0 Hpos H0; simpl.
  - destruct (cs !! i) eqn:Hi.
    + by destruct (cs !! (i - 1)).
    + intros [= <-]. exists c0. split; [done|apply firstKept_refl].
  - destruct (cs !! i) as [child|] eqn:Hi.
    2:{ intros [= <-]. exists c0. split; [done|apply firstKept_refl]. }
    destruct (cs !! (i - 1)) as [prev|] eqn:Hprev; [|done].
    intros ([i1 cs1] & Hst & Hloop)%bind_Ok.
    apply trailingStep_Ok in Hst as [(Hb & a & _ & [= -> ->])|[Hi' Hs]];
      simpl in *.
    + destruct (decide (i - 1 = 0)) as [E|E].
      * rewrite E in *. simplify_eq.
        eapply (IH i _ cs' (mergeAttributesToNode c0 (attributes a)) Hpos) in Hloop
          as (c0' & H1 & H2).
        2:{ rewrite list_lookup_delete_lt by done.
            apply list_lookup_insert_eq. by eapply lookup_lt_Some. }
        exists c0'. split; [done|]. eapply firstKept_trans; [|done].
        split; [apply sameHead_setData|]. split; [done|]. split; [done|].
        congruence.
      * eapply (IH i _ cs' c0 Hpos); [|done].
        rewrite list_lookup_delete_lt by done.
        by rewrite list_lookup_insert_ne.
    + subst i1. eapply (IH (S i) _ cs' c0); [lia| |done].
      destruct Hs as [->|(child' & _ & ->)]; [done|].
      rewrite list_lookup_insert_ne; [done|lia].
Qed.
End TrailingFirst.

(** X9. The trailing pass never looks into the first child of a parent:
    its loop starts at the second child and recurses into the children it
    visits only.  Whatever the first child holds, it comes back with the
    same children; it is changed at all only when it is a thematic break
    that receives the attributes of the paragraph after it. *)
Theorem processTrailingInParent_first_child fuel parent parent' c0 cs :
  children parent = Some (c0 :: cs) →
  processTrailingInParent_fuel fuel parent = Ok parent' →
  ∃ c0' cs', children parent' = Some (c0' :: cs') ∧ firstKept c0 c0'.
Proof.
  intros Hc. destruct fuel as [|fuel]; [done|]. simpl. rewrite Hc.
  intros (cs1 & Hloop & [= <-])%bind_Ok.
  apply (trailingLoop_first _ _ _ _ _ c0) in Hloop as (c0' & H0 & Hk);
    [|lia|done].
  destruct cs1 as [|c cs1]; [done|]. simpl in H0. simplify_eq.
  by exists c0', cs1.
Qed.

Lemma processTrailingInParent_first_child_witness :
  (∃ c0' cs',
     children (parent_of "root" [sample_quote] None) = Some (c0' :: cs')
     ∧ firstKept sample_quote c0')
  ∧ processTrailingAttributeParagraphs (parent_of "root" [sample_quote] None)
    = Ok (parent_of "root" [sample_quote] None)
  ∧ processTrailingAttributeParagraphs
      (parent_of "root" [sample_heading; sample_quote] None)
    = Ok (parent_of "root" [sample_heading; sample_quote_done] None).
Proof.
  split; [|split; reflexivity].
  apply (processTrailingInParent_first_child 3
           (parent_of "root" [sample_quote] None) _ sample_quote []);
    reflexivity.
Defined.

(** ** More on the generic resolver *)

Lemma mergeAttributesToNode_setChildren p cs a :
  mergeAttributesToNode (setChildren p cs) a
  = setChildren (mergeAttributesToNode p a) cs.
Proof.
  unfold mergeAttributesToNode.
  rewrite (mergeAttributes_node_ext _ _ p (setChildren p cs)) by done.
  done.
Qed.

Lemma merge_all_setChildren (fs : list Node) : ∀ p cs,
  fold_left (λ p f, mergeAttributesToNode p (attributes f)) fs (setChildren p cs)
  = setChildren (fold_left (λ p f, mergeAttributesToNode p (attributes f)) fs p) cs.
Proof.
  induction fs as [|f fs IH]; intros p cs; [done|]. simpl.
  by rewrite mergeAttributesToNode_setChildren, IH.
Qed.

Lemma merge_all_bag (fs : list Node) : ∀ p,
  bagOf (fold_left (λ p f, mergeAttributesToNode p (attributes f)) fs p)
  = mergeAttributes (bagOf p) (concat (attributes <$> fs)) p.
Proof.
  induction fs as [|f fs IH]; intros p; [done|]. simpl.
  rewrite IH, mergeAttributes_app, bagOf_mergeAttributesToNode.
  apply mergeAttributes_node_ext; [apply type_mergeAttributesToNode|done].
Qed.

Lemma INLINE_TYPES_fragment f : isAttr f = true → INLINE_TYPES (type f) = false.
Proof. unfold isAttr. intros ->%String.eqb_eq. reflexivity. Qed.

Lemma processLoop_S rec j parent child :
  kids parent !! j = Some child → isAttr child = true →
  processLoop rec (S j) parent
  = processLoop rec j (handleAttributeNode parent j child).
Proof. intros H1 H2. simpl. by rewrite H1, H2. Qed.

Lemma last_cons_snoc {A : Type} (x : A) l y :
  (x :: (l ++ [y]))%list !! length l = last (x :: l).
Proof.
  revert x. induction l as [|z l IH]; intros x; [done|].
  simpl. rewrite (IH z). by destruct l.
Qed.

Lemma processLoop_run rec pre f0 (fs : list Node) : ∀ parent,
  children parent = Some (pre ++ f0 :: fs)%list →
  INLINE_TYPES (type parent) = false →
  INLINE_TYPES (type f0) = false →
  Forall (λ f, isAttr f = true) fs →
  processLoop rec (length pre + S (length fs)) parent
  = processLoop rec (S (length pre))
      (setChildren
         (fold_left (λ p f, mergeAttributesToNode p (attributes f))
            (reverse fs) parent)
         (Some (pre ++ [f0])%list)).
Proof.
  induction fs as [|f fs IH] using rev_ind; intros parent Hcs Hp Hf0 Hfs.
  - simpl. rewrite Nat.add_1_r. by rewrite setChildren_id.
  - apply Forall_app in Hfs as [Hfs Hf]. apply Forall_inv in Hf.
    rewrite reverse_snoc, length_app. simpl.
    pose proof (kids_children _ _ Hcs) as Hk.
    replace (length pre + S (length fs + 1)) with (S (length pre + S (length fs)))
      by lia.
    set (j := length pre + S (length fs)).
    assert (Hj : kids parent !! j = Some f).
    { rewrite Hk. rewrite lookup_app_r by lia.
      replace (j - length pre) with (S (length fs)) by lia. simpl.
      rewrite lookup_app_r by lia. by rewrite Nat.sub_diag. }
    assert (Hprev : ∃ prev, kids parent !! (j - 1) = Some prev
                            ∧ INLINE_TYPES (type prev) = false).
    { rewrite Hk. rewrite lookup_app_r by lia.
      replace (j - 1 - length pre) with (length fs) by lia.
      rewrite last_cons_snoc. destruct (last (f0 :: fs)) as [prev|] eqn:E.
      - exists prev. split; [done|].
        apply last_Some_elem_of, elem_of_cons in E as [->|E]; [done|].
        rewrite Forall_forall in Hfs. by apply INLINE_TYPES_fragment, Hfs.
      - by apply last_None in E. }
    destruct Hprev as (prev & Hprev & Hin).
    rewrite (processLoop_S rec j parent f Hj Hf).
    assert (Hh : handleAttributeNode parent j f
                 = setChildren (mergeAttributesToNode parent (attributes f))
                     (Some (pre ++ f0 :: fs)%list)).
    { unfold handleAttributeNode.
      replace (0 <? j) with true by (symmetry; apply Nat.ltb_lt; lia).
      rewrite Hprev, Hin. simpl. unfold attachOrText.
      replace (S j =? length (kids parent)) with true.
      2:{ symmetry. apply Nat.eqb_eq. rewrite Hk, length_app. simpl.
          rewrite length_app. simpl. lia. }
      rewrite Hp. simpl. unfold attachToParent. do 2 f_equal.
      rewrite Hk. rewrite app_comm_cons, app_assoc.
      replace j with (length (pre ++ f0 :: fs)%list)
        by (unfold j; rewrite length_app; simpl; lia).
      by rewrite delete_middle, app_nil_r. }
    rewrite Hh. unfold j. rewrite IH; [|done|done|done|done].
    by rewrite merge_all_setChildren, setChildren_setChildren.
Qed.

(** X10. Several fragments at the end of a block.  When the children of
    a parent that is no inline element end with the fragments [fs],
    after a node [f0] that is no inline element (a fragment, a text), the
    resolver, which walks the children from the last to the first, merges
    every fragment of [fs] into the parent and removes it, the last
    fragment first: the bag of the parent is its bag merged with the maps
    of [fs] in reverse order.  The loop then goes on at [f0], now the
    last child. *)
Theorem processLoop_trailing_run rec parent pre f0 (fs : list Node) :
  children parent = Some (pre ++ f0 :: fs)%list →
  INLINE_TYPES (type parent) = false →
  INLINE_TYPES (type f0) = false →
  Forall (λ f, isAttr f = true) fs →
  let merged :=
    fold_left (λ p f, mergeAttributesToNode p (attributes f)) (reverse fs)
      parent in
  processLoop rec (length pre + S (length fs)) parent
  = processLoop rec (S (length pre))
      (setChildren merged (Some (pre ++ [f0])%list))
  ∧ bagOf merged
    = mergeAttributes (bagOf parent) (concat (attributes <$> reverse fs)) parent.
Proof.
  intros Hcs Hp Hf0 Hfs merged. split.
  - by apply processLoop_run.
  - apply merge_all_bag.
Qed.

Lemma processLoop_trailing_run_witness :
  processNode sample_run
  = Ok (setBag (parent_of "paragraph" [sample_text] (onLine 1 0 13))
          [("className", PArr ["b"; "a"])]).
Proof.
  change (processNode sample_run)
    with (processLoop (processNode_fuel 1)
            (length (@nil Node)
             + S (length [fragment_of [("class", "a")] "{.a}" (onLine 1 5 9);
                          fragment_of [("class", "b")] "{.b}" (onLine 1 9 13)]))
            sample_run).
  rewrite (proj1 (processLoop_trailing_run (processNode_fuel 1) sample_run []
                    sample_text
                    [fragment_of [("class", "a")] "{.a}" (onLine 1 5 9);
                     fragment_of [("class", "b")] "{.b}" (onLine 1 9 13)]
                    eq_refl eq_refl eq_refl
                    ltac:(repeat constructor))).
  reflexivity.
Defined.

Lemma Evolves_kids_length R n n' :
  Evolves R n n' → length (kids n') ≤ length (kids n).
Proof.
  intros H. destruct (children n') as [cs'|] eqn:Hc'.
  - destruct (children n) as [cs|] eqn:Hc.
    + rewrite (kids_children _ _ Hc), (kids_children _ _ Hc').
      eapply Dropping_length. by eapply Evolves_children_inv.
    + apply (Evolves_leaf_inv _ _ _ H) in Hc. congruence.
  - rewrite (kids_leaf _ Hc'). simpl. lia.
Qed.

(** X12. The resolver returns on every tree, typed or not: its loop,
    which walks the children from the last to the first while it removes
    some, never reads past the array.  The tree it returns has the head
    fields of the input and no fragment below the root; the root has no
    more children than before and the tree no more levels. *)
Theorem processNode_total t :
  ∃ t', processNode t = Ok t' ∧ sameHead t t' ∧ AllBelow notAttr t'
        ∧ length (kids t') ≤ length (kids t) ∧ height t' ≤ height t.
Proof.
  unfold processNode.
  pose proof (processNode_fuel_outcome (S (height t)) t (Nat.lt_succ_diag_r _)) as H.
  destruct (processNode_fuel (S (height t)) t) as [t'| |] eqn:E; [|done..].
  simpl in H. exists t'. split; [done|].
  destruct (processNode_fuel_resolved _ _ _ E) as [Hh Hn].
  split; [done|]. split; [done|]. split.
  - by eapply Evolves_kids_length.
  - by eapply height_Evolves.
Qed.

(** ** More on the last pass and on the transform *)

(** *** The merger with a property bag as source *)

Lemma getProp_mergeBagEntry node b k v b' :
  k ≠ "class" → mergeBagEntry node b (k, v) = Ok b' →
  (∀ key, storable b key →
          getProp b' key = if String.eqb k key then Some v else getProp b key)
  ∧ (∀ key, storable b' key → storable b key).
Proof.
  intros Hk. unfold mergeBagEntry. simpl.
  destruct (String.eqb_spec k "class"); [done|]. intros [= <-]. split.
  - intros key Hs. destruct (String.eqb_spec k key) as [->|Hne].
    + by apply getProp_setProp_eq.
    + by apply getProp_setProp_ne.
  - intros key. apply storable_setProp_inv.
Qed.

Lemma mergeEntries_getProp entries : ∀ target node,
  (∀ kv, kv ∈ entries → fst kv ≠ "class") →
  ∃ b, mergeEntries target entries node = Ok b
       ∧ (∀ key, storable target key →
            getProp b key
            = match lastEntry entries key with
              | Some v => Some v
              | None => getProp target key
              end)
       ∧ (∀ key, storable b key → storable target key).
Proof.
  induction entries as [|[k v] rest IH]; intros target node Hno; simpl.
  - by exists target.
  - assert (Hk : k ≠ "class") by (apply (Hno (k, v)); by left).
    destruct (mergeBagEntry node target (k, v)) as [b1| |] eqn:E.
    + destruct (getProp_mergeBagEntry _ _ _ _ _ Hk E) as [Hone Hback].
      destruct (IH b1 node) as (b & Hb & Hget & Hst).
      { intros kv Hin. apply Hno. by right. }
      exists b. split; [done|]. split.
      * intros key Hs. rewrite Hget.
        -- destruct (lastEntry rest key); [done|]. rewrite Hone by done.
           by destruct (String.eqb k key).
        -- destruct Hs as [Hs|Hs]; [by left|]. right.
           rewrite Hone by (by right). by destruct (String.eqb k key).
      * intros key Hs. by apply Hback, Hst.
    + unfold mergeBagEntry in E. simpl in E.
      by destruct (String.eqb_spec k "class").
    + by apply mergeBagEntry_no_fuel in E.
Qed.

(** Where the keys are distinct, as the keys of an object are, the order
    of the entries does not matter to a lookup. *)
Lemma getProp_elem (l : Bag) k v :
  NoDup (fst <$> l) → (k, v) ∈ l → getProp l k = Some v.
Proof.
  induction l as [|[k0 v0] l IH]; intros Hnd Hin; [by apply elem_of_nil in Hin|].
  simpl in *. apply NoDup_cons in Hnd as [Hfresh Hnd].
  apply elem_of_cons in Hin as [[= -> ->]|Hin].
  - by rewrite String.eqb_refl.
  - destruct (String.eqb_spec k0 k) as [->|]; [|by apply IH].
    exfalso. apply Hfresh. apply list_elem_of_fmap. by exists (k, v).
Qed.

Lemma getProp_Some_elem (l : Bag) k v : getProp l k = Some v → (k, v) ∈ l.
Proof.
  induction l as [|[k0 v0] l IH]; [done|]. simpl.
  destruct (String.eqb_spec k0 k) as [->|].
  - intros [= ->]. by left.
  - intros H. right. by apply IH.
Qed.

Lemma lastEntry_elem {V} (l : list (string * V)) k v :
  NoDup (fst <$> l) → (k, v) ∈ l → lastEntry l k = Some v.
Proof.
  induction l as [|[k0 v0] l IH]; intros Hnd Hin; [by apply elem_of_nil in Hin|].
  simpl in *. apply NoDup_cons in Hnd as [Hfresh Hnd].
  apply elem_of_cons in Hin as [[= -> ->]|Hin].
  - rewrite String.eqb_refl. destruct (lastEntry l k0) as [v'|] eqn:E; [|done].
    exfalso. apply Hfresh. clear -E.
    induction l as [|[k1 v1] l IH]; [done|]. simpl in *.
    destruct (lastEntry l k0); [right; by apply IH|].
    destruct (String.eqb_spec k1 k0) as [->|]; [by left|done].
  - by rewrite (IH Hnd Hin).
Qed.

Lemma lastEntry_Some_elem {V} (l : list (string * V)) k v :
  lastEntry l k = Some v → (k, v) ∈ l.
Proof.
  induction l as [|[k0 v0] l IH]; [done|]. simpl.
  destruct (lastEntry l k) as [v'|].
  - intros [= ->]. right. by apply IH.
  - destruct (String.eqb_spec k0 k) as [->|]; [|done]. intros [= ->]. by left.
Qed.

Lemma lastEntry_objectEntries (source : Bag) key :
  NoDup (fst <$> source) →
  lastEntry (objectEntries source) key = getProp source key.
Proof.
  intros Hnd.
  assert (Hnd' : NoDup (fst <$> objectEntries source)).
  { by rewrite objectEntries_perm. }
  destruct (getProp source key) as [v|] eqn:E.
  - apply lastEntry_elem; [done|].
    by apply elem_of_objectEntries, getProp_Some_elem.
  - destruct (lastEntry (objectEntries source) key) as [v|] eqn:E'; [|done].
    apply lastEntry_Some_elem in E'.
    apply (proj1 (elem_of_objectEntries _ _)) in E'.
    by rewrite (getProp_elem _ _ _ Hnd E') in E.
Qed.

Lemma mergeBag_getProp source target node :
  NoDup (fst <$> source) → getProp source "class" = None →
  ∃ b, mergeBag target source node = Ok b
       ∧ (∀ key, storable target key →
            getProp b key
            = match getProp source key with
              | Some v => Some v
              | None => getProp target key
              end)
       ∧ (∀ key, storable b key → storable target key).
Proof.
  intros Hnd Hno. unfold mergeBag.
  destruct (mergeEntries_getProp (objectEntries source) target node)
    as (b & Hb & Hget & Hst).
  { intros [k v] Hin Hk. simpl in Hk. subst k.
    apply (proj1 (elem_of_objectEntries _ _)) in Hin.
    by rewrite (getProp_elem _ _ _ Hnd Hin) in Hno. }
  exists b. split; [done|]. split; [|done].
  intros key Hs. rewrite (Hget key Hs). by rewrite lastEntry_objectEntries.
Qed.

Lemma mergeEntries_class_array entries : ∀ target node l,
  ("class", PArr l) ∈ entries → mergeEntries target entries node = TypeError.
Proof.
  induction entries as [|kv rest IH]; intros target node l Hin.
  - by apply elem_of_nil in Hin.
  - simpl. apply elem_of_cons in Hin as [<-|Hin]; [done|].
    destruct (mergeBagEntry node target kv) as [b1| |] eqn:E; simpl.
    + by eapply IH.
    + done.
    + by apply mergeBagEntry_no_fuel in E.
Qed.

Lemma mergeBag_class_array source target node l :
  ("class", PArr l) ∈ source → mergeBag target source node = TypeError.
Proof.
  intros Hin. apply (mergeEntries_class_array _ _ _ l).
  by apply elem_of_objectEntries.
Qed.

(** X14. The merger as the last pass calls it, with the property bag of
    a paragraph as source: a bag with distinct keys, as the keys of an
    object are.  When the bag has no [class] entry, the call returns and
    every entry of the bag that an assignment stores is written onto the
    target as it is, [className] included: a class sequence of the
    paragraph replaces the one of the list item, the two are not united.
    An assignment stores every key but [__proto__] on a target without
    an own property of that name: such a target gets none.  When the bag
    holds an array under [class], the call raises a [TypeError]
    ([value.split] is not a function). *)
Theorem mergeBagToNode_overwrites node source :
  (NoDup (fst <$> source) → getProp source "class" = None →
   ∃ node', mergeBagToNode node source = Ok node'
     ∧ sameHead node node' ∧ children node' = children node
     ∧ (∀ key, key ≠ "__proto__" ∨ is_Some (getProp (bagOf node) key) →
          getProp (bagOf node') key
          = match getProp source key with
            | Some v => Some v
            | None => getProp (bagOf node) key
            end)
     ∧ (getProp (bagOf node) "__proto__" = None →
        getProp (bagOf node') "__proto__" = None))
  ∧ (∀ l, ("class", PArr l) ∈ source → mergeBagToNode node source = TypeError).
Proof.
  split.
  - intros Hnd Hno.
    destruct (mergeBag_getProp source (bagOf node) node Hnd Hno)
      as (b & Hb & Hget & Hst).
    exists (setBag node b). unfold mergeBagToNode. rewrite Hb. simpl.
    split; [done|]. split; [apply sameHead_setData|]. split; [done|].
    rewrite bagOf_setBag. split; [done|].
    intros Hp. destruct (getProp b "__proto__") eqn:E; [|done].
    destruct (Hst "__proto__") as [?|[x Hx]]; [right; by eexists|done|congruence].
  - intros l Hin. unfold mergeBagToNode.
    by rewrite (mergeBag_class_array _ _ _ _ Hin).
Qed.

Lemma mergeBagToNode_overwrites_witness :
  promoteChild sample_item
  = Ok (setBag
          (item_of [setData (parent_of "paragraph" [text_of "bar" None] None)
                      (Some (mkData None None))])
          [("className", PArr ["b"]); ("title", PStr "t"); ("id", PStr "p")])
  ∧ ∃ node', mergeBagToNode sample_item
               [("className", PArr ["b"]); ("id", PStr "p")] = Ok node'
             ∧ getProp (bagOf node') "className" = Some (PArr ["b"]).
Proof.
  split; [reflexivity|].
  destruct (proj1 (mergeBagToNode_overwrites sample_item
                     [("className", PArr ["b"]); ("id", PStr "p")]))
    as (node' & H & _ & _ & Hget & _).
  - apply (bool_decide_unpack _). by vm_compute.
  - reflexivity.
  - exists node'. split; [done|]. by rewrite Hget; [|left].
Defined.

(** *** The last pass *)

(** X13. The tight-list pass run on its own outcome changes nothing;
    the outcome has no paragraph with a non-empty bag in an item of a
    tight list, as many fragments as the input, and the head fields of
    the input at the root. *)
Theorem promoteTightListAttributes_idempotent t t' :
  promoteTightListAttributes t = Ok t' →
  promoteTightListAttributes t' = Ok t'
  ∧ AllNodes tightDone t'
  ∧ countFragments t' = countFragments t
  ∧ sameHead t t'.
Proof.
  rewrite !promoteTightListAttributes_spec. intros H.
  destruct (promoteSpec_done _ _ _ _ H) as (Hd & _ & _).
  split; [|split; [done|split]].
  - by apply promoteSpec_id.
  - by eapply promoteSpec_countFragments.
  - eapply Evolves_sameHead. by eapply promoteSpec_Evolves.
Qed.

Lemma promoteTightListAttributes_idempotent_witness :
  promoteTightListAttributes sample_tight_done = Ok sample_tight_done
  ∧ countFragments sample_tight_done = countFragments sample_tight.
Proof.
  destruct (promoteTightListAttributes_idempotent sample_tight sample_tight_done
              eq_refl) as (H1 & _ & H2 & _).
  by split.
Defined.

(** *** The transform *)

Lemma AllNodes_deep (P Q : Node → Prop) :
  (∀ x, AllNodes P x → Q x) → ∀ n, AllNodes P n → AllNodes Q n.
Proof.
  intros HPQ n. induction n as [n IH] using Node_children_ind. intros H.
  constructor; [by apply HPQ|].
  apply AllNodes_kids in H. rewrite Forall_forall in *.
  intros c Hc. apply IH; [done|]. by apply H.
Qed.

Lemma CodeDone_plain n : AllNodes plain n → CodeDone n.
Proof.
  induction n as [n IH] using Node_children_ind. intros H.
  destruct (isCode n) eqn:Hc.
  - apply CodeDone_code; [done|].
    apply AllNodes_node in H as (_ & Hd & _). unfold sideOf. by rewrite Hd.
  - apply CodeDone_other; [done|].
    apply AllNodes_kids in H. rewrite Forall_forall in *.
    intros c Hin. apply IH; [done|]. by apply H.
Qed.

Lemma promotable_plain n : plain n → promotable n = None.
Proof.
  intros (_ & Hd & _). unfold promotable. rewrite Hd.
  by destruct (isParagraph n).
Qed.

Lemma tightDone_plain n : AllNodes plain n → tightDone n.
Proof.
  intros H _ child Hin Hitem.
  apply AllNodes_kids in H. rewrite Forall_forall in H.
  specialize (H child Hin). split.
  - apply AllNodes_node in H as (_ & _ & _ & Hl & _). by apply Hl.
  - intros g Hg. apply AllNodes_kids in H. rewrite Forall_forall in H.
    apply promotable_plain. by eapply AllNodes_node, H.
Qed.

(** X11. The trees that the transform returns unchanged are exactly
    those in which nothing is left to do for any pass and nothing makes
    a pass raise: no code node in reach with a side-channel map; below
    the root no thematic break with children, no paragraph without its
    [children] field and no fragment; and in every tight list, every
    list item has its [children] field and holds no paragraph with a
    non-empty bag.  So a tree in which the attribute syntax is not used
    (no node is a fragment or has [data], paragraphs and list items have
    their [children] field, no thematic break has children) is returned
    as it is. *)
Theorem attributesTransform_fixed_points t :
  (attributesTransform t = Ok t
   ↔ CodeDone t ∧ AllBelow breakFlat t ∧ AllBelow paragraphOk t
     ∧ AllBelow notAttr t ∧ AllNodes tightDone t)
  ∧ (AllNodes plain t → attributesTransform t = Ok t).
Proof.
  assert (Hfix : CodeDone t ∧ AllBelow breakFlat t ∧ AllBelow paragraphOk t
                 ∧ AllBelow notAttr t ∧ AllNodes tightDone t
                 → attributesTransform t = Ok t).
  { intros (H1 & H2 & H3 & H4 & H5). by apply attributesTransform_fixed. }
  split; [split; [|done]|].
  - intros H. apply attributesTransform_settled in H
      as (_ & H1 & H2 & H3 & H4 & H5 & _). done.
  - intros H. apply Hfix. split; [by apply CodeDone_plain|].
    split; [|split; [|split]].
    + apply AllNodes_kids. revert H. apply AllNodes_impl. by intros x (_ & _ & _ & _ & ?).
    + apply AllNodes_kids. revert H. apply AllNodes_impl. by intros x (_ & _ & ? & _).
    + apply AllNodes_kids. revert H. apply AllNodes_impl. by intros x (? & _).
    + revert H. apply AllNodes_deep. apply tightDone_plain.
Qed.

Lemma size_unfold n :
  size n = S (match children n with
              | Some cs => foldr (λ c acc, size c + acc) 0 cs
              | None => 0
              end).
Proof. by destruct n. Qed.

Lemma size_Evolves R n : ∀ n', Evolves R n n' → size n' ≤ size n.
Proof.
  induction n as [n IH] using Node_children_ind. intros n' Hev.
  rewrite (size_unfold n), (size_unfold n').
  destruct Hev as [n n' Hh Hd Hc Hc'|n n' cs Hh Hd Hc Hc' Hb
                  |n n' cs cs' Hh Hd Hc Hc' Hdrop].
  - by rewrite Hc, Hc'.
  - rewrite Hc, Hc'. lia.
  - rewrite (kids_children _ _ Hc) in IH. rewrite Hc, Hc'.
    apply le_n_S. clear Hh Hd Hc Hc'.
    induction Hdrop as [|c cs cs' H IHd|c c' cs cs' Hc H IHd
                       |c c0 c' cs cs' Hr Hc H IHd]; simpl.
    + done.
    + etrans; [apply IHd|lia]. intros x Hx. apply IH. by right.
    + assert (size c' ≤ size c) by (apply IH; [by left|done]).
      assert (IH' : ∀ c0, c0 ∈ cs → ∀ n', Evolves R c0 n' → size n' ≤ size c0).
      { intros x Hx. apply IH. by right. }
      specialize (IHd IH'). lia.
    + apply textFor_Some in Hr as [_ ->].
      assert (children c' = None) as Hleaf by (by eapply Evolves_leaf_inv).
      assert (size c' = 1) as -> by (by rewrite size_unfold, Hleaf).
      assert (IH' : ∀ c0, c0 ∈ cs → ∀ n', Evolves R c0 n' → size n' ≤ size c0).
      { intros x Hx. apply IH. by right. }
      specialize (IHd IH'). rewrite (size_unfold c). lia.
Qed.

(** X15. The tree that the transform returns is never larger than its
    input: the root keeps its head fields ([type], [position], ...) and
    has no more children than before, and the tree has no more nodes and
    no more levels.  The transform removes nodes or replaces them one
    for one; it adds none. *)
Theorem attributesTransform_shape t t' :
  attributesTransform t = Ok t' →
  sameHead t t' ∧ length (kids t') ≤ length (kids t)
  ∧ size t' ≤ size t ∧ height t' ≤ height t.
Proof.
  intros E. pose proof (attributesTransform_outcome t) as H.
  rewrite E in H. simpl in H.
  split; [by eapply Evolves_sameHead|]. split; [by eapply Evolves_kids_length|].
  split; [by eapply size_Evolves|by eapply height_Evolves].
Qed.

Lemma attributesTransform_shape_witness :
  size sample_document = 10 ∧ size sample_document_done = 7
  ∧ sameHead sample_document sample_document_done.
Proof.
  destruct (attributesTransform_shape sample_document sample_document_done eq_refl)
    as (Hh & _ & _ & _).
  split; [reflexivity|]. split; [reflexivity|done].
Defined.

(** ** No content is removed *)

Lemma attrOnly_unfold n :
  attrOnly n
  = isAttr n
    || (isParagraph n
        && match children n with
           | Some cs => foldr (λ c acc, attrOnly c && acc) true cs
           | None => false
           end).
Proof. by destruct n. Qed.

Lemma attrOnly_all (cs : list Node) :
  foldr (λ c acc, attrOnly c && acc) true cs = true
  ↔ Forall (λ c, attrOnly c = true) cs.
Proof.
  induction cs as [|c cs IH]; simpl.
  - split; [constructor|done].
  - rewrite andb_true_iff, IH, Forall_cons. done.
Qed.

Lemma attrOnly_fragment c : isAttr c = true → attrOnly c = true.
Proof. intros H. by rewrite attrOnly_unfold, H. Qed.

Lemma attrOnly_standalone child attrNode :
  getStandaloneAttributesFromParagraph child = Ok (Some attrNode) →
  attrOnly child = true.
Proof.
  intros (Hp & Hc & Ha)%getStandalone_Some.
  rewrite attrOnly_unfold, Hp, Hc. simpl.
  rewrite (attrOnly_fragment _ Ha). by destruct (isAttr child).
Qed.

Lemma attrOnly_text c c' : sameHead (textOf c) c' → attrOnly c' = false.
Proof.
  intros H. rewrite attrOnly_unfold.
  rewrite (sameHead_isAttr _ _ H), (sameHead_isParagraph _ _ H). done.
Qed.

Lemma Kept_sameHead n n' : Kept n n' → sameHead n n'.
Proof. by intros []. Qed.

Lemma Kept_leaf_inv n n' : Kept n n' → children n = None → children n' = None.
Proof. intros [] ?; congruence. Qed.

Section Thinning.
Context {A : Type} (gone : A → Prop) (E : A → A → Prop) (repl : A → option A).
Hypothesis E_refl : ∀ a, E a a.

Lemma Thinning_refl cs : Thinning gone E repl cs cs.
Proof using E_refl.
  induction cs; [apply Thinning_nil|by apply Thinning_keep].
Qed.

Lemma Thinning_delete i cs c :
  cs !! i = Some c → gone c → Thinning gone E repl cs (delete i cs).
Proof using E_refl.
  revert i. induction cs as [|c0 cs IH]; intros [|i]; simpl; try done.
  - intros [= ->] H. by apply Thinning_skip, Thinning_refl.
  - intros Hi H. apply Thinning_keep; [done|by apply IH].
Qed.

Lemma Thinning_insert i cs c c' :
  cs !! i = Some c → E c c' → Thinning gone E repl cs (<[i := c']> cs).
Proof using E_refl.
  revert i. induction cs as [|c0 cs IH]; intros [|i]; simpl; try done.
  - intros [= ->] H. apply Thinning_keep; [done|apply Thinning_refl].
  - intros Hi H. apply Thinning_keep; [done|by apply IH].
Qed.

Lemma Thinning_insert_repl i cs c c0 :
  cs !! i = Some c → repl c = Some c0 →
  Thinning gone E repl cs (<[i := c0]> cs).
Proof using E_refl.
  revert i. induction cs as [|c1 cs IH]; intros [|i]; simpl; try done.
  - intros [= ->] H. eapply Thinning_repl; [done|done|apply Thinning_refl].
  - intros Hi H. apply Thinning_keep; [done|by apply IH].
Qed.
End Thinning.

(** An element that is not removable has its place in the outcome. *)
Lemma Thinning_length {A : Type} (gone : A → Prop) `{!∀ a, Decision (gone a)}
  (E : A → A → Prop) repl cs cs' :
  Thinning gone E repl cs cs' →
  length (filter (λ c, ¬ gone c) cs) ≤ length cs'.
Proof.
  induction 1 as [|c cs cs' Hg Ht IH|c c' cs cs' Hc Ht IH
                 |c c0 c' cs cs' Hr Hc Ht IH].
  - done.
  - rewrite filter_cons_False by (by intros ?). done.
  - destruct (decide (gone c)).
    + rewrite filter_cons_False by (by intros ?). simpl. lia.
    + rewrite filter_cons_True by done. simpl. lia.
  - destruct (decide (gone c)).
    + rewrite filter_cons_False by (by intros ?). simpl. lia.
    + rewrite filter_cons_True by done. simpl. lia.
Qed.

Lemma Thinning_trans {A : Type} (gone : A → Prop) (E : A → A → Prop)
  (repl : A → option A) (cs1 : list A) :
  (∀ a b c, a ∈ cs1 ∨ (∃ x, repl x = Some a) → E a b → E b c → E a c) →
  (∀ a b, E a b → repl b = repl a) →
  (∀ a a0 b, repl a = Some a0 → E a0 b → repl b = None) →
  (∀ a b, E a b → gone b → gone a) →
  (∀ a a0, repl a = Some a0 → gone a) →
  ∀ cs2 cs3,
  Thinning gone E repl cs1 cs2 → Thinning gone E repl cs2 cs3 →
  Thinning gone E repl cs1 cs3.
Proof.
  intros Htrans Hrepl Htext Hgone Hfrag cs2 cs3 H12. revert cs3.
  induction H12 as [|c cs cs' Hg H IH|c c' cs cs' Hc H IH
                   |c c0 c' cs cs' Hr Hc H IH];
    intros cs3 H23.
  - done.
  - apply Thinning_skip; [done|]. apply IH; [|done].
    intros a b d [Ha|Ha]; apply Htrans; [left; by right|by right].
  - assert (Htl : ∀ a b d, a ∈ cs ∨ (∃ x, repl x = Some a) →
                           E a b → E b d → E a d).
    { intros a b d [Ha|Ha]; apply Htrans; [left; by right|by right]. }
    inversion H23 as [|? ? ? Hg' H'|? c'' ? cs'' Hc' H'
                     |? c0' c'' ? cs'' Hr' Hc' H']; subst.
    + apply Thinning_skip; [by eapply Hgone|by apply IH].
    + apply Thinning_keep; [|by apply IH].
      eapply Htrans; [left; by left|done..].
    + eapply Thinning_repl; [| |by apply IH].
      * by rewrite <- (Hrepl _ _ Hc).
      * done.
  - assert (Htl : ∀ a b d, a ∈ cs ∨ (∃ x, repl x = Some a) →
                           E a b → E b d → E a d).
    { intros a b d [Ha|Ha]; apply Htrans; [left; by right|by right]. }
    inversion H23 as [|? ? ? Hg' H'|? c'' ? cs'' Hc' H'
                     |? c0' c'' ? cs'' Hr' Hc' H']; subst.
    + apply Thinning_skip; [by eapply Hfrag|by apply IH].
    + eapply Thinning_repl; [done| |by apply IH].
      eapply Htrans; [right; by exists c|done..].
    + rewrite (Htext _ _ _ Hr Hc) in Hr'. done.
Qed.

Lemma Kept_refl n : Kept n n.
Proof.
  induction n as [n IH] using Node_children_ind.
  destruct (children n) as [cs|] eqn:Hcs.
  - eapply Kept_node; [apply sameHead_refl|done..|].
    rewrite (kids_children _ _ Hcs) in IH. clear Hcs.
    induction cs as [|c cs IHcs]; [apply Thinning_nil|apply Thinning_keep].
    + apply IH. by left.
    + apply IHcs. intros c' Hc'. apply IH. by right.
  - by apply Kept_leaf; [apply sameHead_refl|..].
Qed.

(** What became attribute syntax only was so before. *)
Lemma attrOnly_Kept n : ∀ n', Kept n n' → attrOnly n' = true → attrOnly n = true.
Proof.
  induction n as [n IH] using Node_children_ind. intros n' HK.
  rewrite (attrOnly_unfold n), (attrOnly_unfold n').
  pose proof (Kept_sameHead _ _ HK) as Hh.
  rewrite (sameHead_isAttr _ _ Hh), (sameHead_isParagraph _ _ Hh).
  destruct HK as [n n' _ Hc Hc'|n n' cs _ Hc Hc' Hb|n n' cs cs' _ Hc Hc' Hth].
  - by rewrite Hc, Hc'.
  - rewrite Hc'. rewrite andb_false_r, orb_false_r.
    unfold isBreak in Hb. apply String.eqb_eq in Hb. unfold isAttr.
    by rewrite Hb.
  - rewrite Hc, Hc'. destruct (isAttr n); [done|]. simpl.
    destruct (isParagraph n); [|done]. simpl.
    rewrite !attrOnly_all. rewrite (kids_children _ _ Hc) in IH.
    clear Hc Hc' Hh.
    induction Hth as [|c cs cs' Hg H IHt|c c' cs cs' Hkc H IHt
                     |c c0 c' cs cs' Hr Hkc H IHt]; intros Hall.
    + done.
    + constructor; [done|]. apply IHt; [|done].
      intros x Hx. apply IH. by right.
    + apply Forall_cons in Hall as [H1 H2]. constructor.
      * eapply IH; [by left|done..].
      * apply IHt; [|done]. intros x Hx. apply IH. by right.
    + apply Forall_cons in Hall as [H1 H2].
      apply textFor_Some in Hr as [_ ->].
      apply Kept_sameHead in Hkc. by rewrite (attrOnly_text _ _ Hkc) in H1.
Qed.

Lemma Kept_trans n1 : ∀ n2 n3, Kept n1 n2 → Kept n2 n3 → Kept n1 n3.
Proof.
  induction n1 as [n1 IH] using Node_children_ind. intros n2 n3 H12 H23.
  assert (Hh : sameHead n1 n3).
  { eapply sameHead_trans; by eapply Kept_sameHead. }
  destruct H12 as [n1 n2 Hh12 Hc1 Hc2|n1 n2 cs Hh12 Hc1 Hc2 Hb
                  |n1 n2 cs cs' Hh12 Hc1 Hc2 Hth].
  - inversion H23; subst; try congruence. by apply Kept_leaf.
  - inversion H23; subst; try congruence. by eapply Kept_flat.
  - inversion H23 as [? ? ? Hc2' Hc3|? ? cs2 ? Hc2' Hc3 Hb
                     |? ? cs2 cs3 ? Hc2' Hc3 Hth']; subst.
    + congruence.
    + eapply Kept_flat; [done..|].
      by rewrite <- (sameHead_isBreak _ _ Hh12).
    + rewrite Hc2 in Hc2'. injection Hc2' as <-.
      eapply Kept_node; [done..|].
      eapply Thinning_trans; [| | | | |done|done].
      * intros a b c [Ha|[x Hx]] Hab Hbc.
        -- eapply IH; [|done..]. by rewrite (kids_children _ _ Hc1).
        -- apply textFor_Some in Hx as [_ ->].
           assert (Hac : sameHead (textOf x) c).
           { eapply sameHead_trans; by eapply Kept_sameHead. }
           inversion Hab; subst; try done.
           inversion Hbc; subst; try congruence. by apply Kept_leaf.
      * intros a b Hab. apply sameHead_textFor. by eapply Kept_sameHead.
      * intros a a0 b Ha Hab. eapply textFor_text; [done|].
        by eapply Kept_sameHead.
      * intros a b. apply attrOnly_Kept.
      * intros a a0 [Ha _]%textFor_Some. by apply attrOnly_fragment.
Qed.

Lemma KeptList_refl cs : KeptList cs cs.
Proof. apply Thinning_refl, Kept_refl. Qed.

Lemma KeptList_trans cs1 cs2 cs3 :
  KeptList cs1 cs2 → KeptList cs2 cs3 → KeptList cs1 cs3.
Proof.
  apply Thinning_trans.
  - intros a b c _. apply Kept_trans.
  - intros a b Hab. apply sameHead_textFor. by eapply Kept_sameHead.
  - intros a a0 b Ha Hab. eapply textFor_text; [done|].
    by eapply Kept_sameHead.
  - intros a b. apply attrOnly_Kept.
  - intros a a0 [Ha _]%textFor_Some. by apply attrOnly_fragment.
Qed.

(** A change of the data alone. *)
Lemma Kept_head n n' : sameHead n n' → children n' = children n → Kept n n'.
Proof.
  intros Hh Hc. destruct (children n) as [cs|] eqn:Hcs.
  - eapply Kept_node; [done..|]. apply KeptList_refl.
  - by apply Kept_leaf.
Qed.

(** A change of the children alone. *)
Lemma Kept_children n cs cs' :
  children n = Some cs → KeptList cs cs' → Kept n (setChildren n (Some cs')).
Proof.
  intros Hc Hd. eapply Kept_node; [apply sameHead_setChildren|done..].
Qed.

Lemma KeptList_fmap (f : Node → Node) cs :
  (∀ c, c ∈ cs → Kept c (f c)) → KeptList cs (f <$> cs).
Proof.
  induction cs as [|c cs IH]; intros H; simpl; [apply Thinning_nil|].
  apply Thinning_keep; [apply H; by left|].
  apply IH. intros c' Hc'. apply H. by right.
Qed.

Lemma Kept_mergeAttributesToNode n a : Kept n (mergeAttributesToNode n a).
Proof. apply Kept_head; [apply sameHead_setData|done]. Qed.

(** *** The passes, one by one *)

Lemma Kept_processCodeBlocks t : Kept t (processCodeBlocks t).
Proof.
  induction t as [t IH] using Node_children_ind.
  rewrite processCodeBlocks_unfold. destruct (isCode t).
  - unfold relocate. destruct (sideOf t); [|apply Kept_refl].
    apply Kept_head; [apply sameHead_setData|done].
  - destruct (children t) as [cs|] eqn:Hcs; [|apply Kept_refl].
    eapply Kept_children; [done|].
    apply KeptList_fmap. intros c Hc. apply IH.
    by rewrite (kids_children _ _ Hcs).
Qed.

Lemma Kept_flattenBreak child :
  breakWithChildren child = true → Kept child (flattenBreak child).
Proof.
  intros H. pose proof (Succ_flattenBreak child H) as Hs.
  unfold breakWithChildren in H. apply andb_true_iff in H as [Hb Hc].
  destruct (children child) as [cs|] eqn:Hcs; [|done].
  eapply Kept_flat; [by eapply Evolves_sameHead|done| |done].
  apply children_flattenBreak.
Qed.

Lemma Kept_processThematicBreaksInParent t :
  Kept t (processThematicBreaksInParent t).
Proof.
  induction t as [t IH] using Node_children_ind.
  rewrite processThematicBreaksInParent_unfold.
  destruct (children t) as [cs|] eqn:Hcs; [|apply Kept_refl].
  eapply Kept_children; [done|].
  apply (KeptList_fmap (λ child, if breakWithChildren child then flattenBreak child
                                 else processThematicBreaksInParent child)).
  intros c Hc. destruct (breakWithChildren c) eqn:Hb.
  - by apply Kept_flattenBreak.
  - apply IH. by rewrite (kids_children _ _ Hcs).
Qed.

Section LoopsKept.
Variable rec : Node → result Node.
Hypothesis Hrec : ∀ c c', rec c = Ok c' → Kept c c'.

Lemma standaloneLoop_Kept n : ∀ i cs cs',
  standaloneLoop rec n i cs = Ok cs' → KeptList cs cs'.
Proof using Hrec.
  induction n as [|n IH]; intros i cs cs'; simpl.
  - destruct (cs !! i); [done|]. intros [= <-]. apply KeptList_refl.
  - destruct (cs !! i) as [child|] eqn:Hi.
    2:{ intros [= <-]. apply KeptList_refl. }
    intros ([i1 cs1] & Hst & Hloop)%bind_Ok. apply IH in Hloop.
    eapply KeptList_trans; [|done]. simpl.
    apply standaloneStep_Ok in Hst
      as [_ [(a & next & Hsa & Hn & [= -> ->])|[_ Hs]]]; simpl in *.
    + eapply KeptList_trans.
      * eapply Thinning_insert; [apply Kept_refl|done|].
        apply Kept_mergeAttributesToNode.
      * eapply Thinning_delete; [apply Kept_refl| |by eapply attrOnly_standalone].
        rewrite list_lookup_insert_ne by lia. done.
    + destruct Hs as [->|(child' & Hr & ->)]; [apply KeptList_refl|].
      eapply Thinning_insert; [apply Kept_refl|done|by apply Hrec].
Qed.

Lemma trailingLoop_Kept n : ∀ i cs cs',
  0 < i → trailingLoop rec n i cs = Ok cs' → KeptList cs cs'.
Proof using Hrec.
  induction n as [|n IH]; intros i cs cs' Hpos; simpl.
  - destruct (cs !! i).
    + by destruct (cs !! (i - 1)).
    + intros [= <-]. apply KeptList_refl.
  - destruct (cs !! i) as [child|] eqn:Hi.
    2:{ intros [= <-]. apply KeptList_refl. }
    destruct (cs !! (i - 1)) as [prev|] eqn:Hprev; [|done].
    intros ([i1 cs1] & Hst & Hloop)%bind_Ok.
    apply trailingStep_Ok in Hst
      as [(Hb & a & Hsa & [= -> ->])|[Hi1 Hs]]; simpl in *.
    + apply IH in Hloop; [|done]. eapply KeptList_trans; [|done].
      eapply KeptList_trans.
      * eapply Thinning_insert; [apply Kept_refl|done|].
        apply Kept_mergeAttributesToNode.
      * eapply Thinning_delete; [apply Kept_refl| |by eapply attrOnly_standalone].
        rewrite list_lookup_insert_ne by lia. done.
    + subst i1. apply IH in Hloop; [|lia]. eapply KeptList_trans; [|done].
      destruct Hs as [->|(child' & Hr & ->)]; [apply KeptList_refl|].
      eapply Thinning_insert; [apply Kept_refl|done|by apply Hrec].
Qed.

Lemma processLoop_Kept i : ∀ parent p' cs,
  children parent = Some cs →
  processLoop rec i parent = Ok p' → Kept parent p'.
Proof using Hrec.
  induction i as [|j IH]; intros parent p' cs Hc; simpl.
  { intros [= <-]. apply Kept_refl. }
  pose proof (kids_children _ _ Hc) as Hk. rewrite Hk.
  destruct (cs !! j) as [child|] eqn:Hj; [|done].
  destruct (isAttr child) eqn:Hattr.
  - intros H.
    destruct (handleAttributeNode_Succ parent j child cs Hc Hj Hattr)
      as (_ & cs1 & Hc1 & _).
    apply (IH _ _ _ Hc1) in H. eapply Kept_trans; [|done].
    clear H IH. apply lookup_lt_Some in Hj as Hlt.
    assert (HB : Kept parent (attachOrText parent j child)).
    { unfold attachOrText. destruct (_ && _).
      - unfold attachToParent. rewrite Hk.
        eapply Kept_trans; [apply Kept_mergeAttributesToNode|].
        eapply Kept_children; [done|].
        eapply Thinning_delete; [apply Kept_refl|done|].
        by apply attrOnly_fragment.
      - unfold replaceByText. rewrite Hk. eapply Kept_children; [done|].
        eapply Thinning_insert_repl; [apply Kept_refl|done|].
        unfold textFor. by rewrite Hattr. }
    unfold handleAttributeNode. rewrite Hk.
    destruct (0 <? j) eqn:Hp; [|done]. apply Nat.ltb_lt in Hp.
    destruct (cs !! (j - 1)) as [prev|] eqn:Hprev; [|done].
    destruct (_ && _); [|done].
    unfold attachToPrevious. rewrite Hk. eapply Kept_children; [done|].
    eapply KeptList_trans.
    + eapply Thinning_insert; [apply Kept_refl|done|].
      apply Kept_mergeAttributesToNode.
    + eapply Thinning_delete; [apply Kept_refl| |by apply attrOnly_fragment].
      rewrite list_lookup_insert_ne by lia. done.
  - intros (child' & Hr & H)%bind_Ok.
    eapply (IH _ _ (<[j := child']> cs)) in H; [|done].
    eapply Kept_trans; [|done]. eapply Kept_children; [done|].
    eapply Thinning_insert; [apply Kept_refl|done|by apply Hrec].
Qed.
End LoopsKept.

Lemma processStandaloneInParent_Kept f : ∀ t t',
  processStandaloneInParent_fuel f t = Ok t' → Kept t t'.
Proof.
  induction f as [|f IH]; intros t t'; [done|]. simpl.
  destruct (children t) as [cs|] eqn:Hc.
  - intros (cs' & Hloop & [= <-])%bind_Ok. eapply Kept_children; [done|].
    by eapply standaloneLoop_Kept.
  - intros [= <-]. apply Kept_refl.
Qed.

Lemma processTrailingInParent_Kept f : ∀ t t',
  processTrailingInParent_fuel f t = Ok t' → Kept t t'.
Proof.
  induction f as [|f IH]; intros t t'; [done|]. simpl.
  destruct (children t) as [cs|] eqn:Hc.
  - intros (cs' & Hloop & [= <-])%bind_Ok. eapply Kept_children; [done|].
    eapply trailingLoop_Kept; [done| |done]. lia.
  - intros [= <-]. apply Kept_refl.
Qed.

Lemma processNode_fuel_Kept f : ∀ t t',
  processNode_fuel f t = Ok t' → Kept t t'.
Proof.
  induction f as [|f IH]; intros t t'; [done|]. simpl.
  destruct (children t) as [cs|] eqn:Hc.
  - by eapply processLoop_Kept.
  - intros [= <-]. apply Kept_refl.
Qed.

Lemma promoteSpec_Kept n : ∀ a b n', promoteSpec a b n = Ok n' → Kept n n'.
Proof.
  induction n as [n IH] using Node_children_ind. intros a b n' H.
  pose proof (promoteSpec_root _ _ _ _ H) as (n1' & Hown' & Hh & Hd & _).
  apply promoteSpec_Ok in H as (n1 & Hown & H).
  pose proof (ownData_head _ _ _ _ Hown) as (_ & Hc & Hs).
  destruct (children n) as [cs|] eqn:Hcs.
  - destruct H as (cs' & Hfor & ->).
    eapply Kept_node; [done|done|done|].
    apply forEach_Ok_Forall2 in Hfor.
    rewrite (kids_children _ _ Hcs) in IH. clear Hcs Hc Hh Hd.
    induction Hfor as [|c c' cs cs' Hcc _ IHf]; [apply Thinning_nil|].
    apply Thinning_keep.
    + eapply IH; [by left|done].
    + apply IHf. intros x Hx. apply IH. by right.
  - subst n'. apply Kept_leaf; [done|done|]. by rewrite Hc.
Qed.

(** X16. The transform removes attribute syntax and nothing else.  The
    tree it returns is the input with its content kept: at every level
    the children that were removed are fragments or paragraphs made of
    fragments only (the children of a thematic break apart, which are
    all removed); every other child is still there, in its place among
    the others, with its [type], [position] and [value]; a fragment that
    stays is a text node.  So the root, when it is no thematic break, has
    at least as many children as it had children that are not attribute
    syntax only. *)
Theorem attributesTransform_keeps t t' :
  attributesTransform t = Ok t' →
  Kept t t'
  ∧ (isBreak t = false →
     length (filter (λ c, attrOnly c ≠ true) (kids t)) ≤ length (kids t')).
Proof.
  intros (t3 & t4 & t5 & H3 & H4 & H5 & H6)%attributesTransform_Ok.
  assert (HK : Kept t t').
  { eapply Kept_trans; [apply Kept_processCodeBlocks|].
    eapply Kept_trans; [apply Kept_processThematicBreaksInParent|].
    eapply Kept_trans; [by eapply processStandaloneInParent_Kept|].
    eapply Kept_trans; [by eapply processTrailingInParent_Kept|].
    eapply Kept_trans; [by eapply processNode_fuel_Kept|].
    rewrite promoteTightListAttributes_spec in H6.
    by eapply promoteSpec_Kept. }
  split; [done|]. intros Hb.
  destruct HK as [n n' _ Hc Hc'|n n' cs _ Hc Hc' Hb'|n n' cs cs' _ Hc Hc' Hth].
  - rewrite (kids_leaf _ Hc). simpl. lia.
  - congruence.
  - rewrite (kids_children _ _ Hc), (kids_children _ _ Hc').
    by apply (Thinning_length (λ c, attrOnly c = true)) in Hth.
Qed.

Lemma attributesTransform_keeps_witness :
  Kept sample_document sample_document_done
  ∧ length (filter (λ c, attrOnly c ≠ true) (kids sample_document)) = 2.
Proof.
  split; [|reflexivity].
  apply (attributesTransform_keeps sample_document sample_document_done eq_refl).
Defined.

(** ** A run of attribute lines *)


Lemma lineAdjacent_mergeAttributesToNode n a m :
  lineAdjacent (mergeAttributesToNode n a) m ↔ lineAdjacent n m.
Proof. done. Qed.

(** One iteration at a standalone paragraph directly above its next
    sibling. *)
Lemma standaloneLoop_splice rec n pre child attrNode next rest :
  getStandaloneAttributesFromParagraph child = Ok (Some attrNode) →
  lineAdjacent child next →
  standaloneLoop rec (S n) (length pre) (pre ++ child :: next :: rest)
  = standaloneLoop rec n (length pre)
      (pre ++ mergeAttributesToNode next (attributes attrNode) :: rest).
Proof.
  intros Hsa Hadj. simpl.
  rewrite lookup_app_r by lia. rewrite Nat.sub_diag. simpl.
  unfold standaloneStep. rewrite Hsa. simpl.
  rewrite lookup_app_r by lia.
  replace (S (length pre) - length pre) with 1 by lia. simpl.
  apply areDirectlyAdjacent_true in Hadj. rewrite Hadj. simpl.
  rewrite insert_app_r_alt by lia.
  replace (S (length pre) - length pre) with 1 by lia. simpl.
  by rewrite delete_middle.
Qed.

Lemma standaloneLoop_run rec n pre next rest attrNode (qs : list Node) : ∀ q,
  standaloneChain (q :: qs) next →
  (∃ pl, last (q :: qs) = Some pl
         ∧ getStandaloneAttributesFromParagraph pl = Ok (Some attrNode)) →
  standaloneLoop rec (S (length qs) + n) (length pre)
    (pre ++ (q :: qs) ++ next :: rest)
  = standaloneLoop rec n (length pre)
      (pre ++ mergeAttributesToNode next (attributes attrNode) :: rest).
Proof.
  induction qs as [|q2 qs IH]; intros q ([a Ha] & Hadj & Hch) (pl & Hl & Hpl).
  - simpl in Hl. injection Hl as <-. rewrite Ha in Hpl. injection Hpl as <-.
    by apply standaloneLoop_splice.
  - change (pre ++ (q :: q2 :: qs) ++ next :: rest)%list
      with (pre ++ q :: q2 :: (qs ++ next :: rest))%list.
    change (S (length (q2 :: qs)) + n) with (S (S (length qs) + n)).
    rewrite (standaloneLoop_splice rec _ pre q a q2 _ Ha Hadj).
    apply (IH (mergeAttributesToNode q2 (attributes a))).
    + destruct Hch as (H1 & H2 & H3). split; [done|]. split; [|done].
      by apply lineAdjacent_mergeAttributesToNode.
    + rewrite last_cons_cons in Hl. destruct qs as [|q3 qs].
      * simpl in Hl. injection Hl as <-.
        exists (mergeAttributesToNode q2 (attributes a)). by split.
      * exists pl. by rewrite last_cons_cons in *.
Qed.

(** X18. A run of attribute lines.  When standalone attribute paragraphs
    stand on consecutive lines, the last of them directly above a block
    [next], the forward pass removes them all, one iteration each, and
    [next] receives the map of the last paragraph only: each of the
    others is merged into the bag of the paragraph after it, which is
    removed in its turn.  What the earlier lines carried is not in the
    outcome. *)
Theorem standaloneLoop_chain rec n pre ps p attrNode next rest :
  standaloneChain (ps ++ [p]) next →
  getStandaloneAttributesFromParagraph p = Ok (Some attrNode) →
  standaloneLoop rec (S (length ps) + n) (length pre)
    (pre ++ (ps ++ [p]) ++ next :: rest)
  = standaloneLoop rec n (length pre)
      (pre ++ mergeAttributesToNode next (attributes attrNode) :: rest).
Proof.
  intros Hch Hp. destruct ps as [|q qs].
  - apply (standaloneLoop_run rec n pre next rest attrNode [] p Hch).
    exists p. by split.
  - simpl in Hch.
    replace (S (length (q :: qs)) + n) with (S (length (qs ++ [p])) + n)
      by (rewrite length_app; simpl; lia).
    apply (standaloneLoop_run rec n pre next rest attrNode (qs ++ [p]) q Hch).
    exists p. split; [|done]. by rewrite app_comm_cons, last_snoc.
Qed.

Lemma standaloneLoop_chain_witness :
  standaloneLoop (processStandaloneInParent_fuel 2) 3 0
    (kids (sample_two_lines [("id", "first")] "{#first}"))
  = Ok [setBag sample_heading [("className", PArr ["second"])]].
Proof.
  refine (eq_trans
            (standaloneLoop_chain (processStandaloneInParent_fuel 2) 1 []
               [line_paragraph 1 [("id", "first")] "{#first}"]
               (line_paragraph 2 [("class", "second")] "{.second}")
               (fragment_of [("class", "second")] "{.second}" (onLine 2 0 9))
               sample_heading [] _ eq_refl) eq_refl).
  split; [by eexists|]. split; [by exists 1%Z, 2%Z|].
  split; [by eexists|]. split; [by exists 2%Z, 3%Z|done].
Defined.

(** ** The plugins *)

(** X17. The plugin [remarkAttributes] is the two phases in one: it
    leaves the processor with the data that [remarkAttributesParse]
    leaves, and returns a transformer that maps every tree to what the
    transformer of [remarkAttributesTransform] maps it to.  The
    registration adds one extension at the end of each of the three
    lists and keeps what was registered before, in its order; so a
    second use of the plugin registers the extensions a second time. *)
Theorem remarkAttributes_combines (Extension : Type)
  (attributesExt fromMarkdownExt toMarkdownExt : Extension)
  (data : ProcessorData Extension) :
  let parse := remarkAttributesParse attributesExt fromMarkdownExt toMarkdownExt in
  let both := remarkAttributes attributesExt fromMarkdownExt toMarkdownExt in
  fst (both data) = parse data
  ∧ (∀ tree, snd (both data) tree = remarkAttributesTransform tree)
  ∧ registered (micromarkExtensions (parse data))
    = (registered (micromarkExtensions data) ++ [attributesExt])%list
  ∧ registered (fromMarkdownExtensions (parse data))
    = (registered (fromMarkdownExtensions data) ++ [fromMarkdownExt])%list
  ∧ registered (toMarkdownExtensions (parse data))
    = (registered (toMarkdownExtensions data) ++ [toMarkdownExt])%list
  ∧ registered (micromarkExtensions (parse (parse data)))
    = (registered (micromarkExtensions data)
       ++ [attributesExt; attributesExt])%list.
Proof.
  intros parse both. subst parse both. simpl.
  repeat split. unfold registered, pushExtension. simpl.
  by rewrite <- app_assoc.
Qed.

(** ** A list item without children *)

Lemma forEach_error {A : Type} (f : A → result A) xs x :
  (∀ y, y ∈ xs → f y ≠ OutOfFuel) → x ∈ xs → f x = TypeError →
  forEach f xs = TypeError.
Proof.
  induction xs as [|y xs IH]; intros Hnf Hin Hx.
  - by apply elem_of_nil in Hin.
  - simpl. pose proof (Hnf y (list_elem_of_here _ _)) as Hy.
    destruct (f y) as [y'| |] eqn:E; simpl; [|done..].
    apply elem_of_cons in Hin as [->|Hin]; [congruence|].
    rewrite IH; [done| |done..]. intros z Hz. apply Hnf. by right.
Qed.

(** A child that is no attribute syntax has its successor in the
    outcome. *)
Lemma KeptList_elem cs cs' c :
  KeptList cs cs' → c ∈ cs → attrOnly c = false →
  ∃ c', c' ∈ cs' ∧ Kept c c'.
Proof.
  induction 1 as [|c0 cs cs' Hg Ht IH|c0 c0' cs cs' Hc Ht IH
                 |c0 c1 c0' cs cs' Hr Hc Ht IH]; intros Hin Hno.
  - by apply elem_of_nil in Hin.
  - apply elem_of_cons in Hin as [->|Hin]; [congruence|]. by apply IH.
  - apply elem_of_cons in Hin as [->|Hin].
    + exists c0'. split; [by left|done].
    + destruct (IH Hin Hno) as (c' & ? & ?). exists c'. split; [by right|done].
  - apply elem_of_cons in Hin as [->|Hin].
    + apply textFor_Some in Hr as [Ha _].
      rewrite (attrOnly_fragment _ Ha) in Hno. done.
    + destruct (IH Hin Hno) as (c' & ? & ?). exists c'. split; [by right|done].
Qed.

Lemma Kept_kids n n' c :
  Kept n n' → isBreak n = false → c ∈ kids n → attrOnly c = false →
  ∃ c', c' ∈ kids n' ∧ Kept c c'.
Proof.
  intros HK Hb Hin Hno.
  destruct HK as [n n' _ Hc Hc'|n n' cs _ Hc Hc' Hb'|n n' cs cs' _ Hc Hc' Hth].
  - rewrite (kids_leaf _ Hc) in Hin. by apply elem_of_nil in Hin.
  - congruence.
  - rewrite (kids_children _ _ Hc) in Hin. rewrite (kids_children _ _ Hc').
    by eapply KeptList_elem.
Qed.

Lemma attrOnly_list n : isList n = true → attrOnly n = false.
Proof.
  intros H. rewrite attrOnly_unfold. unfold isAttr, isParagraph.
  unfold isList in H. apply String.eqb_eq in H. by rewrite H.
Qed.

Lemma attrOnly_listItem n : isListItem n = true → attrOnly n = false.
Proof.
  intros H. rewrite attrOnly_unfold. unfold isAttr, isParagraph.
  unfold isListItem in H. apply String.eqb_eq in H. by rewrite H.
Qed.

Lemma isList_not_break n : isList n = true → isBreak n = false.
Proof. unfold isList, isBreak. intros ->%String.eqb_eq. reflexivity. Qed.

(** The tight-list pass at a list with such an item, wherever the list
    stands in the tree of the call. *)
Lemma promoteSpec_childless_item a b L item :
  tightList L = true → item ∈ kids L →
  isListItem item = true → children item = None →
  promoteSpec a b L = TypeError.
Proof.
  intros Ht Hin Hi Hc. rewrite promoteSpec_unfold.
  assert (HL : isList L = true).
  { unfold tightList in Ht. by apply andb_true_iff in Ht as [? _]. }
  assert (Hitem : isListItem L = false).
  { unfold isList in HL. apply String.eqb_eq in HL. unfold isListItem.
    by rewrite HL. }
  unfold ownData at 1. rewrite Hitem, andb_false_r.
  unfold kids in Hin. destruct (children L) as [cs|] eqn:HcL;
    [|by apply elem_of_nil in Hin].
  simpl. rewrite (forEach_error _ cs item); [done| |done|].
  - intros y _. apply promoteSpec_no_fuel.
  - rewrite promoteSpec_unfold. unfold ownData. by rewrite Ht, Hi, Hc.
Qed.

(** X19. A list item object without a [children] field, in a tight list
    that is a child of the root: the transform raises a [TypeError] (the
    last pass iterates [child.children] of every item of a tight list).
    The passes before it leave the list and the item in the tree. *)
Theorem attributesTransform_childless_item tree L item :
  isBreak tree = false → L ∈ kids tree → tightList L = true →
  item ∈ kids L → isListItem item = true → children item = None →
  attributesTransform tree = TypeError.
Proof.
  intros Hb HL Ht Hin Hi Hc.
  destruct (attributesTransform tree) as [t'| |] eqn:E;
    [exfalso|done|by apply attributesTransform_fuel in E].
  apply attributesTransform_Ok in E as (t3 & t4 & t5 & H3 & H4 & H5 & H6).
  assert (HK : Kept tree t5).
  { eapply Kept_trans; [apply Kept_processCodeBlocks|].
    eapply Kept_trans; [apply Kept_processThematicBreaksInParent|].
    eapply Kept_trans; [by eapply processStandaloneInParent_Kept|].
    eapply Kept_trans; [by eapply processTrailingInParent_Kept|].
    by eapply processNode_fuel_Kept. }
  assert (HLl : isList L = true).
  { unfold tightList in Ht. by apply andb_true_iff in Ht as [? _]. }
  destruct (Kept_kids _ _ L HK Hb HL (attrOnly_list _ HLl)) as (L5 & HL5 & HKL).
  destruct (Kept_kids _ _ item HKL (isList_not_break _ HLl) Hin
              (attrOnly_listItem _ Hi)) as (item5 & Hin5 & HKi).
  pose proof (Kept_sameHead _ _ HKL) as HhL.
  pose proof (Kept_sameHead _ _ HKi) as Hhi.
  assert (HE : promoteSpec (tightList t5) false L5 = TypeError).
  { apply (promoteSpec_childless_item _ _ L5 item5).
    - by rewrite (sameHead_tightList _ _ HhL).
    - done.
    - by rewrite (sameHead_isListItem _ _ Hhi).
    - by eapply Kept_leaf_inv. }
  rewrite promoteTightListAttributes_spec, promoteSpec_unfold in H6.
  simpl in H6. unfold kids in HL5.
  destruct (children t5) as [cs5|]; [|by apply elem_of_nil in HL5].
  rewrite (forEach_error _ cs5 L5) in H6; [done| |done|done].
  intros y _. apply promoteSpec_no_fuel.
Qed.

Lemma attributesTransform_childless_item_witness :
  attributesTransform sample_childless_item = TypeError.
Proof.
  apply (attributesTransform_childless_item sample_childless_item
           (mkNode "list"
              (Some [item_of [parent_of "paragraph" [text_of "foo" None] None];
                     mkNode "listItem" None None None None None None []])
              None None None (Some false) None [])
           (mkNode "listItem" None None None None None None [])).
  - reflexivity.
  - apply elem_of_cons. by left.
  - reflexivity.
  - apply elem_of_cons. right. apply elem_of_cons. by left.
  - reflexivity.
  - reflexivity.
Defined.

(** ** The merger of the earlier version *)

Lemma Legacy_get_setOwn_eq b k v : Legacy.get (Legacy.setOwn b k v) k = Some v.
Proof.
  induction b as [|[k' v'] b IH]; simpl.
  - by rewrite String.eqb_refl.
  - destruct (String.eqb k' k) eqn:E; simpl; rewrite E; [done|apply IH].
Qed.

Lemma Legacy_get_setOwn_ne b k k' v :
  k ≠ k' → Legacy.get (Legacy.setOwn b k v) k' = Legacy.get b k'.
Proof.
  intros Hne. induction b as [|[k0 v0] b IH]; simpl.
  - destruct (String.eqb_spec k k'); [done|reflexivity].
  - destruct (String.eqb_spec k0 k) as [->|]; simpl.
    + destruct (String.eqb_spec k k'); [done|reflexivity].
    + destruct (String.eqb k0 k'); [done|apply IH].
Qed.

Lemma Legacy_get_set_eq b k v :
  k ≠ "__proto__" ∨ is_Some (Legacy.get b k) →
  Legacy.get (Legacy.set b k v) k = Some v.
Proof.
  unfold Legacy.set. intros [Hk|[x Hx]].
  - destruct (String.eqb_spec k "__proto__"); [done|]. apply Legacy_get_setOwn_eq.
  - rewrite Hx. destruct (String.eqb k "__proto__"); apply Legacy_get_setOwn_eq.
Qed.

Lemma Legacy_set_inert b v :
  Legacy.get b "__proto__" = None → Legacy.set b "__proto__" v = b.
Proof. unfold Legacy.set. simpl. by intros ->. Qed.

Lemma Legacy_get_set_ne b k k' v :
  k ≠ k' → Legacy.get (Legacy.set b k v) k' = Legacy.get b k'.
Proof.
  intros Hne. unfold Legacy.set.
  destruct (String.eqb k "__proto__"); [destruct (Legacy.get b k); [|done]|];
    by apply Legacy_get_setOwn_ne.
Qed.

Lemma Legacy_classOf_set b v : Legacy.classOf (Legacy.set b "class" v) = v.
Proof. unfold Legacy.classOf. rewrite Legacy_get_set_eq; [done|by left]. Qed.

Lemma Legacy_classOf_set_ne b k v :
  k ≠ "class" → Legacy.classOf (Legacy.set b k v) = Legacy.classOf b.
Proof. intros H. unfold Legacy.classOf. by rewrite Legacy_get_set_ne. Qed.

Lemma split_nonempty sep s : split sep s ≠ [].
Proof.
  destruct s as [|c s]; simpl; [done|].
  destruct (Ascii.eqb c sep); [done|]. by destruct (split sep s).
Qed.

(** Splitting two values joined by the separator. *)
Lemma split_join (sep : ascii) (s1 s2 : string) :
  split sep (s1 ++ String sep s2) = (split sep s1 ++ split sep s2)%list.
Proof.
  induction s1 as [|c s1 IH]; simpl.
  - by rewrite Ascii.eqb_refl.
  - destruct (Ascii.eqb c sep); [by rewrite IH|].
    rewrite IH. pose proof (split_nonempty sep s1) as Hne.
    by destruct (split sep s1).
Qed.

Lemma addTokens_join ex (s v : string) :
  addTokens ex (s ++ " " ++ v) = addTokens (addTokens ex s) v.
Proof.
  unfold addTokens. change (" " ++ v)%string with (String " " v).
  by rewrite split_join, fold_left_app.
Qed.

Lemma addLangClass_not_code ex node : isCode node = false → addLangClass ex node = ex.
Proof. unfold isCode, addLangClass. by intros ->. Qed.

Lemma refinesLegacy_mergeEntry node target0 target kv :
  isCode node = false → fst kv ≠ "className" →
  refinesLegacy target0 target →
  refinesLegacy (Legacy.mergeEntry target0 kv) (mergeEntry node target kv).
Proof.
  intros Hnode Hk [Hcls Hkeys]. unfold Legacy.mergeEntry, mergeEntry.
  destruct (String.eqb_spec (fst kv) "class") as [E|E]; simpl.
  - split.
    + rewrite classNameOf_mergeClass, addLangClass_not_code by done.
      rewrite Hcls. destruct (truthy (Legacy.classOf target0)) eqn:Ht.
      * by rewrite Legacy_classOf_set, addTokens_join.
      * rewrite E, Legacy_classOf_set.
        by destruct (Legacy.classOf target0).
    + intros key H1 H2. unfold mergeClass.
      rewrite getProp_setProp_ne by done.
      destruct (truthy (Legacy.classOf target0)).
      * rewrite Legacy_get_set_ne by done. by apply Hkeys.
      * rewrite E, Legacy_get_set_ne by done. by apply Hkeys.
  - split.
    + rewrite classNameOf_setProp_ne, Legacy_classOf_set_ne by done. done.
    + intros key H1 H2. destruct (decide (fst kv = key)) as [<-|Hne].
      * specialize (Hkeys _ H1 H2).
        destruct (storable_dec target (fst kv)) as [Hs|Hs].
        -- rewrite getProp_setProp_eq, Legacy_get_set_eq; [done| |done].
           destruct Hs as [Hs|[x Hx]]; [by left|]. right.
           rewrite Hx in Hkeys. destruct (Legacy.get target0 (fst kv)); [eauto|done].
        -- rewrite setProp_inert by done.
           assert (Hp : fst kv = "__proto__").
           { destruct (decide (fst kv = "__proto__")); [done|].
             exfalso. apply Hs. by left. }
           rewrite Hp in *. rewrite Legacy_set_inert; [done|].
           destruct (Legacy.get target0 "__proto__") eqn:E0; [|done].
           exfalso. apply Hs. right. rewrite Hkeys. by eexists.
      * rewrite getProp_setProp_ne, Legacy_get_set_ne by done. by apply Hkeys.
Qed.

(** X20. The merger and the one of the earlier version.  The earlier
    version joins the class values into one string under [class],
    separated by a space; the current one keeps a sequence under
    [className].  On a node that is no code block and for a source
    without a [className] entry the two agree: when the bags agree
    before the merge (the sequence is made of the tokens of the string,
    each once, in their order, and every other key holds the same
    string), they agree after it. *)
Theorem mergeAttributes_refines_legacy node target0 target source :
  isCode node = false →
  lastEntry source "className" = None →
  refinesLegacy target0 target →
  refinesLegacy (Legacy.mergeAttributes target0 source)
    (mergeAttributes target source node).
Proof.
  intros Hnode. revert target0 target.
  induction source as [|[k v] rest IH]; intros target0 target Hno Href; [done|].
  apply lastEntry_cons_None in Hno as [Hrest Hk].
  apply (IH _ _ Hrest). by apply refinesLegacy_mergeEntry.
Qed.

Lemma mergeAttributes_refines_legacy_witness :
  Legacy.mergeAttributes [("class", "a b")] [("class", "b c"); ("id", "x")]
  = [("class", "a b b c"); ("id", "x")]
  ∧ mergeAttributes [("className", PArr ["a"; "b"])]
      [("class", "b c"); ("id", "x")] sample_em
    = [("className", PArr ["a"; "b"; "c"]); ("id", PStr "x")]
  ∧ refinesLegacy
      (Legacy.mergeAttributes [("class", "a b")] [("class", "b c"); ("id", "x")])
      (mergeAttributes [("className", PArr ["a"; "b"])]
         [("class", "b c"); ("id", "x")] sample_em).
Proof.
  split; [reflexivity|]. split; [reflexivity|].
  apply (mergeAttributes_refines_legacy sample_em [("class", "a b")]
           [("className", PArr ["a"; "b"])] [("class", "b c"); ("id", "x")]).
  - reflexivity.
  - reflexivity.
  - split; [reflexivity|]. intros key H1 H2. cbn -[String.eqb].
    destruct (String.eqb_spec "className" key) as [E|E]; [by rewrite E in H2|].
    destruct (String.eqb_spec "class" key) as [E'|E']; [by rewrite E' in H1|].
    reflexivity.
Defined.

(** ** Every pass is a sequence of attachments *)

Lemma Steps_one n n' : Step n n' → Steps n n'.
Proof. intros H. eapply Steps_step; [done|constructor]. Qed.

Lemma Steps_trans n1 n2 n3 : Steps n1 n2 → Steps n2 n3 → Steps n1 n3.
Proof.
  induction 1 as [|n1 n n2 Hstep _ IH]; [done|].
  intros H. eapply Steps_step; [done|by apply IH].
Qed.

Lemma Steps_below n cs i c c' :
  children n = Some cs → cs !! i = Some c → Steps c c' →
  Steps n (setChildren n (Some (<[i := c']> cs))).
Proof.
  intros Hcs Hi H. revert n cs Hcs Hi.
  induction H as [c|c c2 c' Hstep _ IH]; intros n cs Hcs Hi.
  - rewrite list_insert_id by done. rewrite setChildren_id by done. constructor.
  - eapply Steps_step; [by eapply Step_below|].
    specialize (IH (setChildren n (Some (<[i := c2]> cs))) (<[i := c2]> cs) eq_refl).
    rewrite list_lookup_insert_eq in IH by (by eapply lookup_lt_Some).
    specialize (IH eq_refl).
    by rewrite setChildren_setChildren, list_insert_insert_eq in IH.
Qed.

Lemma StepsIn_refl cs : StepsIn cs cs.
Proof. intros parent H. rewrite setChildren_id by done. constructor. Qed.

Lemma StepsIn_trans cs1 cs2 cs3 : StepsIn cs1 cs2 → StepsIn cs2 cs3 → StepsIn cs1 cs3.
Proof.
  intros H1 H2 parent Hp. eapply Steps_trans; [by apply H1|].
  specialize (H2 (setChildren parent (Some cs2)) eq_refl).
  by rewrite setChildren_setChildren in H2.
Qed.

Lemma StepsIn_insert cs i c c' :
  cs !! i = Some c → Steps c c' → StepsIn cs (<[i := c']> cs).
Proof. intros Hi H parent Hp. by eapply Steps_below. Qed.

Lemma StepsIn_rule cs cs' :
  (∀ parent, children parent = Some cs → Rule parent (setChildren parent (Some cs'))) →
  StepsIn cs cs'.
Proof. intros H parent Hp. apply Steps_one, Step_here. by apply H. Qed.

Lemma StepsIn_Forall2 cs cs' : Forall2 Steps cs cs' → StepsIn cs cs'.
Proof.
  intros H. cut (∀ pre, StepsIn (pre ++ cs)%list (pre ++ cs')%list).
  { intros Hc. apply (Hc []). }
  induction H as [|c c' cs cs' Hc _ IH]; intros pre; [apply StepsIn_refl|].
  eapply StepsIn_trans.
  - apply (StepsIn_insert _ (length pre) c c'); [|done].
    by rewrite list_lookup_middle.
  - replace (length pre) with (length pre + 0) by lia.
    rewrite insert_app_r. simpl.
    specialize (IH (pre ++ [c'])%list). by rewrite <- !app_assoc in IH.
Qed.

Lemma StepsIn_fmap (f : Node → Node) cs :
  (∀ c, c ∈ cs → Steps c (f c)) → StepsIn cs (f <$> cs).
Proof.
  intros H. apply StepsIn_Forall2. induction cs as [|c cs IH]; [constructor|].
  simpl. constructor; [apply H; by left|]. apply IH. intros x Hx. apply H. by right.
Qed.

(** *** The two passes without loop *)

Lemma Steps_processCodeBlocks t : Steps t (processCodeBlocks t).
Proof.
  induction t as [n IH] using Node_children_ind.
  rewrite processCodeBlocks_unfold. destruct (isCode n) eqn:Hc.
  - destruct (sideOf n) as [m|] eqn:Hm.
    + apply Steps_one, Step_here. by eapply Rule_relocate.
    + unfold relocate. rewrite Hm. constructor.
  - destruct (children n) as [cs|] eqn:Hcs; [|constructor].
    apply StepsIn_fmap; [|done]. intros c Hin. apply IH.
    by rewrite (kids_children _ _ Hcs).
Qed.

Lemma Steps_processThematicBreaksInParent t :
  Steps t (processThematicBreaksInParent t).
Proof.
  induction t as [n IH] using Node_children_ind.
  rewrite processThematicBreaksInParent_unfold.
  destruct (children n) as [cs|] eqn:Hcs; [|constructor].
  apply (StepsIn_fmap (λ child, if breakWithChildren child then flattenBreak child
                                else processThematicBreaksInParent child)); [|done].
  intros c Hin. destruct (breakWithChildren c) eqn:Hb.
  - apply Steps_one, Step_here. by apply Rule_flatten.
  - apply IH. by rewrite (kids_children _ _ Hcs).
Qed.

(** *** The loops *)

Section LoopsSteps.
Variable rec : Node → result Node.
Hypothesis Hrec : ∀ c c', rec c = Ok c' → Steps c c'.

(** One iteration of the standalone loop, with the test that chose its
    branch. *)
Lemma standaloneStep_inv i cs child st :
  standaloneStep rec i cs child = Ok st →
  (∃ attrNode next,
     getStandaloneAttributesFromParagraph child = Ok (Some attrNode)
     ∧ cs !! S i = Some next ∧ lineAdjacent child next
     ∧ st = (i, delete i
                  (<[S i := mergeAttributesToNode next (attributes attrNode)]> cs)))
  ∨ (standaloneDescend rec i cs child = Ok st
     ∧ ∀ attrNode next,
         getStandaloneAttributesFromParagraph child = Ok (Some attrNode) →
         cs !! S i = Some next → ¬ lineAdjacent child next).
Proof.
  unfold standaloneStep. intros (sa & Hsa & H)%bind_Ok. rewrite Hsa.
  destruct sa as [attrNode|]; [|right; split; [done|by intros ?? [=]]].
  destruct (cs !! S i) as [next|] eqn:Hn; [|right; split; [done|by intros ?? _ [=]]].
  destruct (areDirectlyAdjacent child next) eqn:Hadj.
  - injection H as <-. left. exists attrNode, next.
    by apply areDirectlyAdjacent_true in Hadj.
  - right. split; [done|]. intros a n' [= <-] [= <-] Ha.
    apply areDirectlyAdjacent_true in Ha. congruence.
Qed.

Lemma standaloneDescend_inv i cs child st :
  standaloneDescend rec i cs child = Ok st →
  fst st = S i
  ∧ (snd st = cs ∧ children child = None
     ∨ ∃ child', children child ≠ None ∧ rec child = Ok child'
                 ∧ snd st = <[i := child']> cs).
Proof.
  unfold standaloneDescend. destruct (children child).
  - intros (child' & ? & [= <-])%bind_Ok. simpl. split; [done|]. right. eauto.
  - intros [= <-]. simpl. eauto.
Qed.

Lemma standaloneLoop_Steps n : ∀ i cs cs',
  standaloneLoop rec n i cs = Ok cs' → StepsIn cs cs'.
Proof.
  induction n as [|n IH]; intros i cs cs'; simpl.
  - destruct (cs !! i); [done|]. intros [= <-]. apply StepsIn_refl.
  - destruct (cs !! i) as [child|] eqn:Hi; [|intros [= <-]; apply StepsIn_refl].
    intros (st & Hst & Hloop)%bind_Ok. apply IH in Hloop.
    eapply StepsIn_trans; [|exact Hloop].
    apply standaloneStep_inv in Hst
      as [(a & next & Hsa & Hn & Hadj & ->)|[Hd _]].
    + simpl. apply StepsIn_rule. intros parent Hp. by eapply Rule_standalone.
    + apply standaloneDescend_inv in Hd as [_ [[-> _]|(child' & _ & Hr & ->)]].
      * apply StepsIn_refl.
      * eapply StepsIn_insert; [done|]. by apply Hrec.
Qed.

Lemma trailingStep_inv i cs child prev st :
  trailingStep rec i cs child prev = Ok st →
  (isBreak prev = true
   ∧ ∃ attrNode,
       getStandaloneAttributesFromParagraph child = Ok (Some attrNode)
       ∧ lineAdjacent prev child
       ∧ st = (i, delete i
                    (<[i - 1 := mergeAttributesToNode prev (attributes attrNode)]> cs)))
  ∨ (trailingDescend rec i cs child = Ok st
     ∧ ∀ attrNode,
         isBreak prev = true →
         getStandaloneAttributesFromParagraph child = Ok (Some attrNode) →
         ¬ lineAdjacent prev child).
Proof.
  unfold trailingStep. destruct (isBreak prev) eqn:Hb; [|right; by split].
  intros (sa & Hsa & H)%bind_Ok. rewrite Hsa.
  destruct sa as [attrNode|]; [|right; split; [done|by intros ? _ [=]]].
  destruct (areDirectlyAdjacent prev child) eqn:Hadj.
  - injection H as <-. left. split; [done|]. exists attrNode.
    by apply areDirectlyAdjacent_true in Hadj.
  - right. split; [done|]. intros a _ _ Ha.
    apply areDirectlyAdjacent_true in Ha. congruence.
Qed.

Lemma trailingLoop_Steps n : ∀ i cs cs',
  trailingLoop rec n i cs = Ok cs' → StepsIn cs cs'.
Proof.
  induction n as [|n IH]; intros i cs cs'; simpl.
  - destruct (cs !! i); [|intros [= <-]; apply StepsIn_refl].
    by destruct (cs !! (i - 1)).
  - destruct (cs !! i) as [child|] eqn:Hi; [|intros [= <-]; apply StepsIn_refl].
    destruct (cs !! (i - 1)) as [prev|] eqn:Hp; [|done].
    intros (st & Hst & Hloop)%bind_Ok. apply IH in Hloop.
    eapply StepsIn_trans; [|exact Hloop].
    apply trailingStep_inv in Hst as [(Hb & a & Hsa & Hadj & ->)|[Hd _]].
    + simpl. apply StepsIn_rule. intros parent Hpar.
      eapply Rule_trailing; try done.
      destruct i as [|i]; [|lia]. simpl in Hp. rewrite Hi in Hp.
      injection Hp as <-. apply getStandalone_Some in Hsa as [Hpar' _].
      apply isBreak_not_paragraph in Hb. congruence.
    + unfold trailingDescend in Hd. destruct (children child).
      * apply bind_Ok in Hd as (child' & Hr & [= <-]). simpl.
        eapply StepsIn_insert; [done|]. by apply Hrec.
      * injection Hd as <-. apply StepsIn_refl.
Qed.

Lemma handleAttributeNode_Rule parent cs j child :
  children parent = Some cs → cs !! j = Some child → isAttr child = true →
  Rule parent (handleAttributeNode parent j child).
Proof.
  intros Hcs Hj Ha. unfold handleAttributeNode.
  assert (Hfall : Rule parent (attachOrText parent j child)).
  { unfold attachOrText.
    destruct (S j =? length (kids parent)) eqn:Hlast; simpl;
      [|by eapply Rule_text].
    destruct (INLINE_TYPES (type parent)) eqn:Hinl; simpl;
      [by eapply Rule_text|].
    eapply Rule_last; try done. split; [|done]. by apply Nat.eqb_eq. }
  destruct (0 <? j) eqn:Hpos; [|done].
  destruct (kids parent !! (j - 1)) as [prev|] eqn:Hprev; [|done].
  destruct (INLINE_TYPES (type prev)) eqn:Hinl; [|done].
  destruct (Z.eqb (getPositionGap prev child) 0) eqn:Hgap; [|done]. simpl.
  eapply Rule_inline; try done. split; [by apply Nat.ltb_lt|].
  split; [done|]. split; [done|]. by apply getPositionGap_zero, Z.eqb_eq.
Qed.

Lemma processLoop_Steps i : ∀ parent parent' cs,
  children parent = Some cs →
  processLoop rec i parent = Ok parent' → Steps parent parent'.
Proof.
  induction i as [|j IH]; intros parent parent' cs Hcs; simpl.
  - intros [= <-]. constructor.
  - rewrite (kids_children _ _ Hcs).
    destruct (cs !! j) as [child|] eqn:Hj; [|done].
    destruct (isAttr child) eqn:Ha.
    + intros Hloop. eapply Steps_trans.
      * apply Steps_one, Step_here. by eapply handleAttributeNode_Rule.
      * assert (∃ cs1, children (handleAttributeNode parent j child) = Some cs1)
          as [cs1 Hcs1].
        { unfold handleAttributeNode, attachOrText, attachToPrevious,
            attachToParent, replaceByText.
          repeat case_match; simpl; eauto. }
        by eapply IH.
    + intros (child' & Hr & Hloop)%bind_Ok. eapply Steps_trans.
      * eapply Steps_below; [done..|]. by apply Hrec.
      * by eapply IH.
Qed.
End LoopsSteps.

Lemma Steps_processStandaloneInParent f : ∀ t t',
  processStandaloneInParent_fuel f t = Ok t' → Steps t t'.
Proof.
  induction f as [|f IH]; intros t t'; simpl; [done|].
  destruct (children t) as [cs|] eqn:Hcs; [|intros [= <-]; constructor].
  intros (cs' & Hloop & [= <-])%bind_Ok.
  apply (standaloneLoop_Steps _ IH) in Hloop. by apply Hloop.
Qed.

Lemma Steps_processTrailingInParent f : ∀ t t',
  processTrailingInParent_fuel f t = Ok t' → Steps t t'.
Proof.
  induction f as [|f IH]; intros t t'; simpl; [done|].
  destruct (children t) as [cs|] eqn:Hcs; [|intros [= <-]; constructor].
  intros (cs' & Hloop & [= <-])%bind_Ok.
  apply (trailingLoop_Steps _ IH) in Hloop. by apply Hloop.
Qed.

Lemma Steps_processNode_fuel f : ∀ t t',
  processNode_fuel f t = Ok t' → Steps t t'.
Proof.
  induction f as [|f IH]; intros t t'; simpl; [done|].
  destruct (children t) as [cs|] eqn:Hcs; [|intros [= <-]; constructor].
  by apply (processLoop_Steps _ IH _ _ _ cs).
Qed.

(** *** The last pass *)

Lemma mergeBagToNode_setChildren item cs bag item' :
  mergeBagToNode item bag = Ok item' →
  mergeBagToNode (setChildren item cs) bag = Ok (setChildren item' cs).
Proof.
  unfold mergeBagToNode. change (bagOf (setChildren item cs)) with (bagOf item).
  assert (Hext : ∀ entries b, mergeEntries b entries (setChildren item cs)
                              = mergeEntries b entries item).
  { induction entries as [|kv entries IHe]; intros b; [done|]. simpl.
    change (mergeBagEntry (setChildren item cs) b kv) with (mergeBagEntry item b kv).
    destruct (mergeBagEntry item b kv); simpl; [apply IHe|done..]. }
  unfold mergeBag. rewrite Hext.
  destruct (mergeEntries _ _ _) as [b'| |]; simpl; [|done..]. by intros [= <-].
Qed.

(** The loop over the grandchildren: [item] is the list item at index
    [i] with the children [seen ++ gs], of which [seen] were visited. *)
Lemma promoteGrandchildren_Steps gs : ∀ list cs i item seen itemZ gs',
  tightList list = true → children list = Some cs → isListItem item = true →
  cs !! i = Some (setChildren item (Some (seen ++ gs)%list)) →
  promoteGrandchildren item gs = Ok (itemZ, gs') →
  Steps list
    (setChildren list
       (Some (<[i := setChildren itemZ (Some (seen ++ gs')%list)]> cs))).
Proof.
  induction gs as [|g gs IH]; intros list cs i item seen itemZ gs' Ht Hcs Hit Hi; simpl.
  - intros [= <- <-]. rewrite list_insert_id by done.
    rewrite setChildren_id by done. constructor.
  - destruct (promotable g) as [bag|] eqn:Hg.
    + intros (item1 & Hm & (r & Hr & [= <- <-])%bind_Ok)%bind_Ok.
      destruct r as [itemZ gsZ]. simpl.
      eapply Steps_step.
      * apply Step_here.
        eapply (Rule_promote list cs i _ (seen ++ g :: gs)%list (length seen) g bag);
          try done.
        -- by rewrite list_lookup_middle.
        -- by apply mergeBagToNode_setChildren.
      * rewrite setChildren_setChildren.
        replace (length seen) with (length seen + 0) by lia.
        rewrite insert_app_r. simpl.
        set (cur := setChildren item1 (Some (seen ++ clearBag g :: gs)%list)).
        specialize (IH (setChildren list (Some (<[i := cur]> cs))) (<[i := cur]> cs)
                      i item1 (seen ++ [clearBag g])%list itemZ gsZ).
        rewrite setChildren_setChildren, list_insert_insert_eq in IH.
        rewrite <- !app_assoc in IH. simpl in IH. apply IH; try done.
        -- apply mergeBagToNode_Ok in Hm as (b' & _ & ->). done.
        -- rewrite list_lookup_insert_eq by (by eapply lookup_lt_Some). done.
    + intros (r & Hr & [= <- <-])%bind_Ok. destruct r as [itemZ gsZ]. simpl.
      specialize (IH list cs i item (seen ++ [g])%list itemZ gsZ).
      rewrite <- !app_assoc in IH. simpl in IH. by apply IH.
Qed.

Lemma promoteChildren_Steps cs : ∀ list pre cs1,
  tightList list = true → children list = Some (pre ++ cs)%list →
  forEach promoteChild cs = Ok cs1 →
  Steps list (setChildren list (Some (pre ++ cs1)%list)).
Proof.
  induction cs as [|c cs IH]; intros list pre cs1 Ht Hcs; simpl.
  - intros [= <-]. rewrite setChildren_id by done. constructor.
  - intros (c1 & Hc & (rest & Hrest & [= <-])%bind_Ok)%bind_Ok.
    assert (Hone : Steps list (setChildren list (Some (pre ++ c1 :: cs)%list))).
    { unfold promoteChild in Hc. destruct (isListItem c) eqn:Hit.
      - destruct (children c) as [gs|] eqn:Hgs; [|done].
        apply bind_Ok in Hc as ([itemZ gs'] & Hg & [= <-]). simpl.
        pose proof (promoteGrandchildren_Steps gs list (pre ++ c :: cs)%list
                      (length pre) c [] itemZ gs' Ht Hcs Hit) as H.
        simpl in H. rewrite setChildren_id in H by done.
        rewrite list_lookup_middle in H by done. specialize (H eq_refl Hg).
        replace (length pre) with (length pre + 0) in H by lia.
        by rewrite insert_app_r in H.
      - injection Hc as <-. rewrite setChildren_id by done. constructor. }
    eapply Steps_trans; [exact Hone|].
    specialize (IH (setChildren list (Some (pre ++ c1 :: cs)%list)) (pre ++ [c1])%list rest).
    rewrite setChildren_setChildren, <- !app_assoc in IH. simpl in IH.
    by apply IH.
Qed.

Lemma Steps_promoteTightListAttributes_fuel f : ∀ t t',
  promoteTightListAttributes_fuel f t = Ok t' → Steps t t'.
Proof.
  induction f as [|f IH]; intros t t'; simpl; [done|].
  destruct (children t) as [cs|] eqn:Hcs; [|intros [= <-]; constructor].
  intros (cs1 & H1 & (cs2 & H2 & [= <-])%bind_Ok)%bind_Ok.
  assert (Hfirst : Steps t (setChildren t (Some cs1))).
  { destruct (isList t && notSpread t) eqn:Ht.
    - by apply (promoteChildren_Steps cs t []).
    - injection H1 as <-. rewrite setChildren_id by done. constructor. }
  eapply Steps_trans; [exact Hfirst|].
  assert (Hin : StepsIn cs1 cs2).
  { apply StepsIn_Forall2. apply forEach_Ok_Forall2 in H2.
    eapply Forall2_impl; [exact H2|]. intros c c' Hc. by apply IH. }
  specialize (Hin (setChildren t (Some cs1)) eq_refl).
  by rewrite setChildren_setChildren in Hin.
Qed.

(** The transform is a sequence of attachments. *)
Lemma Steps_attributesTransform t t' : attributesTransform t = Ok t' → Steps t t'.
Proof.
  intros (t3 & t4 & t5 & H3 & H4 & H5 & H6)%attributesTransform_Ok.
  eapply Steps_trans; [apply Steps_processCodeBlocks|].
  eapply Steps_trans; [apply Steps_processThematicBreaksInParent|].
  eapply Steps_trans; [by eapply Steps_processStandaloneInParent|].
  eapply Steps_trans; [by eapply Steps_processTrailingInParent|].
  eapply Steps_trans; [by eapply Steps_processNode_fuel|].
  by eapply Steps_promoteTightListAttributes_fuel.
Qed.

(** ** No fragment survives, and where each one went *)

(** C1. After the transform a complete walk of the tree meets no
    fragment, and every fragment went the way of one of the attachments:
    when the transform returns, its outcome is reached from the input by
    attachments applied one after the other ([Steps]), each of which
    merges fragments into a bag and removes them, replaces a fragment by
    its text node, or moves a bag in a tight list; and when the root is
    not itself a fragment (the argument is the root of a document) the
    count of [mdastAttributes] nodes of the outcome is zero.  The only
    fragments removed without being merged are those in a subtree that
    an attachment deletes: under a child of a thematic break that is no
    fragment, or under a fragment.  The transform does return on every
    tree that is typed as mdast has it. *)
Theorem attributesTransform_no_survivors t :
  (∀ t', attributesTransform t = Ok t' →
         Steps t t' ∧ (isAttr t = false → countFragments t' = 0))
  ∧ (wellTyped t → ∃ t', attributesTransform t = Ok t').
Proof.
  split.
  - intros t' H. split; [by apply Steps_attributesTransform|].
    intros Hroot. by apply (attributesTransform_settled t t' H).
  - apply attributesTransform_total.
Qed.

Lemma attributesTransform_no_survivors_witness :
  countFragments sample_document = 3
  ∧ countFragments sample_document_done = 0
  ∧ Steps sample_document sample_document_done
  ∧ ∃ t', attributesTransform sample_document = Ok t'.
Proof.
  destruct (proj1 (attributesTransform_no_survivors sample_document)
              sample_document_done eq_refl) as [Hsteps Hcount].
  split; [reflexivity|]. split; [by apply Hcount|]. split; [done|].
  apply (proj2 (attributesTransform_no_survivors sample_document)).
  apply wellTyped_sample_document.
Defined.

(** The claim as it is worded fails on a fragment under a child of a
    thematic break: the break loses its children, the fragment with
    them; the outcome has no bag and no text node, so the fragment was
    neither merged nor replaced by text. *)
Lemma attributesTransform_drops_fragment :
  countFragments sample_break_nested = 1
  ∧ attributesTransform sample_break_nested
    = Ok (parent_of "root" [break_on 1] None)
  ∧ AllNodes (λ n, data n = None ∧ type n ≠ "text")
      (parent_of "root" [break_on 1] None).
Proof.
  split; [reflexivity|]. split; [reflexivity|].
  apply AllNodes_intro; [done|]. simpl. apply Forall_cons. split; [|constructor].
  apply AllNodes_intro; [done|]. constructor.
Qed.

(** ** The class entry of a merge *)

Lemma firstOccurrences_filter (P : string → Prop) `{!∀ x, Decision (P x)} ts :
  firstOccurrences (filter P ts) = filter P (firstOccurrences ts).
Proof.
  induction ts as [|t ts IH]; [done|]. simpl.
  destruct (decide (P t)) as [Ht|Ht].
  - rewrite !filter_cons_True by done. simpl. rewrite IH. f_equal.
    rewrite !list_filter_filter. apply list_filter_iff. intros x. tauto.
  - rewrite !filter_cons_False by done. rewrite IH.
    rewrite list_filter_filter. apply list_filter_iff.
    intros x. split; [|tauto]. intros Hx. split; [done|].
    intros Hxt. apply Ht. by rewrite <- Hxt.
Qed.

(** The loop over the tokens, as a whole: the new tokens follow the
    sequence, each at its first occurrence. *)
Lemma fold_tokens_exact (ts : list string) : ∀ ex,
  fold_left (λ ex cls, if truthy cls then pushNew ex cls else ex) ts ex
  = (ex ++ firstOccurrences
             (filter (λ t, truthy t = true ∧ t ∉ ex) ts))%list.
Proof.
  induction ts as [|t ts IH]; intros ex; simpl; [by rewrite app_nil_r|].
  destruct (truthy t) eqn:Ht.
  - destruct (includes ex t) eqn:Hin.
    + rewrite pushNew_in by done. rewrite IH.
      rewrite filter_cons_False; [done|]. apply includes_true in Hin. tauto.
    + rewrite pushNew_notin by done. rewrite IH.
      apply includes_false in Hin.
      rewrite (filter_cons_True _ t) by done. simpl.
      rewrite <- app_assoc. simpl. do 2 f_equal.
      rewrite <- firstOccurrences_filter, list_filter_filter. f_equal.
      apply list_filter_iff. intros x. rewrite not_elem_of_app.
      rewrite list_elem_of_singleton. tauto.
  - rewrite IH. rewrite filter_cons_False; [done|]. rewrite Ht. by intros [? _].
Qed.

Lemma addTokens_exact ex value :
  addTokens ex value = (ex ++ newTokens ex value)%list.
Proof. apply fold_tokens_exact. Qed.

Lemma lastEntry_None_elem {V} (l : list (string * V)) k v :
  lastEntry l k = None → (k, v) ∉ l.
Proof.
  induction l as [|[k0 v0] l IH]; intros H Hin; [by apply elem_of_nil in Hin|].
  apply lastEntry_cons_None in H as [H Hk].
  apply elem_of_cons in Hin as [[= -> ->]|Hin]; [done|]. by apply IH.
Qed.

Lemma lastEntry_app_None {V} (l1 l2 : list (string * V)) k :
  lastEntry (l1 ++ l2)%list k = None →
  lastEntry l1 k = None ∧ lastEntry l2 k = None.
Proof.
  induction l1 as [|[k0 v0] l1 IH]; [done|]. simpl.
  destruct (lastEntry (l1 ++ l2)%list k) eqn:E; [done|].
  destruct (IH eq_refl) as [-> ->]. by destruct (String.eqb k0 k).
Qed.

(** The entries of a map with distinct keys that come before and after
    its [class] entry write neither [class] nor, when the map has no
    [className] entry, the class sequence. *)
Lemma class_entry_split (source : Attrs) value :
  NoDup (fst <$> source) → ("class", value) ∈ source →
  lastEntry source "className" = None →
  ∃ pre post,
    source = (pre ++ ("class", value) :: post)%list
    ∧ (∀ e, e ∈ pre → writes e ≠ "className")
    ∧ (∀ e, e ∈ post → writes e ≠ "className").
Proof.
  intros Hnd Hin Hno. apply list_elem_of_split in Hin as (pre & post & ->).
  exists pre, post. split; [done|].
  rewrite fmap_app in Hnd. simpl in Hnd.
  apply NoDup_app in Hnd as (_ & Hfresh & Hpost%NoDup_cons).
  destruct Hpost as [Hpost _].
  apply lastEntry_app_None in Hno as [Hpre Hrest].
  apply lastEntry_cons_None in Hrest as [Hrest _].
  assert (Hw : ∀ (l : Attrs) e, e ∈ l → lastEntry l "className" = None →
               (fst e = "class" → False) → writes e ≠ "className").
  { intros l [k v] Hel Hl Hc. unfold writes. simpl in *.
    destruct (String.eqb_spec k "class") as [->|_]; [done|].
    intros ->. by apply (lastEntry_None_elem _ _ v) in Hl. }
  split.
  - intros e He. apply (Hw pre e He Hpre). intros Hc.
    apply (Hfresh (fst e)).
    + apply list_elem_of_fmap. by exists e.
    + rewrite Hc. by left.
  - intros e He. apply (Hw post e He Hrest). intros Hc.
    apply Hpost. rewrite <- Hc. apply list_elem_of_fmap. by exists e.
Qed.

(** What a whole merge leaves as class sequence. *)
Lemma mergeAttributes_class_entry node target (source : Attrs) value :
  NoDup (fst <$> source) → ("class", value) ∈ source →
  lastEntry source "className" = None →
  getProp (mergeAttributes target source node) "className"
  = Some (PArr (addTokens (addLangClass (classNameOf target) node) value)).
Proof.
  intros Hnd Hin Hno.
  destruct (class_entry_split source value Hnd Hin Hno)
    as (pre & post & -> & Hpre & Hpost).
  rewrite mergeAttributes_app.
  change (mergeAttributes ?b (?e :: post) node)
    with (mergeAttributes (mergeEntry node b e) post node).
  rewrite mergeAttributes_getProp_other by done.
  unfold mergeEntry, mergeClass. simpl. rewrite getProp_setProp_className.
  unfold classNameOf. by rewrite mergeAttributes_getProp_other.
Qed.

(** C5, as the code has it.  In a merge of a map with distinct keys that
    has a [class] entry and no [className] entry, the value is split at
    every space character (U+0020; a tab or a line break does not
    separate tokens) and the entry [className] of the bag is then an
    array: the sequence it held before (after it the language token of a
    code node, when new), followed by the non-empty tokens of the value
    that are not in it, each at its first occurrence, in their order.
    Nothing is stored under [class].  Merging ["a b"] and then ["b c"]
    onto the same bag gives [a, b, c]. *)
Theorem mergeAttributes_class node target (source : Attrs) value :
  NoDup (fst <$> source) → ("class", value) ∈ source →
  lastEntry source "className" = None →
  getProp (mergeAttributes target source node) "className"
  = Some (PArr (addLangClass (classNameOf target) node
                ++ newTokens (addLangClass (classNameOf target) node) value)%list)
  ∧ getProp (mergeAttributes target source node) "class" = getProp target "class"
  ∧ mergeAttributes (mergeAttributes [] [("class", "a b")] sample_em)
      [("class", "b c")] sample_em
    = [("className", PArr ["a"; "b"; "c"])].
Proof.
  intros Hnd Hin Hno. split; [|split; [|reflexivity]].
  - rewrite (mergeAttributes_class_entry _ _ _ value) by done.
    by rewrite addTokens_exact.
  - apply mergeAttributes_getProp_other. intros e _.
    unfold writes. destruct (String.eqb_spec (fst e) "class"); done.
Qed.

Lemma mergeAttributes_class_witness :
  getProp (mergeAttributes [("className", PArr ["red"]); ("id", PStr "x")]
             [("title", "t"); ("class", " big  red big small")] sample_em)
    "className"
  = Some (PArr ["red"; "big"; "small"]).
Proof.
  refine (eq_trans
            (proj1 (mergeAttributes_class sample_em
                      [("className", PArr ["red"]); ("id", PStr "x")]
                      [("title", "t"); ("class", " big  red big small")]
                      " big  red big small" _ _ _)) _).
  - apply (bool_decide_unpack _). by vm_compute.
  - apply (bool_decide_unpack _). by vm_compute.
  - reflexivity.
  - vm_compute. reflexivity.
Defined.

(** The claim as it is worded fails in two ways.  On a value that holds
    a tab the specification's whitespace split sees two tokens, the code
    stores one.  And the class entry is not always stored as a token
    sequence: a [className] entry of the same map, after the [class]
    entry, replaces the sequence by its string. *)
Lemma mergeAttributes_class_not_whitespace :
  whitespaceTokens tabbed = ["a"; "b"]
  ∧ classNameOf (mergeAttributes [] [("class", tabbed)] sample_em) = [tabbed]
  ∧ classNameOf (mergeAttributes [] [("class", tabbed)] sample_em)
    ≠ whitespaceTokens tabbed
  ∧ getProp (mergeAttributes [] [("class", "a b"); ("className", "x")] sample_em)
      "className"
    = Some (PStr "x").
Proof. repeat split. intros H. discriminate H. Qed.

(** ** The forward pass at a standalone attribute paragraph *)



Section StandalonePass.
Variable rec : Node → result Node.




End StandalonePass.



(** ** What the last pass writes onto a list item *)

Lemma sideOf_setBag n b : sideOf (setBag n b) = sideOf n.
Proof. done. Qed.






(** ** A code node through the transform *)

(** The class sequence is continued by a merge of a map without
    [className] entry. *)
Lemma classNameOf_mergeAttributes_prefix m : ∀ b node,
  noClassName m →
  classNameOf b `prefix_of` classNameOf (mergeAttributes b m node).
Proof.
  induction m as [|[k v] m IH]; intros b node Hm; [done|].
  etrans; [|apply IH; intros kv Hin; apply Hm; by right].
  unfold mergeEntry. simpl. destruct (String.eqb_spec k "class") as [->|Hc].
  - rewrite classNameOf_mergeClass.
    etrans; [apply prefix_addLangClass|apply prefix_addTokens].
  - rewrite classNameOf_setProp_ne; [done|]. apply (Hm (k, v)). by left.
Qed.

Lemma classNameOf_cons b x l :
  classNameOf b = x :: l → getProp b "className" = Some (PArr (x :: l)).
Proof.
  unfold classNameOf. destruct (getProp b "className") as [[s|l']|]; try done.
  by intros ->.
Qed.

Lemma sameHead_back code n n' : sameHead n n' → sameHead code n' → sameHead code n.
Proof.
  intros (H1 & H2 & H3 & H4 & H5 & H6) (K1 & K2 & K3 & K4 & K5 & K6).
  unfold sameHead. rewrite <- H1, <- H2, <- H3, <- H4, <- H5, <- H6. done.
Qed.

Lemma lineAdjacent_sameHead p p' c c' :
  sameHead p p' → sameHead c c' → lineAdjacent p' c' → lineAdjacent p c.
Proof.
  intros (_ & Hp & _) (_ & Hc & _). unfold lineAdjacent, endLine, startLine,
    endPoint, startPoint. by rewrite Hp, Hc.
Qed.

Section Guarded.
Variable code : Node.
Hypothesis Hcode : isCode code = true.

(** *** The relation *)

Lemma alike_isCode n : sameHead code n → isCode n = true.
Proof using Hcode. intros H. by rewrite (sameHead_isCode _ _ H). Qed.

Lemma alike_type n : sameHead code n → type n = "code".
Proof using Hcode.
  intros H%alike_isCode. unfold isCode in H. by apply String.eqb_eq in H.
Qed.

Lemma grows_refl n : grows code n n.
Proof. split; [apply sideStable_refl|done]. Qed.

Lemma grows_trans n1 n2 n3 :
  sameHead n1 n2 → grows code n1 n2 → grows code n2 n3 → grows code n1 n3.
Proof.
  intros Hh [Hs1 Hc1] [Hs2 Hc2]. split; [by eapply sideStable_trans|].
  intros Hc. etrans; [by apply Hc1|]. apply Hc2.
  by eapply sameHead_trans.
Qed.

Lemma grows_setChildren n cs : grows code n (setChildren n cs).
Proof. split; [apply sideStable_refl|done]. Qed.

Lemma grows_mergeAttributesToNode n a :
  (sameHead code n → noClassName a) → grows code n (mergeAttributesToNode n a).
Proof.
  intros Ha. split; [by right|]. intros Hal.
  rewrite bagOf_mergeAttributesToNode.
  by apply classNameOf_mergeAttributes_prefix, Ha.
Qed.

Lemma grows_not_code n n' :
  isCode n = false → sideStable (data n) (data n') → grows code n n'.
Proof using Hcode.
  intros Hc Hs. split; [done|]. intros Hal%alike_isCode. congruence.
Qed.

Lemma Thrives_sameHead n n' : Thrives code n n' → sameHead n n'.
Proof. by intros []. Qed.

Lemma Thrives_grows n n' : Thrives code n n' → grows code n n'.
Proof. by intros []. Qed.

Lemma Thrives_Kept n : ∀ n', Thrives code n n' → Kept n n'.
Proof.
  induction n as [n IH] using Node_children_ind. intros n' H.
  destruct H as [n n' Hh _ Hc Hc'|n n' cs Hh _ Hc Hc' Hb
                |n n' cs cs' Hh _ Hc Hc' Hth].
  - by apply Kept_leaf.
  - by eapply Kept_flat.
  - eapply Kept_node; [done..|].
    rewrite (kids_children _ _ Hc) in IH. clear Hc Hc' Hh.
    induction Hth as [|c cs cs' Hg H IHt|c c' cs cs' Hkc H IHt
                     |c c0 c' cs cs' Hr Hkc H IHt].
    + apply Thinning_nil.
    + apply Thinning_skip; [done|]. apply IHt. intros x Hx. apply IH. by right.
    + apply Thinning_keep; [apply IH; [by left|done]|].
      apply IHt. intros x Hx. apply IH. by right.
    + eapply Thinning_repl; [done| |apply IHt; intros x Hx; apply IH; by right].
      apply textFor_Some in Hr as [_ ->].
      inversion Hkc; subst; try done. by apply Kept_leaf.
Qed.

Lemma Thrives_refl n : Thrives code n n.
Proof.
  induction n as [n IH] using Node_children_ind.
  destruct (children n) as [cs|] eqn:Hcs.
  - eapply Thrives_node; [apply sameHead_refl|apply grows_refl|done..|].
    rewrite (kids_children _ _ Hcs) in IH. clear Hcs.
    induction cs as [|c cs IHcs]; [apply Thinning_nil|apply Thinning_keep].
    + apply IH. by left.
    + apply IHcs. intros c' Hc'. apply IH. by right.
  - by apply Thrives_leaf; [apply sameHead_refl|apply grows_refl|..].
Qed.

Lemma Thrives_trans n1 : ∀ n2 n3,
  Thrives code n1 n2 → Thrives code n2 n3 → Thrives code n1 n3.
Proof.
  induction n1 as [n1 IH] using Node_children_ind. intros n2 n3 H12 H23.
  assert (Hh : sameHead n1 n3).
  { eapply sameHead_trans; by eapply Thrives_sameHead. }
  assert (Hg : grows code n1 n3).
  { eapply grows_trans; [by eapply Thrives_sameHead|by eapply Thrives_grows..]. }
  destruct H12 as [n1 n2 Hh12 _ Hc1 Hc2|n1 n2 cs Hh12 _ Hc1 Hc2 Hb
                  |n1 n2 cs cs' Hh12 _ Hc1 Hc2 Hth].
  - inversion H23; subst; try congruence. by apply Thrives_leaf.
  - inversion H23; subst; try congruence. by eapply Thrives_flat.
  - inversion H23 as [? ? ? ? Hc2' Hc3|? ? cs2 ? ? Hc2' Hc3 Hb
                     |? ? cs2 cs3 ? ? Hc2' Hc3 Hth']; subst.
    + congruence.
    + eapply Thrives_flat; [done..|].
      by rewrite <- (sameHead_isBreak _ _ Hh12).
    + rewrite Hc2 in Hc2'. injection Hc2' as <-.
      eapply Thrives_node; [done..|].
      eapply Thinning_trans; [| | | | |done|done].
      * intros a b c [Ha|[x Hx]] Hab Hbc.
        -- eapply IH; [|done..]. by rewrite (kids_children _ _ Hc1).
        -- apply textFor_Some in Hx as [_ ->].
           assert (Hac : sameHead (textOf x) c).
           { eapply sameHead_trans; by eapply Thrives_sameHead. }
           assert (Hgc : grows code (textOf x) c).
           { eapply grows_trans;
               [by eapply Thrives_sameHead|by eapply Thrives_grows..]. }
           inversion Hab; subst; try done.
           inversion Hbc; subst; try congruence. by apply Thrives_leaf.
      * intros a b Hab. apply sameHead_textFor. by eapply Thrives_sameHead.
      * intros a a0 b Ha Hab. eapply textFor_text; [done|].
        by eapply Thrives_sameHead.
      * intros a b Hab. apply attrOnly_Kept. by apply Thrives_Kept.
      * intros a a0 [Ha _]%textFor_Some. by apply attrOnly_fragment.
Qed.

Lemma ThrivesList_refl cs : ThrivesList code cs cs.
Proof. apply Thinning_refl, Thrives_refl. Qed.

Lemma ThrivesList_trans cs1 cs2 cs3 :
  ThrivesList code cs1 cs2 → ThrivesList code cs2 cs3 → ThrivesList code cs1 cs3.
Proof.
  apply Thinning_trans.
  - intros a b c _. apply Thrives_trans.
  - intros a b Hab. apply sameHead_textFor. by eapply Thrives_sameHead.
  - intros a a0 b Ha Hab. eapply textFor_text; [done|].
    by eapply Thrives_sameHead.
  - intros a b Hab. apply attrOnly_Kept. by apply Thrives_Kept.
  - intros a a0 [Ha _]%textFor_Some. by apply attrOnly_fragment.
Qed.

(** A change of the data alone, and of the children alone. *)
Lemma Thrives_head n n' :
  sameHead n n' → grows code n n' → children n' = children n → Thrives code n n'.
Proof.
  intros Hh Hg Hc. destruct (children n) as [cs|] eqn:Hcs.
  - eapply Thrives_node; [done..|]. apply ThrivesList_refl.
  - by apply Thrives_leaf.
Qed.

Lemma Thrives_children n cs cs' :
  children n = Some cs → ThrivesList code cs cs' →
  Thrives code n (setChildren n (Some cs')).
Proof.
  intros Hc Hd.
  eapply Thrives_node; [apply sameHead_setChildren|apply grows_setChildren|done..].
Qed.

Lemma Thrives_mergeAttributesToNode n a :
  (sameHead code n → noClassName a) → Thrives code n (mergeAttributesToNode n a).
Proof.
  intros Ha. apply Thrives_head; [apply sameHead_setData| |done].
  by apply grows_mergeAttributesToNode.
Qed.

(** The merge of a neighbour and the removal of attribute syntax. *)
Lemma ThrivesList_splice cs i j c target a :
  cs !! i = Some c → attrOnly c = true → cs !! j = Some target → i ≠ j →
  (sameHead code target → noClassName a) →
  ThrivesList code cs (delete i (<[j := mergeAttributesToNode target a]> cs)).
Proof.
  intros Hi Hc Hj Hne Ha. eapply ThrivesList_trans.
  - eapply Thinning_insert; [apply Thrives_refl|done|].
    by apply Thrives_mergeAttributesToNode.
  - eapply Thinning_delete; [apply Thrives_refl| |done].
    by rewrite list_lookup_insert_ne.
Qed.

(** *** Where the elements of a thinned list come from *)

Lemma cameFrom_kept x x' : type x' ≠ "text" → cameFrom code x x' → Thrives code x x'.
Proof.
  intros Ht [H|[_ H]]; [done|]. apply Thrives_sameHead in H as [Hty _]. done.
Qed.

Lemma cameFrom_fragment x x' :
  cameFrom code x x' → isAttr x' = true →
  isAttr x = true ∧ attributes x' = attributes x.
Proof.
  intros H Ha. apply cameFrom_kept in H.
  - apply Thrives_sameHead in H. rewrite <- (sameHead_isAttr _ _ H).
    by destruct H as (_ & _ & _ & _ & _ & ->).
  - unfold isAttr in Ha. apply String.eqb_eq in Ha. by rewrite Ha.
Qed.

Lemma ThrivesList_origin cs cs' j x' :
  ThrivesList code cs cs' → cs' !! j = Some x' →
  ∃ i x, cs !! i = Some x ∧ cameFrom code x x'.
Proof.
  intros H. revert j.
  induction H as [|c0 cs cs' Hg Ht IH|c0 c0' cs cs' Hc Ht IH
                 |c0 c1 c0' cs cs' Hr Hc Ht IH]; intros j Hj.
  - done.
  - destruct (IH j Hj) as (i & x & ? & ?). by exists (S i), x.
  - destruct j as [|j]; simpl in Hj.
    + injection Hj as <-. exists 0, c0. split; [done|by left].
    + destruct (IH j Hj) as (i & x & ? & ?). by exists (S i), x.
  - destruct j as [|j]; simpl in Hj.
    + injection Hj as <-. exists 0, c0. split; [done|].
      apply textFor_Some in Hr as [Ha ->]. by right.
    + destruct (IH j Hj) as (i & x & ? & ?). by exists (S i), x.
Qed.

Lemma ThrivesList_origins cs cs' i' j' x' y' :
  ThrivesList code cs cs' → i' < j' →
  cs' !! i' = Some x' → cs' !! j' = Some y' →
  ∃ i j x y, i < j ∧ cs !! i = Some x ∧ cs !! j = Some y
             ∧ cameFrom code x x' ∧ cameFrom code y y'.
Proof.
  intros H. revert i' j'.
  induction H as [|c0 cs cs' Hg Ht IH|c0 c0' cs cs' Hc Ht IH
                 |c0 c1 c0' cs cs' Hr Hc Ht IH]; intros i' j' Hlt Hi Hj.
  - done.
  - destruct (IH i' j' Hlt Hi Hj) as (i & j & x & y & ? & ? & ? & ? & ?).
    exists (S i), (S j), x, y. repeat split; try done. lia.
  - destruct j' as [|j']; [lia|]. simpl in Hj. destruct i' as [|i']; simpl in Hi.
    + injection Hi as <-.
      destruct (ThrivesList_origin _ _ _ _ Ht Hj) as (j & y & ? & ?).
      exists 0, (S j), c0, y. repeat split; try done; [lia|by left].
    + destruct (IH i' j') as (i & j & x & y & ? & ? & ? & ? & ?); [lia|done..|].
      exists (S i), (S j), x, y. repeat split; try done. lia.
  - destruct j' as [|j']; [lia|]. simpl in Hj. destruct i' as [|i']; simpl in Hi.
    + injection Hi as <-.
      destruct (ThrivesList_origin _ _ _ _ Ht Hj) as (j & y & ? & ?).
      exists 0, (S j), c0, y. repeat split; try done; [lia|].
      apply textFor_Some in Hr as [Ha ->]. by right.
    + destruct (IH i' j') as (i & j & x & y & ? & ? & ? & ? & ?); [lia|done..|].
      exists (S i), (S j), x, y. repeat split; try done. lia.
Qed.

Lemma Thrives_kids_origin n n' f' :
  Thrives code n n' → f' ∈ kids n' → ∃ f, f ∈ kids n ∧ cameFrom code f f'.
Proof.
  intros H Hin.
  destruct H as [n n' _ _ _ Hc'|n n' cs _ _ _ Hc' _|n n' cs cs' _ _ Hc Hc' Hth].
  - rewrite (kids_leaf _ Hc') in Hin. by apply elem_of_nil in Hin.
  - rewrite (kids_leaf _ Hc') in Hin. by apply elem_of_nil in Hin.
  - rewrite (kids_children _ _ Hc') in Hin. rewrite (kids_children _ _ Hc).
    apply list_elem_of_lookup in Hin as [j Hj].
    destruct (ThrivesList_origin _ _ _ _ Hth Hj) as (i & f & Hi & Hf).
    exists f. split; [by eapply list_elem_of_lookup_2|done].
Qed.

Lemma Thrives_fragments n n' :
  Thrives code n n' →
  (∀ f, f ∈ kids n → isAttr f = true → noClassName (attributes f)) →
  ∀ f', f' ∈ kids n' → isAttr f' = true → noClassName (attributes f').
Proof.
  intros H Hn f' Hin Ha.
  destruct (Thrives_kids_origin _ _ _ H Hin) as (f & Hf & Hfrom).
  destruct (cameFrom_fragment _ _ Hfrom Ha) as [Ha' ->]. by apply Hn.
Qed.

(** *** The guard is kept *)

Lemma guarded_Thrives_node n n' :
  Thrives code n n' → guarded code n → guarded code n'.
Proof using Hcode.
  intros HT [Hown Hline]. pose proof (Thrives_sameHead _ _ HT) as Hh. split.
  - intros Hal. destruct (Hown (sameHead_back _ _ _ Hh Hal)) as [Hside Hfrag].
    split.
    + intros m Hm. apply Hside. apply Thrives_grows in HT as [Hs _].
      unfold sideOf in *. destruct Hs as [Hs|Hs]; congruence.
    + by eapply Thrives_fragments.
  - intros i' j' p' c' Hlt Hi Hj Hal Hp Hadj.
    destruct HT as [n n' _ _ _ Hc'|n n' cs _ _ _ Hc' _|n n' cs cs' _ _ Hc Hc' Hth].
    + by rewrite (kids_leaf _ Hc') in Hi.
    + by rewrite (kids_leaf _ Hc') in Hi.
    + rewrite (kids_children _ _ Hc') in Hi, Hj.
      destruct (ThrivesList_origins _ _ _ _ _ _ Hth Hlt Hi Hj)
        as (i & j & p & c & Hij & Hpi & Hcj & Hpp & Hcc).
      apply cameFrom_kept in Hcc; [|by rewrite (alike_type _ Hal)].
      apply cameFrom_kept in Hpp.
      2:{ unfold isParagraph in Hp. apply String.eqb_eq in Hp. by rewrite Hp. }
      pose proof (Thrives_sameHead _ _ Hpp) as Hhp.
      pose proof (Thrives_sameHead _ _ Hcc) as Hhc.
      eapply Thrives_fragments; [done|].
      eapply (Hline i j p c); rewrite ?(kids_children _ _ Hc); try done.
      * by eapply sameHead_back.
      * by rewrite <- (sameHead_isParagraph _ _ Hhp).
      * by eapply lineAdjacent_sameHead.
Qed.

Lemma guarded_Thrives n : ∀ n',
  Thrives code n n' → AllNodes (guarded code) n → AllNodes (guarded code) n'.
Proof using Hcode.
  induction n as [n IH] using Node_children_ind. intros n' HT H.
  pose proof (AllNodes_node _ _ H) as HP. pose proof (AllNodes_kids _ _ H) as Hk.
  clear H. constructor; [by eapply guarded_Thrives_node|].
  destruct HT as [n n' Hh _ Hc Hc'|n n' cs Hh _ Hc Hc' Hb
                 |n n' cs cs' Hh _ Hc Hc' Hth].
  - rewrite (kids_leaf _ Hc'). constructor.
  - rewrite (kids_leaf _ Hc'). constructor.
  - rewrite (kids_children _ _ Hc) in *. rewrite (kids_children _ _ Hc').
    clear Hc Hc' Hh HP.
    induction Hth as [|c cs cs' Hg H IHt|c c' cs cs' Hkc H IHt
                     |c c0 c' cs cs' Hr Hkc H IHt].
    + constructor.
    + apply Forall_cons in Hk as [_ Hk]. apply IHt; [|done].
      intros x Hx. apply IH. by right.
    + apply Forall_cons in Hk as [Hc Hk]. constructor.
      * eapply IH; [by left|done..].
      * apply IHt; [|done]. intros x Hx. apply IH. by right.
    + apply Forall_cons in Hk as [Hc Hk]. constructor.
      * apply textFor_Some in Hr as [_ ->].
        inversion Hkc as [? ? Hh Hg ? Hl| |]; subst; try done.
        apply AllNodes_leaf; [|done]. split.
        -- intros Hal%alike_type. destruct Hh as [Hty _].
           rewrite Hal in Hty. done.
        -- intros i j p c1 _ Hi. by rewrite (kids_leaf _ Hl) in Hi.
      * apply IHt; [|done]. intros x Hx. apply IH. by right.
Qed.

(** *** Every attachment, where the maps are guarded *)

Lemma AllNodes_lookup (P : Node → Prop) n cs i c :
  AllNodes P n → children n = Some cs → cs !! i = Some c → AllNodes P c.
Proof.
  intros H Hc Hi. apply AllNodes_kids in H. rewrite (kids_children _ _ Hc) in H.
  by eapply Forall_lookup_1.
Qed.

Lemma Rule_Thrives n n' : guarded code n → Rule n n' → Thrives code n n'.
Proof using Hcode.
  intros [Hown Hline] HR.
  assert (Hnc : ∀ x, isListItem x = true ∨ isParagraph x = true
                     ∨ isBreak x = true ∨ INLINE_TYPES (type x) = true →
                     isCode x = false).
  { intros x. unfold isListItem, isParagraph, isBreak, isCode, INLINE_TYPES.
    intros [H|[H|[H|H]]].
    - apply String.eqb_eq in H. by rewrite H.
    - apply String.eqb_eq in H. by rewrite H.
    - apply String.eqb_eq in H. by rewrite H.
    - apply bool_decide_eq_true in H.
      repeat (apply elem_of_cons in H as [->|H]; [done|]).
      by apply elem_of_nil in H. }
  assert (Hnot : ∀ x a, isCode x = false → sameHead code x → noClassName a).
  { intros x a Hx Hal%alike_isCode. congruence. }
  destruct HR as [c m Hc Hm|hr Hb
                 |parent cs i child a next Hcs Hi Hsa Hn Hadj
                 |parent cs i child a prev Hcs Hpos Hi Hp Hb Hsa Hadj
                 |parent cs index a prev Hcs Hi Ha Hgap
                 |parent cs index a Hcs Hi Ha Hlast
                 |parent cs index a Hcs Hi Ha
                 |list cs i item gs j g bag item' Ht Hcs Hi Hit Hgs Hj Hg Hm].
  - (* the side-channel map *)
    unfold relocate. rewrite Hm.
    apply Thrives_head; [apply sameHead_setData| |done].
    split; [by left|]. intros Hal.
    apply classNameOf_mergeAttributes_prefix.
    destruct (Hown Hal) as [Hside _]. by apply Hside.
  - (* a thematic break *)
    pose proof (Succ_flattenBreak hr Hb) as Hs.
    unfold breakWithChildren in Hb. apply andb_true_iff in Hb as [Hb Hc].
    destruct (children hr) as [cs|] eqn:Hcs; [|done].
    eapply Thrives_flat; [by eapply Evolves_sameHead| |done| |done].
    + apply grows_not_code; [apply Hnc; auto|].
      by apply Evolves_data in Hs as [? _].
    + apply children_flattenBreak.
  - (* an attribute line above its target *)
    eapply Thrives_children; [done|].
    eapply ThrivesList_splice; [done|by eapply attrOnly_standalone|done|lia|].
    intros Hal. apply getStandalone_Some in Hsa as (Hpar & Hk & Ha).
    apply (Hline i (S i) child next); rewrite ?(kids_children _ _ Hcs);
      try done; [lia|].
    unfold kids. rewrite Hk. by left.
  - (* an attribute line below a thematic break *)
    eapply Thrives_children; [done|].
    eapply ThrivesList_splice; [done|by eapply attrOnly_standalone|done|lia|].
    apply Hnot, Hnc. auto.
  - (* a fragment after an inline sibling *)
    destruct Hgap as (Hpos & Hprev & Hinl & _). unfold attachToPrevious.
    rewrite (kids_children _ _ Hcs) in *.
    eapply Thrives_children; [done|].
    eapply ThrivesList_splice; [done|by apply attrOnly_fragment|done|lia|].
    apply Hnot, Hnc. auto.
  - (* a fragment at the end of its parent *)
    unfold attachToParent. rewrite (kids_children _ _ Hcs).
    eapply Thrives_trans.
    + apply Thrives_mergeAttributesToNode. intros Hal.
      destruct (Hown Hal) as [_ Hfrag]. apply Hfrag; [|done].
      rewrite (kids_children _ _ Hcs). by eapply list_elem_of_lookup_2.
    + eapply Thrives_children; [done|].
      eapply Thinning_delete; [apply Thrives_refl|done|by apply attrOnly_fragment].
  - (* a fragment that becomes text *)
    unfold replaceByText. rewrite (kids_children _ _ Hcs).
    eapply Thrives_children; [done|].
    eapply Thinning_insert_repl; [apply Thrives_refl|done|].
    unfold textFor. by rewrite Ha.
  - (* a bag moved to its list item *)
    eapply Thrives_children; [done|].
    eapply Thinning_insert; [apply Thrives_refl|done|].
    apply mergeBagToNode_Ok in Hm as (b' & _ & ->).
    eapply Thrives_trans.
    + apply (Thrives_head item (setBag item b')); [apply sameHead_setData| |done].
      apply grows_not_code; [apply Hnc; auto|by right].
    + eapply Thrives_children; [done|].
      eapply Thinning_insert; [apply Thrives_refl|done|].
      apply Thrives_head; [apply sameHead_clearBag| |apply children_clearBag].
      apply grows_not_code.
      * apply Hnc. right. left. by apply promotable_Some in Hg as [? _].
      * right. apply sideOf_clearBag.
Qed.

Lemma Step_Thrives n n' :
  Step n n' → AllNodes (guarded code) n → Thrives code n n'.
Proof using Hcode.
  induction 1 as [n n' HR|n cs i c c' Hcs Hi Hstep IH]; intros Hg.
  - apply Rule_Thrives; [|done]. by apply AllNodes_node in Hg.
  - eapply Thrives_children; [done|].
    eapply Thinning_insert; [apply Thrives_refl|done|].
    apply IH. by eapply AllNodes_lookup.
Qed.

Lemma Steps_Thrives n n' :
  Steps n n' → AllNodes (guarded code) n → Thrives code n n'.
Proof using Hcode.
  induction 1 as [n|n1 n2 n3 Hstep _ IH]; intros Hg; [apply Thrives_refl|].
  pose proof (Step_Thrives _ _ Hstep Hg) as H12.
  eapply Thrives_trans; [done|]. apply IH. by eapply guarded_Thrives.
Qed.

(** *** The node at a path *)

Lemma ThrivesList_lookup cs cs' i c :
  ThrivesList code cs cs' → cs !! i = Some c → attrOnly c = false →
  ∃ j c', cs' !! j = Some c' ∧ Thrives code c c'.
Proof.
  intros H. revert i.
  induction H as [|c0 cs cs' Hg Ht IH|c0 c0' cs cs' Hc Ht IH
                 |c0 c1 c0' cs cs' Hr Hc Ht IH]; intros i Hi Hno.
  - done.
  - destruct i as [|i]; simpl in Hi; [simplify_eq; congruence|]. by eapply IH.
  - destruct i as [|i]; simpl in Hi.
    + injection Hi as ->. by exists 0, c0'.
    + destruct (IH i Hi Hno) as (j & c' & ? & ?). by exists (S j), c'.
  - destruct i as [|i]; simpl in Hi.
    + injection Hi as ->. apply textFor_Some in Hr as [Ha _].
      rewrite (attrOnly_fragment _ Ha) in Hno. done.
    + destruct (IH i Hi Hno) as (j & c' & ? & ?). by exists (S j), c'.
Qed.

Lemma attrOnly_path q : ∀ n c,
  nodeAt q n = Some c → plainPath n q → attrOnly n = true → attrOnly c = true.
Proof.
  induction q as [|j q IH]; intros n c; simpl.
  - by intros [= <-].
  - destruct (kids n !! j) as [k|] eqn:Hj; [|done].
    intros Hc (_ & _ & Ha & Hp) Hn. eapply IH; [done..|].
    rewrite attrOnly_unfold, Ha in Hn. simpl in Hn.
    apply andb_true_iff in Hn as [_ Hn]. unfold kids in Hj.
    destruct (children n) as [cs|]; [|done].
    apply attrOnly_all in Hn. by eapply Forall_lookup_1 in Hn.
Qed.

(** A node that is no attribute syntax, under nodes that the passes
    keep, has its successor in the outcome. *)
Lemma Thrives_path p : ∀ t t' c,
  Thrives code t t' → nodeAt p t = Some c → plainPath t p →
  attrOnly c = false →
  ∃ p' c', nodeAt p' t' = Some c' ∧ Thrives code c c'.
Proof.
  induction p as [|i q IH]; intros t t' c HT; simpl.
  - intros [= <-] _ _. by exists [], t'.
  - destruct (kids t !! i) as [k|] eqn:Hi; [|done].
    intros Hc (_ & Hb & _ & Hp) Hno.
    destruct HT as [n n' _ _ Hcn _|n n' cs _ _ _ _ Hb'|n n' cs cs' _ _ Hcn Hcn' Hth].
    + by rewrite (kids_leaf _ Hcn) in Hi.
    + congruence.
    + rewrite (kids_children _ _ Hcn) in Hi.
      destruct (ThrivesList_lookup _ _ _ _ Hth Hi) as (j & k' & Hj & Hk).
      { destruct (attrOnly k) eqn:E; [|done].
        by rewrite (attrOnly_path _ _ _ Hc Hp E) in Hno. }
      destruct (IH _ _ _ Hk Hc Hp Hno) as (p' & c' & Hp' & Hc').
      exists (j :: p'), c'. simpl. by rewrite (kids_children _ _ Hcn'), Hj.
Qed.
End Guarded.

(** The code-block pass at a path. *)
Lemma processCodeBlocks_path p : ∀ t c,
  nodeAt p t = Some c → plainPath t p →
  nodeAt p (processCodeBlocks t) = Some (processCodeBlocks c)
  ∧ plainPath (processCodeBlocks t) p.
Proof.
  induction p as [|i q IH]; intros t c; simpl.
  - by intros [= <-].
  - destruct (kids t !! i) as [k|] eqn:Hi; [|done].
    intros Hc (Hcode & Hb & Ha & Hp).
    destruct (IH _ _ Hc Hp) as [Hn Hq].
    rewrite processCodeBlocks_unfold, Hcode. unfold kids in Hi.
    destruct (children t) as [cs|] eqn:Hcs; [|done].
    rewrite kids_setChildren, list_lookup_fmap, Hi. simpl.
    split; [done|]. by destruct t.
Qed.

(** ** A code node with a class in its side-channel map *)

Lemma attrOnly_code n : isCode n = true → attrOnly n = false.
Proof.
  intros H. rewrite attrOnly_unfold. unfold isAttr, isParagraph.
  unfold isCode in H. apply String.eqb_eq in H. by rewrite H.
Qed.

Lemma AllNodes_nodeAt (P : Node → Prop) p : ∀ t c,
  AllNodes P t → nodeAt p t = Some c → AllNodes P c.
Proof.
  induction p as [|i q IH]; intros t c H; simpl; [by intros [= <-]|].
  destruct (kids t !! i) as [k|] eqn:Hi; [|done]. apply IH.
  apply AllNodes_kids in H. by eapply Forall_lookup_1.
Qed.

(** The five passes after the code-block pass, as attachments. *)
Lemma Steps_after_code t t' :
  attributesTransform t = Ok t' → Steps (processCodeBlocks t) t'.
Proof.
  intros (t3 & t4 & t5 & H3 & H4 & H5 & H6)%attributesTransform_Ok.
  eapply Steps_trans; [apply Steps_processThematicBreaksInParent|].
  eapply Steps_trans; [by eapply Steps_processStandaloneInParent|].
  eapply Steps_trans; [by eapply Steps_processTrailingInParent|].
  eapply Steps_trans; [by eapply Steps_processNode_fuel|].
  by eapply Steps_promoteTightListAttributes_fuel.
Qed.

(** A code node through the whole transform: it is still there, and its
    class sequence after the code-block pass is the beginning of the one
    it ends with. *)
Lemma attributesTransform_code_node t t' p code :
  isCode code = true → nodeAt p t = Some code → plainPath t p →
  AllNodes (guarded code) t → attributesTransform t = Ok t' →
  ∃ p' code',
    nodeAt p' t' = Some code' ∧ sameHead code code'
    ∧ (sideOf code' = None ∨ sideOf code' = sideOf (processCodeBlocks code))
    ∧ classNameOf (bagOf (processCodeBlocks code))
        `prefix_of` classNameOf (bagOf code').
Proof.
  intros Hcode Hp Hplain Hfree Hrun.
  assert (Hfree1 : AllNodes (guarded code) (processCodeBlocks t)).
  { eapply (guarded_Thrives code Hcode); [|done].
    apply Steps_Thrives; [done|apply Steps_processCodeBlocks|done]. }
  pose proof (Steps_Thrives code Hcode _ _ (Steps_after_code _ _ Hrun) Hfree1)
    as HT.
  destruct (processCodeBlocks_path _ _ _ Hp Hplain) as [Hp1 Hplain1].
  assert (Hh1 : sameHead code (processCodeBlocks code)).
  { rewrite processCodeBlocks_unfold, Hcode. unfold relocate.
    destruct (sideOf code); [apply sameHead_setData|apply sameHead_refl]. }
  assert (Hcode1 : isCode (processCodeBlocks code) = true).
  { by rewrite (sameHead_isCode _ _ Hh1). }
  destruct (Thrives_path code _ _ _ _ HT Hp1 Hplain1 (attrOnly_code _ Hcode1))
    as (p' & code' & Hp' & Hc').
  exists p', code'. split; [done|].
  split; [eapply sameHead_trans; [done|by eapply Thrives_sameHead]|].
  apply Thrives_grows in Hc' as [Hs Hpre]. split; [done|by apply Hpre].
Qed.

(** C6, as the code has it.  For a code node with a language identifier
    and a side-channel map, the code-block pass deletes the side-channel
    field and merges the map onto the bag of the node; a [class] entry
    is merged by keeping the class sequence that the bag holds, adding
    [language-<id>] after it unless it is there, and then the user
    tokens.  So when the map holds a [class] entry and no [className]
    entry and the bag has no class sequence yet, the class sequence
    after the pass begins with [language-<id>] and holds every non-empty
    token of the class value.  And so it is after the whole transform,
    for the node at any place of a tree in which no node above it is a
    code node, a thematic break or a fragment, and no map that can be
    merged into it has a [className] entry ([guarded]: its side-channel
    map, a fragment it holds, the fragment of an attribute line above
    it): the node is in the outcome, without side-channel field, and its
    class sequence begins with the sequence it had after the code-block
    pass (the tokens of an attribute line merged into it come after). *)
Theorem processCodeBlocks_language_first code id m :
  isCode code = true → lang code = Some id → truthy id = true →
  sideOf code = Some m →
  sideOf (processCodeBlocks code) = None
  ∧ bagOf (processCodeBlocks code) = mergeAttributes (bagOf code) m code
  ∧ (∀ target v,
       getProp (mergeEntry code target ("class", v)) "className"
       = Some (PArr (addTokens
                       (pushNew (classNameOf target) ("language-" ++ id)) v)))
  ∧ (∀ v, ("class", v) ∈ m → noClassName m → classNameOf (bagOf code) = [] →
          langFirst ("language-" ++ id) (bagOf (processCodeBlocks code))
          ∧ (∀ tok, tok ∈ split " " v → truthy tok = true →
                    tok ∈ classNameOf (bagOf (processCodeBlocks code)))
          ∧ ∀ t t' p,
              nodeAt p t = Some code → plainPath t p →
              AllNodes (guarded code) t → attributesTransform t = Ok t' →
              ∃ p' code',
                nodeAt p' t' = Some code' ∧ sameHead code code'
                ∧ sideOf code' = None
                ∧ classNameOf (bagOf (processCodeBlocks code))
                    `prefix_of` classNameOf (bagOf code')
                ∧ langFirst ("language-" ++ id) (bagOf code')
                ∧ (∀ tok, tok ∈ split " " v → truthy tok = true →
                          tok ∈ classNameOf (bagOf code'))).
Proof.
  intros Hcode Hlang Hid Hside.
  assert (Hrun : processCodeBlocks code
                 = setData code (Some (mkData (Some (mergeAttributes (bagOf code) m code)) None))).
  { destruct code; simpl in *. rewrite Hcode. unfold relocate. simpl.
    by rewrite Hside. }
  split; [by rewrite Hrun|]. split; [by rewrite Hrun|]. split.
  - intros target v. unfold mergeEntry, mergeClass. simpl.
    by rewrite getProp_setProp_className, (addLangClass_code code id).
  - intros v Hin Hk Hb.
    assert (Hpass : langFirst ("language-" ++ id) (bagOf (processCodeBlocks code))
                    ∧ (∀ tok, tok ∈ split " " v → truthy tok = true →
                              tok ∈ classNameOf (bagOf (processCodeBlocks code)))).
    { rewrite Hrun.
      by destruct (mergeAttributes_code_class code id Hcode Hlang Hid m v (bagOf code)). }
    destruct Hpass as [Hfirst Htok]. split; [done|]. split; [done|].
    intros t t' p Hp Hplain Hfree Hall.
    destruct (attributesTransform_code_node t t' p code Hcode Hp Hplain Hfree Hall)
      as (p' & code' & Hp' & Hh & Hs & Hpre).
    exists p', code'. split; [done|]. split; [done|]. split.
    { destruct Hs as [Hs|Hs]; [done|]. by rewrite Hs, Hrun. }
    split; [done|].
    destruct (langFirst_classNameOf id _ Hfirst) as [rest Hrest].
    destruct Hpre as [k Hk']. rewrite Hrest in Hk'. split.
    + exists (rest ++ k)%list. by apply classNameOf_cons.
    + intros tok Ht Htr. rewrite Hk', <- Hrest. apply elem_of_app. left.
      by apply Htok.
Qed.

Lemma processCodeBlocks_language_first_witness :
  attributesTransform sample_code_document = Ok sample_code_document_done
  ∧ ∃ p' code', nodeAt p' sample_code_document_done = Some code'
      ∧ sideOf code' = None
      ∧ langFirst "language-js" (bagOf code')
      ∧ "highlight" ∈ classNameOf (bagOf code').
Proof.
  split; [reflexivity|].
  pose proof (processCodeBlocks_language_first sample_code_below "js"
                [("class", "highlight")] eq_refl eq_refl eq_refl eq_refl)
    as (_ & _ & _ & Hclass).
  destruct (Hclass "highlight") as (_ & _ & Hwhole).
  { by left. }
  { intros kv ->%list_elem_of_singleton. done. }
  { done. }
  destruct (Hwhole sample_code_document sample_code_document_done [0; 2])
    as (p' & code' & Hp' & _ & Hs & _ & Hfirst & Htok).
  { reflexivity. }
  { by repeat split. }
  { assert (Hother : ∀ n, type n ≠ "code" → ¬ sameHead sample_code_below n).
    { intros n Hn [Ht _]. by apply Hn. }
    assert (Hleaf : ∀ n, type n ≠ "code" → children n = None →
                         AllNodes (guarded sample_code_below) n).
    { intros n Hn Hc. apply AllNodes_leaf; [|done]. split.
      - intros Hal. by apply Hother in Hal.
      - intros i j p c _ Hi. by rewrite (kids_leaf _ Hc) in Hi. }
    assert (Hnode : ∀ n, type n ≠ "code" →
                         (∀ c, c ∈ kids n → type c ≠ "code") →
                         Forall (AllNodes (guarded sample_code_below)) (kids n) →
                         AllNodes (guarded sample_code_below) n).
    { intros n Hn Hkids Hk. constructor; [|done]. split.
      - intros Hal. by apply Hother in Hal.
      - intros i j p c _ _ Hj Hal. exfalso. apply (Hother c); [|done].
        apply Hkids. by eapply list_elem_of_lookup_2. }
    assert (Hall : ∀ (l : list Node) (P : Node → Prop),
              Forall P l → ∀ c, c ∈ l → P c).
    { intros l P H c Hin. by eapply Forall_forall in H. }
    apply Hnode; [done| |].
    { apply (Hall _ (λ c, type c ≠ "code")). by repeat constructor. }
    simpl. apply Forall_cons. split; [|constructor].
    constructor.
    - (* the block quote: the attribute line above the code block *)
      split; [intros Hal; by apply Hother in Hal|].
      intros i j p c Hij Hi Hj Hal Hp Hadj f Hf Ha.
      destruct j as [|[|[|j]]]; simpl in Hj; try done;
        try (injection Hj as <-; by apply Hother in Hal).
      destruct i as [|[|i]]; simpl in Hi; [| |lia].
      + by injection Hi as <-.
      + injection Hi as <-. simpl in Hf.
        apply list_elem_of_singleton in Hf as ->.
        by intros kv ->%list_elem_of_singleton.
    - simpl.
      apply Forall_cons. split; [|apply Forall_cons; split;
                                   [|apply Forall_cons; split; [|constructor]]].
      + apply Hnode; [done| |].
        { apply (Hall _ (λ c, type c ≠ "code")). by repeat constructor. }
        simpl. apply Forall_cons. split; [by apply Hleaf|].
        apply Forall_cons. split; [by apply Hleaf|constructor].
      + apply Hnode; [done| |].
        { apply (Hall _ (λ c, type c ≠ "code")). by repeat constructor. }
        simpl. apply Forall_cons. split; [by apply Hleaf|constructor].
      + apply AllNodes_leaf; [|done]. split.
        * intros _. split.
          -- intros m' [= <-]. by intros kv ->%list_elem_of_singleton.
          -- by intros f ?%elem_of_nil.
        * by intros i j p c _ Hi. }
  { reflexivity. }
  exists p', code'. split; [done|]. split; [done|]. split; [done|].
  apply Htok; [|done]. by left.
Defined.

(** The claim as it is worded fails on a code node that already has a
    class sequence: the language token is put after the tokens that were
    there.  It fails when the side-channel map holds a [className]
    entry after its [class] entry, and when an attribute line with a
    [className] entry stands directly above the code block: the string
    overwrites the sequence.  And it fails on a code node under a
    thematic break or under a fragment, which is deleted with the
    children of the break or with the fragment, and on a code node under
    another code node, which no pass reaches: it keeps its side-channel
    map. *)
Lemma processCodeBlocks_language_not_first :
  classNameOf (bagOf (processCodeBlocks sample_code_classed))
  = ["x"; "language-js"; "highlight"]
  ∧ head (classNameOf (bagOf (processCodeBlocks sample_code_classed)))
    ≠ Some "language-js"
  ∧ getProp (bagOf (processCodeBlocks sample_code_named)) "className"
    = Some (PStr "x")
  ∧ attributesTransform sample_code_line_named
    = Ok (parent_of "root"
            [setData sample_code_below
               (Some (mkData (Some [("className", PStr "x")]) None))] None)
  ∧ attributesTransform sample_code_in_break
    = Ok (parent_of "root" [break_on 1] None)
  ∧ attributesTransform sample_code_in_fragment
    = Ok (parent_of "root"
            [setBag (parent_of "paragraph" [text_of "x" None] None)
               [("className", PArr ["a"])]] None)
  ∧ attributesTransform sample_code_in_code = Ok sample_code_in_code.
Proof.
  split; [reflexivity|]. split; [intros H; discriminate H|].
  repeat split.
Qed.
